(** * Extended-memory dashboard: realtime channel and server-state cache

    A shallow embedding of the client-sync layer of the web dashboard:

    - [Channel]: the [useWebSocket] hook (hooks/useWebSocket.ts), as a
      state record for the React state and refs of one hook instance plus the
      host objects it drives (sockets, timers, console), with one function per
      handler of the source and a step function for the host's events;
    - [Cache]: the caching layer the data hooks are written against
      (react-query's query client), keyed by the query keys of the source;
    - [MemoryHooks]: the query keys, read hooks and mutations of
      hooks/useMemories.ts;
    - [AppShell]: the effect of [App.tsx] that observes [lastMessage]. *)

From Stdlib Require Import ZArith Lia.
From stdpp Require Import base list strings pretty.

Set Warnings "-register-all".

(** ** JavaScript values the hooks exchange with their host *)

Module JS.

Inductive JSError : Type :=
| TypeError
| SyntaxError.

(** The outcome of evaluating a JavaScript expression: a value, or an
    exception thrown to the caller. *)
Inductive Completion (A : Type) : Type :=
| Normal (a : A)
| Throw (e : JSError).
Arguments Normal {A} a.
Arguments Throw {A} e.

(** The values a caller can pass where the source says [any]: the
    tree-shaped values of the language (no cycles, no accessors). *)
Inductive JSValue : Type :=
| JUndefined
| JNull
| JBool (b : bool)
| JNum (n : Z)
| JStr (s : string)
| JBigInt (n : Z)
| JArr (xs : list JSValue)
| JObj (fields : list (string * JSValue)).

(** A JSON document: what [JSON.parse] returns and what [JSON.stringify]
    writes. *)
Inductive Json : Type :=
| JsNull
| JsBool (b : bool)
| JsNum (n : Z)
| JsStr (s : string)
| JsArr (xs : list Json)
| JsObj (fields : list (string * Json)).

(** [JSON.stringify] (ECMAScript SerializeJSONProperty): [undefined] has no
    serialisation ([None]); inside an array it is written as [null], inside
    an object the property is left out; a BigInt throws a TypeError. *)
Fixpoint SerializeJSONProperty (v : JSValue) : Completion (option Json) :=
  match v with
  | JUndefined => Normal None
  | JNull => Normal (Some JsNull)
  | JBool b => Normal (Some (JsBool b))
  | JNum n => Normal (Some (JsNum n))
  | JStr s => Normal (Some (JsStr s))
  | JBigInt _ => Throw TypeError
  | JArr xs =>
      let fix elements (l : list JSValue) : Completion (list Json) :=
        match l with
        | [] => Normal []
        | x :: l' =>
            match SerializeJSONProperty x with
            | Throw e => Throw e
            | Normal o =>
                match elements l' with
                | Throw e => Throw e
                | Normal js => Normal (default JsNull o :: js)
                end
            end
        end in
      match elements xs with
      | Throw e => Throw e
      | Normal js => Normal (Some (JsArr js))
      end
  | JObj fields =>
      let fix properties (l : list (string * JSValue))
        : Completion (list (string * Json)) :=
        match l with
        | [] => Normal []
        | (k, x) :: l' =>
            match SerializeJSONProperty x with
            | Throw e => Throw e
            | Normal o =>
                match properties l' with
                | Throw e => Throw e
                | Normal js =>
                    Normal (match o with
                            | Some j => (k, j) :: js
                            | None => js
                            end)
                end
            end
        end in
      match properties fields with
      | Throw e => Throw e
      | Normal js => Normal (Some (JsObj js))
      end
  end.

Definition JSON_stringify (v : JSValue) : Completion (option Json) :=
  SerializeJSONProperty v.

(** ToBoolean on a parsed document, for [if (lastMessage)]. *)
Definition truthy (j : Json) : bool :=
  match j with
  | JsNull => false
  | JsBool b => b
  | JsNum n => negb (n =? 0)%Z
  | JsStr s => negb (String.eqb s "")
  | JsArr _ | JsObj _ => true
  end.

End JS.
Import JS.

(** ** The realtime channel: hooks/useWebSocket.ts *)

Module Channel.

(** [WebSocket.readyState]. *)
Inductive ReadyState : Type :=
| CONNECTING
| OPEN
| CLOSING
| CLOSED.

#[global] Instance ReadyState_eq_dec : EqDecision ReadyState.
Proof. solve_decision. Defined.

(** The [connectionState] of the hook. *)
Inductive ConnectionState : Type :=
| connecting
| connected
| disconnected
| error.

#[global] Instance ConnectionState_eq_dec : EqDecision ConnectionState.
Proof. solve_decision. Defined.

(** What [ws.send] is handed: the text [JSON.stringify] produced, or
    [undefined] (which the host transmits as the text "undefined"). *)
Inductive Frame : Type :=
| FrameJson (j : Json)
| FrameUndefined.

(** A host socket object: the address it was constructed with, its ready
    state, and the frames handed to its [send], oldest first. *)
Record WebSocket : Type := mkWebSocket {
  ws_url : string;
  readyState : ReadyState;
  sent : list Frame
}.

Inductive TimerState : Type :=
| Pending
| Fired
| Cleared.

#[global] Instance TimerState_eq_dec : EqDecision TimerState.
Proof. solve_decision. Defined.

(** A host timer created by [setTimeout]: its delay in milliseconds and
    whether it is still due. *)
Record Timer : Type := mkTimer {
  delay : Z;
  timer_state : TimerState
}.

(** Calls made to the observers of the options. *)
Inductive Notification : Type :=
| CalledOnOpen
| CalledOnClose
| CalledOnError
| CalledOnMessage (message : Json).

(** [UseWebSocketOptions]; an observer is recorded by whether the caller
    supplied it. *)
Record UseWebSocketOptions : Type := mkOptions {
  enabled : bool;
  reconnect : bool;
  reconnectInterval : Z;
  maxReconnectAttempts : Z;
  onOpen : bool;
  onClose : bool;
  onError : bool;
  onMessage : bool
}.

(** The defaults of the destructuring in [useWebSocket], with no observer. *)
Definition default_options : UseWebSocketOptions :=
  {| enabled := true;
     reconnect := true;
     reconnectInterval := 3000;
     maxReconnectAttempts := 5;
     onOpen := false;
     onClose := false;
     onError := false;
     onMessage := false |}.

(** One instance of the hook: its React state ([isConnected], [lastMessage],
    [connectionState]), its refs, and the host objects it has created.
    [wsRef] and [reconnectTimeoutRef] hold indices into [sockets] and
    [timers]. [lastMessage] starts as [null]. *)
Record Hook : Type := mkHook {
  isConnected : bool;
  lastMessage : Json;
  connectionState : ConnectionState;
  wsRef : option nat;
  reconnectTimeoutRef : option nat;
  reconnectAttemptsRef : nat;
  clientIdRef : string;
  sockets : list WebSocket;
  timers : list Timer;
  console : list string;
  notified : list Notification
}.

Definition setIsConnected (b : bool) (h : Hook) : Hook :=
  mkHook b (lastMessage h) (connectionState h) (wsRef h)
    (reconnectTimeoutRef h) (reconnectAttemptsRef h) (clientIdRef h)
    (sockets h) (timers h) (console h) (notified h).

Definition setLastMessage (m : Json) (h : Hook) : Hook :=
  mkHook (isConnected h) m (connectionState h) (wsRef h)
    (reconnectTimeoutRef h) (reconnectAttemptsRef h) (clientIdRef h)
    (sockets h) (timers h) (console h) (notified h).

Definition setConnectionState (c : ConnectionState) (h : Hook) : Hook :=
  mkHook (isConnected h) (lastMessage h) c (wsRef h)
    (reconnectTimeoutRef h) (reconnectAttemptsRef h) (clientIdRef h)
    (sockets h) (timers h) (console h) (notified h).

Definition set_wsRef (r : option nat) (h : Hook) : Hook :=
  mkHook (isConnected h) (lastMessage h) (connectionState h) r
    (reconnectTimeoutRef h) (reconnectAttemptsRef h) (clientIdRef h)
    (sockets h) (timers h) (console h) (notified h).

Definition set_reconnectTimeoutRef (r : option nat) (h : Hook) : Hook :=
  mkHook (isConnected h) (lastMessage h) (connectionState h) (wsRef h)
    r (reconnectAttemptsRef h) (clientIdRef h)
    (sockets h) (timers h) (console h) (notified h).

Definition set_reconnectAttemptsRef (n : nat) (h : Hook) : Hook :=
  mkHook (isConnected h) (lastMessage h) (connectionState h) (wsRef h)
    (reconnectTimeoutRef h) n (clientIdRef h)
    (sockets h) (timers h) (console h) (notified h).

Definition set_sockets (l : list WebSocket) (h : Hook) : Hook :=
  mkHook (isConnected h) (lastMessage h) (connectionState h) (wsRef h)
    (reconnectTimeoutRef h) (reconnectAttemptsRef h) (clientIdRef h)
    l (timers h) (console h) (notified h).

Definition set_timers (l : list Timer) (h : Hook) : Hook :=
  mkHook (isConnected h) (lastMessage h) (connectionState h) (wsRef h)
    (reconnectTimeoutRef h) (reconnectAttemptsRef h) (clientIdRef h)
    (sockets h) l (console h) (notified h).

Definition console_error (line : string) (h : Hook) : Hook :=
  mkHook (isConnected h) (lastMessage h) (connectionState h) (wsRef h)
    (reconnectTimeoutRef h) (reconnectAttemptsRef h) (clientIdRef h)
    (sockets h) (timers h) (console h ++ [line]) (notified h).

(** [observer?.(...)]: the call happens when the observer was supplied. *)
Definition notify (supplied : bool) (n : Notification) (h : Hook) : Hook :=
  if supplied then
    mkHook (isConnected h) (lastMessage h) (connectionState h) (wsRef h)
      (reconnectTimeoutRef h) (reconnectAttemptsRef h) (clientIdRef h)
      (sockets h) (timers h) (console h) (notified h ++ [n])
  else h.

(** The state of a hook instance before its first effect runs. *)
Definition initial (clientId : string) : Hook :=
  {| isConnected := false;
     lastMessage := JsNull;
     connectionState := disconnected;
     wsRef := None;
     reconnectTimeoutRef := None;
     reconnectAttemptsRef := 0;
     clientIdRef := clientId;
     sockets := [];
     timers := [];
     console := [];
     notified := [] |}.

(** *** Host operations *)

(** [wsRef.current?.readyState]. *)
Definition current_readyState (h : Hook) : option ReadyState :=
  match wsRef h with
  | Some s => readyState <$> sockets h !! s
  | None => None
  end.

Definition set_readyState (s : nat) (r : ReadyState) (h : Hook) : Hook :=
  match sockets h !! s with
  | Some ws => set_sockets (<[s := mkWebSocket (ws_url ws) r (sent ws)]> (sockets h)) h
  | None => h
  end.

(** [ws.send(text)] on an open socket. *)
Definition ws_send (s : nat) (f : Frame) (h : Hook) : Hook :=
  match sockets h !! s with
  | Some ws =>
      set_sockets
        (<[s := mkWebSocket (ws_url ws) (readyState ws) (sent ws ++ [f])]> (sockets h)) h
  | None => h
  end.

(** [ws.close()]: a socket that is connecting or open starts closing. *)
Definition ws_close (s : nat) (h : Hook) : Hook :=
  match sockets h !! s with
  | Some ws =>
      match readyState ws with
      | CONNECTING | OPEN => set_readyState s CLOSING h
      | CLOSING | CLOSED => h
      end
  | None => h
  end.

(** [setTimeout(f, ms)]: a new pending timer; its handle is its index. *)
Definition setTimeout (ms : Z) (h : Hook) : nat * Hook :=
  (length (timers h), set_timers (timers h ++ [mkTimer ms Pending]) h).

(** [clearTimeout(t)]: a pending timer is cancelled. *)
Definition clearTimeout (t : nat) (h : Hook) : Hook :=
  match timers h !! t with
  | Some tm =>
      match timer_state tm with
      | Pending => set_timers (<[t := mkTimer (delay tm) Cleared]> (timers h)) h
      | Fired | Cleared => h
      end
  | None => h
  end.

Definition frame_of (o : option Json) : Frame :=
  match o with
  | Some j => FrameJson j
  | None => FrameUndefined
  end.

(** *** The hook *)

Section UseWebSocket.

(** The host the hook runs in: its JSON parser ([None] when [JSON.parse]
    throws a SyntaxError), the location of the page, and the addresses the
    [URL] and [WebSocket] constructors accept. *)
Variable JSON_parse : string → option Json.
Variable location_protocol : string.
Variable location_host : string.
Variable constructible : string → bool.

(** The arguments of [useWebSocket(url, options)], after defaulting. *)
Variable url : string.
Variable options : UseWebSocketOptions.

(** The address [connect] builds: the page's host, the secure scheme when
    the page is secure, and the client id as a query parameter. *)
Definition wsUrl (h : Hook) : string :=
  (if String.eqb location_protocol "https:" then "wss:" else "ws:")
    +:+ "//" +:+ location_host +:+ url +:+ "?client_id=" +:+ clientIdRef h.

Definition connection_info (clientId now : string) : JSValue :=
  JObj [("type", JStr "connection_info");
        ("data", JObj [("client_id", JStr clientId); ("timestamp", JStr now)])].

Definition ping (now : string) : JSValue :=
  JObj [("type", JStr "ping"); ("data", JObj [("timestamp", JStr now)])].

(** [ws.onopen] of the socket [s]; [now] is [new Date().toISOString()]. *)
Definition onopen (s : nat) (now : string) (h : Hook) : Hook :=
  let h := setIsConnected true h in
  let h := setConnectionState connected h in
  let h := set_reconnectAttemptsRef 0 h in
  let h := notify (onOpen options) CalledOnOpen h in
  match JSON_stringify (connection_info (clientIdRef h) now) with
  | Normal text => ws_send s (frame_of text) h
  | Throw _ => h
  end.

(** [ws.onmessage]: the try block, and the catch that logs. *)
Definition onmessage (data : string) (h : Hook) : Hook :=
  match JSON_parse data with
  | Some message =>
      let h := setLastMessage message h in
      notify (onMessage options) (CalledOnMessage message) h
  | None => console_error "Failed to parse WebSocket message:" h
  end.

(** [ws.onclose]: the reconnect is a timer whose callback is [connect]. *)
Definition onclose (h : Hook) : Hook :=
  let h := setIsConnected false h in
  let h := setConnectionState disconnected h in
  let h := set_wsRef None h in
  let h := notify (onClose options) CalledOnClose h in
  if reconnect options
     && (Z.of_nat (reconnectAttemptsRef h) <? maxReconnectAttempts options)%Z
  then
    let h := set_reconnectAttemptsRef (reconnectAttemptsRef h + 1) h in
    let (t, h) := setTimeout (reconnectInterval options) h in
    set_reconnectTimeoutRef (Some t) h
  else h.

(** [ws.onerror]. *)
Definition onerror (h : Hook) : Hook :=
  let h := setConnectionState error h in
  let h := notify (onError options) CalledOnError h in
  console_error "WebSocket error:" h.

(** [connect]: the guard, then the try block; the catch runs when a
    constructor throws. *)
Definition connect (h : Hook) : Hook :=
  if negb (enabled options)
     || bool_decide (current_readyState h = Some CONNECTING)
  then h
  else
    let h := setConnectionState connecting h in
    if constructible (wsUrl h) then
      let s := length (sockets h) in
      let h := set_sockets (sockets h ++ [mkWebSocket (wsUrl h) CONNECTING []]) h in
      set_wsRef (Some s) h
    else
      let h := setConnectionState error h in
      console_error "Failed to create WebSocket connection:" h.

(** [disconnect]. *)
Definition disconnect (h : Hook) : Hook :=
  let h :=
    match reconnectTimeoutRef h with
    | Some t => set_reconnectTimeoutRef None (clearTimeout t h)
    | None => h
    end in
  let h :=
    match wsRef h with
    | Some s => set_wsRef None (ws_close s h)
    | None => h
    end in
  let h := setIsConnected false h in
  setConnectionState disconnected h.

(** [sendMessage]: its return value or the exception it lets through, and
    the state after it. *)
Definition sendMessage (message : JSValue) (h : Hook) : Completion bool * Hook :=
  match wsRef h with
  | Some s =>
      if bool_decide (readyState <$> sockets h !! s = Some OPEN) then
        match JSON_stringify message with
        | Normal text => (Normal true, ws_send s (frame_of text) h)
        | Throw e => (Throw e, h)
        end
      else (Normal false, h)
  | None => (Normal false, h)
  end.

(** [sendPing]. *)
Definition sendPing (now : string) (h : Hook) : Completion bool * Hook :=
  sendMessage (ping now) h.

(** The first effect of the hook on mount. *)
Definition mount (clientId : string) : Hook :=
  if enabled options then connect (initial clientId) else initial clientId.

(** *** Events *)

(** What can happen to a hook instance: the host delivers a socket event or
    fires a timer, the ping interval ticks, or the caller uses the API the
    hook returns. A failed connection closes with an error event first. *)
Inductive Event : Type :=
| SocketOpened (s : nat) (now : string)
| SocketMessage (s : nat) (data : string)
| SocketClosed (s : nat) (failed : bool)
| TimerFired (t : nat)
| PingTick (now : string)
| CallConnect
| CallDisconnect
| CallSendMessage (message : JSValue)
| CallSendPing (now : string).

(** One event; [None] when the host cannot deliver it in this state (an
    open event needs a connecting socket, a message an open one, a close a
    socket not yet closed, a timer must be pending, and the ping interval
    exists only while [isConnected]). *)
Definition step (e : Event) (h : Hook) : option Hook :=
  match e with
  | SocketOpened s now =>
      match readyState <$> sockets h !! s with
      | Some CONNECTING => Some (onopen s now (set_readyState s OPEN h))
      | _ => None
      end
  | SocketMessage s data =>
      match readyState <$> sockets h !! s with
      | Some OPEN => Some (onmessage data h)
      | _ => None
      end
  | SocketClosed s failed =>
      match readyState <$> sockets h !! s with
      | Some CLOSED | None => None
      | Some _ =>
          let h := set_readyState s CLOSED h in
          let h := if failed then onerror h else h in
          Some (onclose h)
      end
  | TimerFired t =>
      match timers h !! t with
      | Some (mkTimer ms Pending) =>
          Some (connect (set_timers (<[t := mkTimer ms Fired]> (timers h)) h))
      | _ => None
      end
  | PingTick now =>
      if isConnected h then Some (snd (sendPing now h)) else None
  | CallConnect => Some (connect h)
  | CallDisconnect => Some (disconnect h)
  | CallSendMessage message => Some (snd (sendMessage message h))
  | CallSendPing now => Some (snd (sendPing now h))
  end.

(** A run: the events in order, from a state. *)
Fixpoint run (es : list Event) (h : Hook) : option Hook :=
  match es with
  | [] => Some h
  | e :: es' =>
      match step e h with
      | Some h' => run es' h'
      | None => None
      end
  end.

(** The states a mounted hook can be in. *)
Inductive reachable (clientId : string) : Hook → Prop :=
| reachable_mount : reachable clientId (mount clientId)
| reachable_step e h h' :
    reachable clientId h → step e h = Some h' → reachable clientId h'.

Definition is_host_event (e : Event) : bool :=
  match e with
  | SocketOpened _ _ | SocketMessage _ _ | SocketClosed _ _
  | TimerFired _ | PingTick _ => true
  | CallConnect | CallDisconnect | CallSendMessage _ | CallSendPing _ => false
  end.

Definition is_open_event (e : Event) : bool :=
  match e with
  | SocketOpened _ _ => true
  | _ => false
  end.

(** The delays of the timers created so far; every timer of the hook is a
    reconnect. *)
Definition scheduled_delays (h : Hook) : list Z := delay <$> timers h.

Definition pending_timers (h : Hook) : list Timer :=
  filter (λ tm, timer_state tm = Pending) (timers h).

(** What holds of every state of a mounted hook: the client id is fixed; if
    the socket the hook holds is open then the hook says [connected]; and a
    socket exists only if the constructors accept the address. *)
Definition channel_invariant (clientId : string) (h : Hook) : Prop :=
  clientIdRef h = clientId
  ∧ (current_readyState h = Some OPEN →
     connectionState h = connected ∧ isConnected h = true)
  ∧ (sockets h = [] ∨ constructible (wsUrl h) = true).

End UseWebSocket.

End Channel.

(** ** The records of types/memory.ts *)

Module Types.

Inductive MemoryType : Type :=
| general
| conversation
| fact
| task
| project
| personal
| code
| reference.

#[global] Instance MemoryType_eq_dec : EqDecision MemoryType.
Proof. solve_decision. Defined.

Inductive SharedCategory : Type :=
| knowledge
| tasks
| projects
| contacts
| resources
| templates.

#[global] Instance SharedCategory_eq_dec : EqDecision SharedCategory.
Proof. solve_decision. Defined.

(** [Memory]; an optional property is an [option]. The embedded
    [assistant] record is display data and is left out. *)
Record Memory : Type := mkMemory {
  id : Z;
  assistant_id : Z;
  content : string;
  summary : option string;
  memory_type : MemoryType;
  importance : Z;
  tags : option string;
  source : option string;
  context : option string;
  is_shared : bool;
  shared_category : option SharedCategory;
  access_count : Z;
  created_at : string;
  updated_at : string;
  accessed_at : option string
}.

#[global] Instance Memory_eq_dec : EqDecision Memory.
Proof. solve_decision. Defined.

(** [CreateMemoryRequest]. *)
Record CreateMemoryRequest : Type := mkCreateMemoryRequest {
  create_assistant_id : Z;
  create_content : string;
  create_summary : option string;
  create_memory_type : option MemoryType;
  create_importance : option Z;
  create_tags : option string;
  create_source : option string;
  create_context : option string;
  create_is_shared : option bool;
  create_shared_category : option SharedCategory
}.

(** [UpdateMemoryRequest]. *)
Record UpdateMemoryRequest : Type := mkUpdateMemoryRequest {
  update_content : option string;
  update_summary : option string;
  update_memory_type : option MemoryType;
  update_importance : option Z;
  update_tags : option string;
  update_source : option string;
  update_context : option string;
  update_is_shared : option bool;
  update_shared_category : option SharedCategory
}.

(** [MemoryFilters]: every property is optional. *)
Record MemoryFilters : Type := mkMemoryFilters {
  filter_assistant_id : option Z;
  filter_memory_type : option MemoryType;
  min_importance : option Z;
  max_importance : option Z;
  filter_tags : option (list string);
  include_shared : option bool;
  skip : option Z;
  limit : option Z
}.

#[global] Instance MemoryFilters_eq_dec : EqDecision MemoryFilters.
Proof. solve_decision. Defined.

(** The default argument [filters = {}]. *)
Definition no_filters : MemoryFilters :=
  mkMemoryFilters None None None None None None None None.

(** [MemoryStats]. *)
Record MemoryStats : Type := mkMemoryStats {
  stats_assistant_id : Z;
  assistant_name : string;
  total_memories : Z;
  total_shared_memories : Z;
  avg_importance : Z;
  most_used_type : option string;
  memories_created_today : Z;
  memories_accessed_today : Z;
  date : string
}.

#[global] Instance MemoryStats_eq_dec : EqDecision MemoryStats.
Proof. solve_decision. Defined.

End Types.

(** ** The calls of services/memoryService.ts *)

Module Service.
Import Types.

(** One constructor per method of [memoryService] that the hooks use: the
    request it sends through the API client. *)
Inductive ServiceCall : Type :=
| getMemories (filters : MemoryFilters)
| getMemory (id : Z)
| createMemory (data : CreateMemoryRequest)
| updateMemory (id : Z) (data : UpdateMemoryRequest)
| deleteMemory (id : Z)
| getRelatedMemories (id : Z) (limit : Z)
| recordAccess (id : Z)
| getMemoryStats (assistantId : Z)
| bulkDeleteMemories (ids : list Z)
| getRecentMemories (assistantId : option Z) (limit : Z)
| getMostImportantMemories (assistantId : option Z) (limit : Z)
| getMostAccessedMemories (assistantId : option Z) (limit : Z).

(** The rejection a failed call hands to its caller; [message] is what
    [error?.message] reads. *)
Record ApiError : Type := mkApiError {
  message : option string
}.

(** How a remote call ends. *)
Inductive RemoteResult (A : Type) : Type :=
| Resolved (a : A)
| Rejected (e : ApiError).
Arguments Resolved {A} a.
Arguments Rejected {A} e.

(** The payloads the read hooks cache. *)
Inductive Data : Type :=
| DataMemory (m : Memory)
| DataMemories (ms : list Memory)
| DataStats (s : MemoryStats).

End Service.

(** ** The caching layer

    The data hooks are written against the query client of the react-query
    package ([useQuery], [useMutation], [invalidateQueries],
    [removeQueries], [setQueryData]). Its source is not part of the
    repository, so this module models it from sections 3 and 4.2 of the
    specification (cache entry, key space, read and write contracts,
    invalidation), in the vocabulary of the package. Where the
    specification is silent (a reader that is not enabled, the refetch of
    invalidated entries that have a mounted reader, the number of retries)
    the documented behaviour of the package and the defaults configured in
    main.tsx are followed. *)

Module Cache.
Import Types Service.

(** One element of a query key of the source: a string, a number,
    [undefined] (an optional argument left out), or a filter object. *)
Inductive KeyPart : Type :=
| KStr (s : string)
| KNum (n : Z)
| KUndefined
| KFilters (f : MemoryFilters).

#[global] Instance KeyPart_eq_dec : EqDecision KeyPart.
Proof. solve_decision. Defined.

Abbreviation QueryKey := (list KeyPart).

Inductive QueryStatus : Type :=
| Idle
| Loading
| Success
| Error.

#[global] Instance QueryStatus_eq_dec : EqDecision QueryStatus.
Proof. solve_decision. Defined.

(** Modelled from the spec: the cache entry of section 3 (the query object
    of the react-query dependency, which is not part of the repository):
    its key, the fetcher its readers registered, the cached value, the
    fetch status, the last-fetched timestamp, the invalidation mark, whether
    a fetch is in flight, the failures of that fetch so far, and the number
    of mounted readers that are enabled. *)
Record Query : Type := mkQuery {
  queryKey : QueryKey;
  queryFn : option ServiceCall;
  data : option Data;
  status : QueryStatus;
  dataUpdatedAt : option Z;
  isInvalidated : bool;
  isFetching : bool;
  failureCount : nat;
  observers : nat
}.

(** Modelled from the spec: the entry table, with the network calls of
    read fetches that have not been answered yet (by key) and every call
    issued so far, oldest first. *)
Record QueryClient : Type := mkClient {
  queries : list Query;
  outstanding : list QueryKey;
  requests : list ServiceCall
}.

Definition empty_client : QueryClient := mkClient [] [] [].

(** The defaults main.tsx configures for queries; mutations get none, so
    they keep the layer's default of no retry. *)
Definition staleTime : Z := 5 * 60 * 1000.
Definition query_retry : nat := 2.
Definition mutation_retry : nat := 0.

(** *** Matching keys *)

Definition partial_option {A : Type} (eqb : A → A → bool) (a b : option A) : bool :=
  match b with
  | None => true
  | Some y =>
      match a with
      | Some x => eqb x y
      | None => false
      end
  end.

Fixpoint partial_strings (a b : list string) : bool :=
  match b with
  | [] => true
  | y :: b' =>
      match a with
      | x :: a' => String.eqb x y && partial_strings a' b'
      | [] => false
      end
  end.

(** Modelled from the spec: a filter object matches an entry's object when
    every property the filter has is in the entry's with the same value. *)
Definition partialDeepEqual_filters (a b : MemoryFilters) : bool :=
  partial_option Z.eqb (filter_assistant_id a) (filter_assistant_id b)
  && partial_option (λ x y, bool_decide (x = y)) (filter_memory_type a) (filter_memory_type b)
  && partial_option Z.eqb (min_importance a) (min_importance b)
  && partial_option Z.eqb (max_importance a) (max_importance b)
  && partial_option partial_strings (filter_tags a) (filter_tags b)
  && partial_option Bool.eqb (include_shared a) (include_shared b)
  && partial_option Z.eqb (skip a) (skip b)
  && partial_option Z.eqb (limit a) (limit b).

Definition partialDeepEqual (a b : KeyPart) : bool :=
  match a, b with
  | KFilters fa, KFilters fb => partialDeepEqual_filters fa fb
  | _, _ => bool_decide (a = b)
  end.

(** Modelled from the spec: an entry is affected by a key when the key is
    a leading part of the entry's key (section 3: every entry of the
    resource kind); reading past the end of the entry's key gives
    [undefined]. *)
Fixpoint partialMatchKey (a b : QueryKey) : bool :=
  match b with
  | [] => true
  | pb :: b' =>
      match a with
      | pa :: a' => partialDeepEqual pa pb && partialMatchKey a' b'
      | [] => partialDeepEqual KUndefined pb && partialMatchKey [] b'
      end
  end.

(** The filters of an invalidation or removal: a key, or none (every
    entry). *)
Record QueryFilters : Type := mkFilters {
  filters_queryKey : option QueryKey
}.

(** What the source passes as the first argument: a query key (an array),
    or a function object, which has none of the properties of a filter. *)
Inductive FilterArg : Type :=
| ArgKey (k : QueryKey)
| ArgFunction.

Definition parseFilterArgs (arg : FilterArg) : QueryFilters :=
  match arg with
  | ArgKey k => mkFilters (Some k)
  | ArgFunction => mkFilters None
  end.

Definition matchQuery (f : QueryFilters) (q : Query) : bool :=
  match filters_queryKey f with
  | Some k => partialMatchKey (queryKey q) k
  | None => true
  end.

(** *** The entry table *)

Fixpoint find_query (k : QueryKey) (qs : list Query) : option Query :=
  match qs with
  | [] => None
  | q :: qs' => if decide (queryKey q = k) then Some q else find_query k qs'
  end.

Fixpoint update_query (k : QueryKey) (f : Query → Query) (qs : list Query) : list Query :=
  match qs with
  | [] => []
  | q :: qs' =>
      if decide (queryKey q = k) then f q :: qs' else q :: update_query k f qs'
  end.

Fixpoint remove_first (k : QueryKey) (ks : list QueryKey) : list QueryKey :=
  match ks with
  | [] => []
  | k' :: ks' => if decide (k' = k) then ks' else k' :: remove_first k ks'
  end.

Definition new_query (k : QueryKey) (fn : option ServiceCall) : Query :=
  mkQuery k fn None Idle None false false 0 0.

Definition set_queryFn (fn : option ServiceCall) (q : Query) : Query :=
  mkQuery (queryKey q)
    (match fn with Some _ => fn | None => queryFn q end)
    (data q) (status q) (dataUpdatedAt q) (isInvalidated q) (isFetching q)
    (failureCount q) (observers q).

(** The entry for a key, created idle on first use. *)
Definition build (k : QueryKey) (fn : option ServiceCall) (c : QueryClient) : QueryClient :=
  match find_query k (queries c) with
  | Some _ => mkClient (update_query k (set_queryFn fn) (queries c)) (outstanding c) (requests c)
  | None => mkClient (queries c ++ [new_query k fn]) (outstanding c) (requests c)
  end.

Definition start_fetch (q : Query) : Query :=
  mkQuery (queryKey q) (queryFn q) (data q)
    (match dataUpdatedAt q with None => Loading | Some _ => status q end)
    (dataUpdatedAt q) (isInvalidated q) true 0 (observers q).

(** Modelled from the spec: a fetch for a key joins the one in flight, and
    otherwise issues the registered call. *)
Definition fetch (k : QueryKey) (c : QueryClient) : QueryClient :=
  match find_query k (queries c) with
  | Some q =>
      if isFetching q then c
      else
        match queryFn q with
        | Some fn =>
            mkClient (update_query k start_fetch (queries c))
              (outstanding c ++ [k]) (requests c ++ [fn])
        | None => c
        end
  | None => c
  end.

Definition isStale (now : Z) (q : Query) : bool :=
  isInvalidated q
  || match dataUpdatedAt q with
     | None => true
     | Some t => (t + staleTime <=? now)%Z
     end.

Definition add_observer (q : Query) : Query :=
  mkQuery (queryKey q) (queryFn q) (data q) (status q) (dataUpdatedAt q)
    (isInvalidated q) (isFetching q) (failureCount q) (S (observers q)).

Definition remove_observer (q : Query) : Query :=
  mkQuery (queryKey q) (queryFn q) (data q) (status q) (dataUpdatedAt q)
    (isInvalidated q) (isFetching q) (failureCount q) (pred (observers q)).

(** Modelled from the spec: the read contract of section 4.2, for a reader
    mounting at time [now]. A fresh entry is returned without network
    access; an entry with no value, a stale one or an invalidated one is
    fetched (a stale value stays readable meanwhile); a fetch in flight is
    joined. A reader that is not enabled registers the entry and fetches
    nothing. *)
Definition useQuery (k : QueryKey) (fn : ServiceCall) (enabled : bool) (now : Z)
    (c : QueryClient) : QueryClient :=
  let c := build k (Some fn) c in
  if enabled then
    let c := mkClient (update_query k add_observer (queries c))
               (outstanding c) (requests c) in
    match find_query k (queries c) with
    | Some q => if isStale now q then fetch k c else c
    | None => c
    end
  else c.

(** A reader unmounts. *)
Definition unsubscribe (k : QueryKey) (enabled : bool) (c : QueryClient) : QueryClient :=
  if enabled then
    mkClient (update_query k remove_observer (queries c)) (outstanding c) (requests c)
  else c.

Definition fetch_success (d : Data) (now : Z) (q : Query) : Query :=
  mkQuery (queryKey q) (queryFn q) (Some d) Success (Some now) false false 0
    (observers q).

Definition fetch_retry (q : Query) : Query :=
  mkQuery (queryKey q) (queryFn q) (data q) (status q) (dataUpdatedAt q)
    (isInvalidated q) true (S (failureCount q)) (observers q).

(** A failed fetch leaves the value it had. *)
Definition fetch_error (q : Query) : Query :=
  mkQuery (queryKey q) (queryFn q) (data q) Error (dataUpdatedAt q)
    (isInvalidated q) false (S (failureCount q)) (observers q).

(** Modelled from the spec: the answer to an outstanding call arrives
    ([None] when no call for the key is outstanding). A success stores the
    value; a failure is retried while fewer than [query_retry] failures
    were counted (the pause before the retry is not modelled), and then
    becomes the entry's error state. An answer for an entry that was
    removed, or that is no longer fetching, is dropped. *)
Definition settle (k : QueryKey) (r : RemoteResult Data) (now : Z)
    (c : QueryClient) : option QueryClient :=
  if bool_decide (k ∈ outstanding c) then
    let out := remove_first k (outstanding c) in
    match find_query k (queries c) with
    | Some q =>
        if isFetching q then
          match r with
          | Resolved d =>
              Some (mkClient (update_query k (fetch_success d now) (queries c))
                      out (requests c))
          | Rejected _ =>
              if (failureCount q <? query_retry)%nat then
                Some (mkClient (update_query k fetch_retry (queries c))
                        (out ++ [k])
                        (requests c ++ option_list (queryFn q)))
              else
                Some (mkClient (update_query k fetch_error (queries c))
                        out (requests c))
          end
        else Some (mkClient (queries c) out (requests c))
    | None => Some (mkClient (queries c) out (requests c))
    end
  else None.

Definition invalidate (q : Query) : Query :=
  mkQuery (queryKey q) (queryFn q) (data q) (status q) (dataUpdatedAt q)
    true (isFetching q) (failureCount q) (observers q).

(** Refetch the entries among [qs] that match and have an enabled reader. *)
Fixpoint refetchQueries (f : QueryFilters) (qs : list Query) (c : QueryClient) : QueryClient :=
  match qs with
  | [] => c
  | q :: qs' =>
      let c := if matchQuery f q && (0 <? observers q)%nat
               then fetch (queryKey q) c else c in
      refetchQueries f qs' c
  end.

(** Modelled from the spec: invalidation marks every matching entry, so
    that its next read fetches, and refetches at once those with an
    enabled reader mounted. *)
Definition invalidateQueries (arg : FilterArg) (c : QueryClient) : QueryClient :=
  let f := parseFilterArgs arg in
  let qs := (λ q, if matchQuery f q then invalidate q else q) <$> queries c in
  refetchQueries f qs (mkClient qs (outstanding c) (requests c)).

(** Modelled from the spec: removal drops every matching entry. *)
Definition removeQueries (arg : FilterArg) (c : QueryClient) : QueryClient :=
  let f := parseFilterArgs arg in
  mkClient (filter (λ q, matchQuery f q = false) (queries c))
    (outstanding c) (requests c).

Definition set_data (d : Data) (now : Z) (q : Query) : Query :=
  mkQuery (queryKey q) (queryFn q) (Some d) Success (Some now) false false 0
    (observers q).

(** Modelled from the spec: seeding writes a value into the entry for a
    key, creating the entry when there is none. *)
Definition setQueryData (k : QueryKey) (d : Data) (now : Z) (c : QueryClient) : QueryClient :=
  let c := build k None c in
  mkClient (update_query k (set_data d now) (queries c)) (outstanding c) (requests c).

(** *** Notions used to state the properties of the layer *)

(** An entry transformer that leaves the key alone. *)
Definition keeps_key (f : Query → Query) : Prop := ∀ q, queryKey (f q) = queryKey q.

(** Whether a filter reaches an entry depends on the entry's key alone. *)
Definition matchKey (f : QueryFilters) (k : QueryKey) : bool :=
  match filters_queryKey f with
  | Some fk => partialMatchKey k fk
  | None => true
  end.

(** A fetch is in flight for the key, according to the entry table. *)
Definition fetching_in (qs : list Query) (k : QueryKey) : Prop :=
  ∃ q, find_query k qs = Some q ∧ isFetching q = true.


End Cache.

(** ** The data hooks: hooks/useMemories.ts *)

Module MemoryHooks.
Import Types Service Cache.

(** *** Query keys *)

Module MEMORY_KEYS.

Definition all : QueryKey := [KStr "memories"].
Definition lists : QueryKey := all ++ [KStr "list"].
Definition list (filters : MemoryFilters) : QueryKey := lists ++ [KFilters filters].
Definition details : QueryKey := all ++ [KStr "detail"].
Definition detail (id : Z) : QueryKey := details ++ [KNum id].
Definition related (id : Z) : QueryKey := all ++ [KStr "related"; KNum id].
Definition stats (assistantId : Z) : QueryKey := all ++ [KStr "stats"; KNum assistantId].

Definition optional (assistantId : option Z) : KeyPart :=
  match assistantId with
  | Some n => KNum n
  | None => KUndefined
  end.

Definition recent (assistantId : option Z) : QueryKey :=
  all ++ [KStr "recent"; optional assistantId].
Definition important (assistantId : option Z) : QueryKey :=
  all ++ [KStr "important"; optional assistantId].
Definition accessed (assistantId : option Z) : QueryKey :=
  all ++ [KStr "accessed"; optional assistantId].

End MEMORY_KEYS.

(** *** Reads *)

(** The [options] argument of a read hook, as far as it is spread over the
    hook's own settings: it can replace [enabled]. *)
Record ReadOptions : Type := mkReadOptions {
  options_enabled : option bool
}.

#[global] Instance ReadOptions_eq_dec : EqDecision ReadOptions.
Proof. solve_decision. Defined.

Definition no_options : ReadOptions := mkReadOptions None.

(** [!!id] for a number. *)
Definition truthy_number (n : Z) : bool := negb (n =? 0)%Z.

(** A call of a read hook by a mounted component. *)
Inductive ReadHook : Type :=
| useMemories (filters : MemoryFilters) (options : ReadOptions)
| useMemory (id : Z) (options : ReadOptions)
| useRelatedMemories (id : Z) (limit : Z) (options : ReadOptions)
| useMemoryStats (assistantId : Z) (options : ReadOptions)
| useRecentMemories (assistantId : option Z) (limit : Z) (options : ReadOptions)
| useMostImportantMemories (assistantId : option Z) (limit : Z) (options : ReadOptions)
| useMostAccessedMemories (assistantId : option Z) (limit : Z) (options : ReadOptions).

(** The [queryKey] of each hook. *)
Definition hook_queryKey (r : ReadHook) : QueryKey :=
  match r with
  | useMemories filters _ => MEMORY_KEYS.list filters
  | useMemory id _ => MEMORY_KEYS.detail id
  | useRelatedMemories id _ _ => MEMORY_KEYS.related id
  | useMemoryStats assistantId _ => MEMORY_KEYS.stats assistantId
  | useRecentMemories assistantId _ _ => MEMORY_KEYS.recent assistantId
  | useMostImportantMemories assistantId _ _ => MEMORY_KEYS.important assistantId
  | useMostAccessedMemories assistantId _ _ => MEMORY_KEYS.accessed assistantId
  end.

(** The [queryFn] of each hook. *)
Definition hook_queryFn (r : ReadHook) : ServiceCall :=
  match r with
  | useMemories filters _ => getMemories filters
  | useMemory id _ => getMemory id
  | useRelatedMemories id limit _ => getRelatedMemories id limit
  | useMemoryStats assistantId _ => getMemoryStats assistantId
  | useRecentMemories assistantId limit _ => getRecentMemories assistantId limit
  | useMostImportantMemories assistantId limit _ => getMostImportantMemories assistantId limit
  | useMostAccessedMemories assistantId limit _ => getMostAccessedMemories assistantId limit
  end.

Definition hook_options (r : ReadHook) : ReadOptions :=
  match r with
  | useMemories _ o | useMemory _ o | useRelatedMemories _ _ o
  | useMemoryStats _ o | useRecentMemories _ _ o
  | useMostImportantMemories _ _ o | useMostAccessedMemories _ _ o => o
  end.

(** The [enabled] each hook sets before [...options] is spread over it. *)
Definition hook_own_enabled (r : ReadHook) : bool :=
  match r with
  | useMemory id _ => truthy_number id
  | useRelatedMemories id _ _ => truthy_number id
  | useMemoryStats assistantId _ => truthy_number assistantId
  | useMemories _ _ | useRecentMemories _ _ _
  | useMostImportantMemories _ _ _ | useMostAccessedMemories _ _ _ => true
  end.

Definition hook_enabled (r : ReadHook) : bool :=
  match options_enabled (hook_options r) with
  | Some b => b
  | None => hook_own_enabled r
  end.

(** A component that calls the hook mounts at time [now]. *)
Definition mount (r : ReadHook) (now : Z) (c : QueryClient) : QueryClient :=
  useQuery (hook_queryKey r) (hook_queryFn r) (hook_enabled r) now c.

Definition unmount (r : ReadHook) (c : QueryClient) : QueryClient :=
  unsubscribe (hook_queryKey r) (hook_enabled r) c.

(** *** Mutations *)

Inductive Toast : Type :=
| toast_success (text : string)
| toast_error (text : string).

(** What the mutation hooks act on: the query client and the toasts shown. *)
Record App : Type := mkApp {
  client : QueryClient;
  toasts : list Toast
}.

Definition with_client (f : QueryClient → QueryClient) (a : App) : App :=
  mkApp (f (client a)) (toasts a).

Definition toast (t : Toast) (a : App) : App :=
  mkApp (client a) (toasts a ++ [t]).

(** [error?.message || fallback]. *)
Definition message_or (e : ApiError) (fallback : string) : string :=
  match message e with
  | Some m => if String.eqb m "" then fallback else m
  | None => fallback
  end.

(** The remote end of a mutation: the outcome of its n-th attempt. *)
Definition Remote (A : Type) : Type := nat → RemoteResult A.

(** Modelled from the spec: the write contract of section 4.2. The call is
    issued; after a failure it is issued again while retries remain. *)
Fixpoint execute {A : Type} (retries : nat) (attempt : nat) (call : ServiceCall)
    (remote : Remote A) (c : QueryClient) : RemoteResult A * QueryClient :=
  let c := mkClient (queries c) (outstanding c) (requests c ++ [call]) in
  match remote attempt with
  | Resolved a => (Resolved a, c)
  | Rejected e =>
      match retries with
      | O => (Rejected e, c)
      | S retries' => execute retries' (S attempt) call remote c
      end
  end.

(** Modelled from the spec: [useMutation(...).mutate(variables)]: the
    remote write, then [onSuccess] with its result or [onError] with its
    error; the outcome is what the caller observes. *)
Definition useMutation {V A : Type}
    (mutationFn : V → ServiceCall)
    (onSuccess : A → V → App → App)
    (onError : option (ApiError → App → App))
    (variables : V) (remote : Remote A) (a : App) : RemoteResult A * App :=
  let (outcome, c) := execute mutation_retry 0 (mutationFn variables) remote (client a) in
  let a := mkApp c (toasts a) in
  match outcome with
  | Resolved result => (outcome, onSuccess result variables a)
  | Rejected e =>
      (outcome, match onError with
                | Some handler => handler e a
                | None => a
                end)
  end.

Definition useCreateMemory (data : CreateMemoryRequest) (remote : Remote Memory)
    (a : App) : RemoteResult Memory * App :=
  useMutation createMemory
    (λ newMemory _ a,
       let a := with_client (invalidateQueries (ArgKey MEMORY_KEYS.lists)) a in
       let a := with_client
                  (invalidateQueries (ArgKey (MEMORY_KEYS.stats (assistant_id newMemory)))) a in
       let a := with_client
                  (invalidateQueries
                     (ArgKey (MEMORY_KEYS.recent (Some (assistant_id newMemory))))) a in
       toast (toast_success "Memory created successfully") a)
    (Some (λ e a, toast (toast_error (message_or e "Failed to create memory")) a))
    data remote a.

(** [now] is the time at which the updated record is seeded. *)
Definition useUpdateMemory (variables : Z * UpdateMemoryRequest) (now : Z)
    (remote : Remote Memory) (a : App) : RemoteResult Memory * App :=
  useMutation (λ v : Z * UpdateMemoryRequest, updateMemory (fst v) (snd v))
    (λ updatedMemory _ a,
       let a := with_client
                  (setQueryData (MEMORY_KEYS.detail (id updatedMemory))
                     (DataMemory updatedMemory) now) a in
       let a := with_client (invalidateQueries (ArgKey MEMORY_KEYS.lists)) a in
       let a := with_client
                  (invalidateQueries
                     (ArgKey (MEMORY_KEYS.stats (assistant_id updatedMemory)))) a in
       toast (toast_success "Memory updated successfully") a)
    (Some (λ e a, toast (toast_error (message_or e "Failed to update memory")) a))
    variables remote a.

(** The second invalidation passes [MEMORY_KEYS.stats] itself, the
    function, not a key built by it. *)
Definition useDeleteMemory (deletedId : Z) (remote : Remote unit)
    (a : App) : RemoteResult unit * App :=
  useMutation deleteMemory
    (λ _ deletedId a,
       let a := with_client (removeQueries (ArgKey (MEMORY_KEYS.detail deletedId))) a in
       let a := with_client (invalidateQueries (ArgKey MEMORY_KEYS.lists)) a in
       let a := with_client (invalidateQueries ArgFunction) a in
       toast (toast_success "Memory deleted successfully") a)
    (Some (λ e a, toast (toast_error (message_or e "Failed to delete memory")) a))
    deletedId remote a.

Definition useRecordAccess (accessedId : Z) (remote : Remote unit)
    (a : App) : RemoteResult unit * App :=
  useMutation recordAccess
    (λ _ accessedId a,
       let a := with_client (invalidateQueries (ArgKey (MEMORY_KEYS.detail accessedId))) a in
       with_client (invalidateQueries (ArgKey (MEMORY_KEYS.accessed None))) a)
    None
    accessedId remote a.

(** The result of a bulk deletion, of which the hook reads [deleted_count]. *)
Record BulkDeleteResult : Type := mkBulkDeleteResult {
  deleted_count : Z
}.

Definition useBulkDeleteMemories (ids : list Z) (remote : Remote BulkDeleteResult)
    (a : App) : RemoteResult BulkDeleteResult * App :=
  useMutation bulkDeleteMemories
    (λ result _ a,
       let a := with_client (invalidateQueries (ArgKey MEMORY_KEYS.all)) a in
       toast (toast_success ("Deleted " +:+ pretty (deleted_count result) +:+ " memories")) a)
    (Some (λ e a, toast (toast_error (message_or e "Failed to delete memories")) a))
    ids remote a.

(** The five mutations, each with its variables and its remote end. *)
Inductive Mutation : Type :=
| CreateMemory (data : CreateMemoryRequest) (remote : Remote Memory)
| UpdateMemory (id : Z) (data : UpdateMemoryRequest) (now : Z) (remote : Remote Memory)
| DeleteMemory (id : Z) (remote : Remote unit)
| RecordAccess (id : Z) (remote : Remote unit)
| BulkDeleteMemories (ids : list Z) (remote : Remote BulkDeleteResult).

(** What the caller of [mutate] observes: success, or the error. *)
Definition outcome {A : Type} (r : RemoteResult A) : option ApiError :=
  match r with
  | Resolved _ => None
  | Rejected e => Some e
  end.

Definition mutate (m : Mutation) (a : App) : option ApiError * App :=
  match m with
  | CreateMemory data remote =>
      let (r, a) := useCreateMemory data remote a in (outcome r, a)
  | UpdateMemory id data now remote =>
      let (r, a) := useUpdateMemory (id, data) now remote a in (outcome r, a)
  | DeleteMemory id remote =>
      let (r, a) := useDeleteMemory id remote a in (outcome r, a)
  | RecordAccess id remote =>
      let (r, a) := useRecordAccess id remote a in (outcome r, a)
  | BulkDeleteMemories ids remote =>
      let (r, a) := useBulkDeleteMemories ids remote a in (outcome r, a)
  end.

(** The call a mutation sends, and how its first attempt ends. *)
Definition mutation_call (m : Mutation) : ServiceCall :=
  match m with
  | CreateMemory data _ => createMemory data
  | UpdateMemory id data _ _ => updateMemory id data
  | DeleteMemory id _ => deleteMemory id
  | RecordAccess id _ => recordAccess id
  | BulkDeleteMemories ids _ => bulkDeleteMemories ids
  end.

Definition first_attempt (m : Mutation) : option ApiError :=
  match m with
  | CreateMemory _ remote => outcome (remote 0%nat)
  | UpdateMemory _ _ _ remote => outcome (remote 0%nat)
  | DeleteMemory _ remote => outcome (remote 0%nat)
  | RecordAccess _ remote => outcome (remote 0%nat)
  | BulkDeleteMemories _ remote => outcome (remote 0%nat)
  end.

(** The toast each [onError] shows; recording an access has no [onError]. *)
Definition error_toasts (m : Mutation) (e : ApiError) : list Toast :=
  match m with
  | CreateMemory _ _ => [toast_error (message_or e "Failed to create memory")]
  | UpdateMemory _ _ _ _ => [toast_error (message_or e "Failed to update memory")]
  | DeleteMemory _ _ => [toast_error (message_or e "Failed to delete memory")]
  | RecordAccess _ _ => []
  | BulkDeleteMemories _ _ => [toast_error (message_or e "Failed to delete memories")]
  end.

(** The keys a successful creation for an assistant invalidates. *)
Definition create_affects (assistantId : Z) (k : QueryKey) : bool :=
  partialMatchKey k MEMORY_KEYS.lists
  || partialMatchKey k (MEMORY_KEYS.stats assistantId)
  || partialMatchKey k (MEMORY_KEYS.recent (Some assistantId)).

End MemoryHooks.

(** ** What can happen to the cache *)

Module CacheEvents.
Import Types Service Cache MemoryHooks.

(** A component mounts or unmounts a read hook, the answer to an
    outstanding call arrives, or a mutation's success handler invalidates,
    removes or seeds entries. *)
Inductive CacheEvent : Type :=
| Mount (r : ReadHook) (now : Z)
| Unmount (r : ReadHook)
| Settle (k : QueryKey) (result : RemoteResult Data) (now : Z)
| Invalidate (arg : FilterArg)
| Remove (arg : FilterArg)
| Seed (k : QueryKey) (d : Data) (now : Z).

Definition step (e : CacheEvent) (c : QueryClient) : option QueryClient :=
  match e with
  | Mount r now => Some (mount r now c)
  | Unmount r => Some (unmount r c)
  | Settle k result now => settle k result now c
  | Invalidate arg => Some (invalidateQueries arg c)
  | Remove arg => Some (removeQueries arg c)
  | Seed k d now => Some (setQueryData k d now c)
  end.

Fixpoint run (es : list CacheEvent) (c : QueryClient) : option QueryClient :=
  match es with
  | [] => Some c
  | e :: es' =>
      match step e c with
      | Some c' => run es' c'
      | None => None
      end
  end.


(** An event that is neither a read of memory 0 or of the statistics of
    assistant 0 with [options] of its own, nor a seeding of their entries. *)
Definition plain_for_zero (e : CacheEvent) : bool :=
  match e with
  | Mount (useMemory n o) _ | Mount (useMemoryStats n o) _ =>
      negb (n =? 0)%Z || bool_decide (o = no_options)
  | Seed k _ _ =>
      negb (bool_decide (k = MEMORY_KEYS.detail 0))
      && negb (bool_decide (k = MEMORY_KEYS.stats 0))
  | _ => true
  end.

(** The keys of memory 0 and of the statistics of assistant 0. *)
Definition zero_key (k : QueryKey) : Prop :=
  k = MEMORY_KEYS.detail 0 ∨ k = MEMORY_KEYS.stats 0.

(** An entry nothing has fetched or observed. *)
Definition dormant (q : Query) : Prop :=
  observers q = 0%nat ∧ isFetching q = false ∧ status q = Idle
  ∧ data q = None ∧ dataUpdatedAt q = None.

(** The fetcher of an entry is the one a read hook registers for its key. *)
Definition from_hook (q : Query) : Prop :=
  ∀ fn : ServiceCall,
    queryFn q = Some fn → ∃ r : ReadHook, queryKey q = hook_queryKey r ∧ fn = hook_queryFn r.

Definition entry_ok (q : Query) : Prop :=
  (zero_key (queryKey q) → dormant q) ∧ from_hook q.

Definition zero_invariant (c : QueryClient) : Prop :=
  Forall entry_ok (queries c)
  ∧ (∀ k, zero_key k → k ∉ outstanding c)
  ∧ (getMemory 0 ∉ requests c)
  ∧ (getMemoryStats 0 ∉ requests c).

End CacheEvents.

(** ** The application shell: App.tsx *)

Module AppShell.
Import MemoryHooks.

(** What the effect on [lastMessage] can reach: the application's cache and
    toasts, and the console, as lines of a label and a value. *)
Record Shell : Type := mkShell {
  app : App;
  console : list (string * Json)
}.

(** The effect of [App] that depends on [lastMessage], run for a value of
    it. *)
Definition onLastMessage (lastMessage : Json) (s : Shell) : Shell :=
  if truthy lastMessage then
    mkShell (app s) (console s ++ [("WebSocket message:", lastMessage)])
  else s.

(** A realtime message as the server sends it. *)
Definition realtime_message (type : string) (data : Json) (timestamp : string) : Json :=
  JsObj [("type", JsStr type); ("data", data); ("timestamp", JsStr timestamp)].

End AppShell.

(** ** Concrete hosts, states and runs used in the examples *)

Module Scenarios.
Import Channel.

(** A host whose parser knows the one document ["null"] and rejects every
    other text; enough to run the handlers on a malformed payload. *)
Definition parse_null_only (text : string) : option Json :=
  if String.eqb text "null" then Some JsNull else None.

Definition accept_all (address : string) : bool := true.

(** The dashboard's channel: [useWebSocket('/ws/connect', {enabled: true,
    reconnect: true})] on a page served over http. *)
Definition dashboard_run : list Event → Hook → option Hook :=
  Channel.run parse_null_only "http:" "localhost:3000" accept_all "/ws/connect"
    default_options.

Definition dashboard_mount : Hook :=
  Channel.mount "http:" "localhost:3000" accept_all "/ws/connect" default_options
    "client-1".

Definition dashboard_step : Event → Hook → option Hook :=
  Channel.step parse_null_only "http:" "localhost:3000" accept_all "/ws/connect"
    default_options.

Definition dashboard_connect : Hook → Hook :=
  Channel.connect "http:" "localhost:3000" accept_all "/ws/connect" default_options.

(** The i-th connection opens, the server closes it, and the reconnect
    timer that close scheduled fires. *)
Definition opened_then_closed (i : nat) : list Event :=
  [SocketOpened i "2024-01-01T00:00:00.000Z"; SocketClosed i false; TimerFired i].

(** The i-th connection fails before it opens, and the reconnect timer
    fires. *)
Definition closed_unopened (i : nat) : list Event :=
  [SocketClosed i true; TimerFired i].

(** Six connections in a row that open and are closed at once. *)
Definition six_opened_then_closed : list Event :=
  concat (opened_then_closed <$> seq 0 5)
  ++ [SocketOpened 5 "2024-01-01T00:00:00.000Z"; SocketClosed 5 false].

(** Six connections in a row that are closed without having opened. *)
Definition six_closed_unopened : list Event :=
  concat (closed_unopened <$> seq 0 5) ++ [SocketClosed 5 true].

(** The dashboard's channel once its first connection has opened. *)
Definition connected_hook : Hook :=
  default dashboard_mount
    (dashboard_run [SocketOpened 0 "2024-01-01T00:00:00.000Z"] dashboard_mount).

(** The first connection fails, the caller connects by hand, that
    connection opens, and then the reconnect timer of the failure fires. *)
Definition manual_connect_then_timer : list Event :=
  [SocketClosed 0 true; CallConnect; SocketOpened 1 "2024-01-01T00:00:00.000Z";
   TimerFired 0].

(** The dashboard's channel after it gave up reconnecting. *)
Definition exhausted_hook : Hook :=
  default dashboard_mount (dashboard_run six_closed_unopened dashboard_mount).

(** *** The cache *)

Definition for_assistant (n : Z) : Types.MemoryFilters :=
  Types.mkMemoryFilters (Some n) None None None None None None None.

Definition memory_of (id assistant : Z) : Types.Memory :=
  Types.mkMemory id assistant "remember this" None Types.general 5 None None None
    false None 0 "2024-01-01T00:00:00Z" "2024-01-01T00:00:00Z" None.

Definition stats_of (assistant : Z) : Types.MemoryStats :=
  Types.mkMemoryStats assistant "assistant" 1 0 5 None 1 0 "2024-01-01".

Definition create_request (assistant : Z) : Types.CreateMemoryRequest :=
  Types.mkCreateMemoryRequest assistant "remember this" None None None None None None
    None None.

(** A cache in which the lists of assistants 7 and 9, the statistics of
    assistant 7 and the memory 42 were read and answered at time 10; the
    reader of the list of assistant 9 has unmounted since. *)
Definition warm_events : list CacheEvents.CacheEvent :=
  [CacheEvents.Mount (MemoryHooks.useMemories (for_assistant 7) MemoryHooks.no_options) 0;
   CacheEvents.Mount (MemoryHooks.useMemoryStats 7 MemoryHooks.no_options) 0;
   CacheEvents.Mount (MemoryHooks.useMemories (for_assistant 9) MemoryHooks.no_options) 0;
   CacheEvents.Mount (MemoryHooks.useMemory 42 MemoryHooks.no_options) 0;
   CacheEvents.Settle (MemoryHooks.MEMORY_KEYS.list (for_assistant 7))
     (Service.Resolved (Service.DataMemories [memory_of 42 7])) 10;
   CacheEvents.Settle (MemoryHooks.MEMORY_KEYS.stats 7)
     (Service.Resolved (Service.DataStats (stats_of 7))) 10;
   CacheEvents.Settle (MemoryHooks.MEMORY_KEYS.list (for_assistant 9))
     (Service.Resolved (Service.DataMemories [])) 10;
   CacheEvents.Settle (MemoryHooks.MEMORY_KEYS.detail 42)
     (Service.Resolved (Service.DataMemory (memory_of 42 7))) 10;
   CacheEvents.Unmount (MemoryHooks.useMemories (for_assistant 9) MemoryHooks.no_options)].

Definition warm_client : Cache.QueryClient :=
  default Cache.empty_client (CacheEvents.run warm_events Cache.empty_client).

Definition warm_app : MemoryHooks.App := MemoryHooks.mkApp warm_client [].

Definition warm_shell : AppShell.Shell := AppShell.mkShell warm_app [].

(** The realtime message that announces the deletion of memory 42. *)
Definition memory_deleted_42 : Json :=
  AppShell.realtime_message "memory_deleted" (JsObj [("id", JsNum 42)])
    "2024-01-01T00:00:00Z".

Definition always {A : Type} (r : Service.RemoteResult A) : MemoryHooks.Remote A :=
  λ _, r.

(** Two components read memory 0 and the statistics of assistant 0, every
    entry is invalidated, and a third component reads the unfiltered list. *)
Definition reads_of_zero : list CacheEvents.CacheEvent :=
  [CacheEvents.Mount (MemoryHooks.useMemory 0 MemoryHooks.no_options) 0;
   CacheEvents.Mount (MemoryHooks.useMemoryStats 0 MemoryHooks.no_options) 0;
   CacheEvents.Invalidate Cache.ArgFunction;
   CacheEvents.Mount (MemoryHooks.useMemories Types.no_filters MemoryHooks.no_options) 1].

Definition client_after_reads_of_zero : Cache.QueryClient :=
  default Cache.empty_client (CacheEvents.run reads_of_zero Cache.empty_client).

End Scenarios.

(** * The rest of the client

    Beside the channel and the cache, the embedding covers:

    - [Handshake]: what the sockets and timers of a [useWebSocket] hook look
      like in every state;
    - [Text], [Constants], [Validators], [Formatters]: JavaScript strings as
      code units, and the pure functions of utils/validators.ts and
      utils/formatters.ts over the constants of utils/constants.ts;
    - [Search]: the state of [useAdvancedSearch] (hooks/useSearch.ts);
    - [Api], [Failure]: the response interceptor of services/api.ts and a
      failed mutation seen through it;
    - [Requests]: the requests of services/memoryService.ts. *)

From Stdlib Require Qround.

(** ** The first frame of a connection *)

Module Handshake.
Import Channel.

(** The document [ws.onopen] sends: [JSON.stringify] of the
    [connection_info] envelope. *)
Definition connection_info_json (clientId now : string) : Json :=
  JsObj [("type", JsStr "connection_info");
         ("data", JsObj [("client_id", JsStr clientId); ("timestamp", JsStr now)])].

(** The frames sent on a socket start with the [connection_info] of the
    client. *)
Definition starts_with_connection_info (clientId : string) (frames : list Frame) : Prop :=
  ∃ now rest, frames = FrameJson (connection_info_json clientId now) :: rest.

(** What every socket of a hook looks like: it was constructed with the
    one address of the hook; nothing is sent on it before it opens; once
    open, the first frame sent on it is the [connection_info]. *)
Definition socket_ok (address clientId : string) (ws : WebSocket) : Prop :=
  ws_url ws = address
  ∧ match readyState ws with
    | CONNECTING => sent ws = []
    | OPEN => starts_with_connection_info clientId (sent ws)
    | CLOSING | CLOSED =>
        sent ws = [] ∨ starts_with_connection_info clientId (sent ws)
    end.

(** What every state of a hook looks like: the client id it was mounted
    with, sockets as above, and timers that all have the one delay. *)
Definition hook_shape (address clientId : string) (interval : Z) (h : Hook) : Prop :=
  clientIdRef h = clientId
  ∧ Forall (socket_ok address clientId) (sockets h)
  ∧ Forall (λ tm, delay tm = interval) (timers h).

(** The caller supplied no observer, as [App] does. Then no caller code
    runs inside a handler of the hook, and the dependencies of [connect]
    and of the mounting effect never change between renders. *)
Definition no_observers (o : UseWebSocketOptions) : Prop :=
  onOpen o = false ∧ onClose o = false ∧ onError o = false ∧ onMessage o = false.

End Handshake.

Module ChannelScenarios.
Import Channel Scenarios.

(** The dashboard's channel after [manual_connect_then_timer]. *)
Definition duplicated_hook : Hook :=
  default dashboard_mount (dashboard_run manual_connect_then_timer dashboard_mount).

(** The dashboard's channel once connected, after one [sendPing]. *)
Definition pinged_hook : Hook :=
  default connected_hook
    (dashboard_step (CallSendPing "2024-01-01T00:00:30.000Z") connected_hook).

Definition pinged_socket : WebSocket :=
  default (mkWebSocket "" CLOSED []) (sockets pinged_hook !! 0%nat).

(** [maxReconnectAttempts] can be any finite number, 2.5 for one. The
    counter [ws.onclose] compares with it is a natural number, and a
    natural number is below a number exactly when it is below the least
    integer not below that number, which is what the options record holds. *)
Definition with_ceiling (max : QArith_base.Q) (o : UseWebSocketOptions)
    : UseWebSocketOptions :=
  mkOptions (enabled o) (reconnect o) (reconnectInterval o) (Qround.Qceiling max)
    (onOpen o) (onClose o) (onError o) (onMessage o).

(** [useWebSocket('/ws/connect', {maxReconnectAttempts: 2.5})]. *)
Definition two_and_a_half : QArith_base.Q := QArith_base.Qmake 5 2.

Definition fractional_options : UseWebSocketOptions :=
  with_ceiling two_and_a_half default_options.

(** Four connections in a row that are closed without having opened. *)
Definition four_closed_unopened : list Event :=
  concat (closed_unopened <$> seq 0 3) ++ [SocketClosed 3 true].

(** The channel with the ceiling of 2.5 after it gave up. *)
Definition fractional_exhausted_hook : Hook :=
  default (initial "client-1")
    (Channel.run parse_null_only "http:" "localhost:3000" accept_all "/ws/connect"
       fractional_options four_closed_unopened
       (Channel.mount "http:" "localhost:3000" accept_all "/ws/connect" fractional_options
          "client-1")).

(** The first and the last socket of [duplicated_hook]. *)
Definition first_socket : WebSocket :=
  default (mkWebSocket "" CLOSED []) (sockets duplicated_hook !! 0%nat).
Definition last_socket : WebSocket :=
  default (mkWebSocket "" CLOSED []) (sockets duplicated_hook !! 2%nat).

(** [useWebSocket('/ws/connect', {enabled: false})]. *)
Definition disabled_options : UseWebSocketOptions :=
  mkOptions false true 3000 5 false false false false.

(** The hook that is not enabled, after the caller tried to connect and to
    send a message. *)
Definition idle_hook : Hook :=
  default (initial "client-1")
    (Channel.run parse_null_only "http:" "localhost:3000" accept_all "/ws/connect"
       disabled_options [CallConnect; CallSendMessage (JStr "hello")]
       (Channel.mount "http:" "localhost:3000" accept_all "/ws/connect" disabled_options
          "client-1")).

End ChannelScenarios.

(** ** JavaScript strings, as the validators and formatters use them *)

Module Text.

(** A JavaScript string is a sequence of UTF-16 code units; [length],
    [slice], [split], [trim] and the character classes of a regular
    expression without the [u] flag all work on code units. *)
Abbreviation JSString := (list N).

(** The code units of an ASCII literal of the source. *)
Definition lit (s : string) : JSString :=
  (λ a, Ascii.N_of_ascii a) <$> String.list_ascii_of_string s.

(** The code units [trim] strips and [\s] matches: the WhiteSpace and
    LineTerminator productions of ECMAScript (TAB, LF, VT, FF, CR, SP, NBSP,
    U+1680, U+2000 to U+200A, LS, PS, U+202F, U+205F, U+3000, U+FEFF). *)
Definition is_whitespace (c : N) : bool :=
  (((9 <=? c) && (c <=? 13)) || (c =? 32) || (c =? 160) || (c =? 5760)
   || ((8192 <=? c) && (c <=? 8202)) || (c =? 8232) || (c =? 8233)
   || (c =? 8239) || (c =? 8287) || (c =? 12288) || (c =? 65279))%N.

(** [[a-zA-Z]]. *)
Definition is_letter (c : N) : bool :=
  (((65 <=? c) && (c <=? 90)) || ((97 <=? c) && (c <=? 122)))%N.

(** [[0-9]]. *)
Definition is_digit (c : N) : bool := ((48 <=? c) && (c <=? 57))%N.

Definition comma : N := 44%N.
Definition hyphen : N := 45%N.
Definition underscore : N := 95%N.

(** [[a-zA-Z0-9\s\-_]]. *)
Definition is_name_char (c : N) : bool :=
  is_letter c || is_digit c || is_whitespace c || (c =? hyphen)%N || (c =? underscore)%N.

(** [/^[a-zA-Z0-9\s\-_]+$/.test(s)]. *)
Definition test_name_chars (s : JSString) : bool :=
  match s with
  | [] => false
  | _ :: _ => forallb is_name_char s
  end.

(** [/^[a-zA-Z]/.test(s)]. *)
Definition test_starts_with_letter (s : JSString) : bool :=
  match s with
  | c :: _ => is_letter c
  | [] => false
  end.

(** A string in a condition: the empty string is falsy. *)
Definition truthy_string (s : JSString) : bool :=
  match s with
  | [] => false
  | _ :: _ => true
  end.

Fixpoint trimStart (s : JSString) : JSString :=
  match s with
  | c :: s' => if is_whitespace c then trimStart s' else s
  | [] => []
  end.

Definition trimEnd (s : JSString) : JSString := reverse (trimStart (reverse s)).

(** [s.trim()]. *)
Definition trim (s : JSString) : JSString := trimEnd (trimStart s).

(** [s.split(sep)] for a separator of one code unit: the pieces between
    the separators; the empty string gives one empty piece. *)
Fixpoint split (sep : N) (s : JSString) : list JSString :=
  match s with
  | [] => [[]]
  | c :: s' =>
      if (c =? sep)%N then [] :: split sep s'
      else
        match split sep s' with
        | piece :: pieces => (c :: piece) :: pieces
        | [] => [[c]]
        end
  end.

(** [pieces.join(sep)]. *)
Fixpoint join (sep : JSString) (pieces : list JSString) : JSString :=
  match pieces with
  | [] => []
  | [piece] => piece
  | piece :: pieces' => piece ++ sep ++ join sep pieces'
  end.

(** [s.slice(0, end)] for an integer [end]: a negative [end] counts from
    the end of the string. *)
Definition slice_to (end_ : Z) (s : JSString) : JSString :=
  let len := Z.of_nat (length s) in
  let to := if (end_ <? 0)%Z then Z.max (len + end_) 0 else Z.min end_ len in
  take (Z.to_nat to) s.

End Text.

(** ** utils/constants.ts *)

Module Constants.

Module VALIDATION.
Definition MEMORY_CONTENT_MIN : Z := 5.
Definition MEMORY_CONTENT_MAX : Z := 50000.
Definition MEMORY_TAGS_MAX : Z := 500.
Definition ASSISTANT_NAME_MIN : Z := 1.
Definition ASSISTANT_NAME_MAX : Z := 50.
Definition SEARCH_QUERY_MIN : Z := 1.
Definition SEARCH_QUERY_MAX : Z := 500.
End VALIDATION.

Module DEFAULTS.
Definition MEMORY_IMPORTANCE : Z := 5.
End DEFAULTS.

(** The [label] of [IMPORTANCE_LEVELS[level]]; [None] where the object has
    no such key. *)
Definition IMPORTANCE_LEVELS_label (level : Z) : option string :=
  match level with
  | 1 => Some "Very Low"
  | 2 => Some "Low"
  | 3 => Some "Below Normal"
  | 4 => Some "Normal"
  | 5 => Some "Medium"
  | 6 => Some "Above Normal"
  | 7 => Some "High"
  | 8 => Some "Very High"
  | 9 => Some "Critical"
  | 10 => Some "Emergency"
  | _ => None
  end%Z.

End Constants.

(** ** utils/validators.ts *)

Module Validators.
Import Text Constants.

Record ValidationResult : Type := mkValidationResult {
  isValid : bool;
  errors : list string
}.

(** The [return] of every validator: [{isValid: errors.length === 0,
    errors}]. *)
Definition result (errors : list string) : ValidationResult :=
  mkValidationResult (length errors =? 0)%nat errors.

(** [errors.push(message)] when the condition holds. *)
Definition push_if (condition : bool) (message : string) (errors : list string) : list string :=
  if condition then errors ++ [message] else errors.

(** A [number] argument as the validators see it: an integer, or a value
    [Number.isInteger] rejects (NaN, an infinity, a number with a
    fractional part). *)
Inductive JSNumber : Type :=
| Integer (z : Z)
| NonInteger.

Definition validateMemoryContent (content : JSString) : ValidationResult :=
  let len := Z.of_nat (length content) in
  result
    (if negb (truthy_string content) || (length (trim content) =? 0)%nat then
       ["Memory content is required"]
     else if (len <? VALIDATION.MEMORY_CONTENT_MIN)%Z then
       ["Memory content must be at least " +:+ pretty VALIDATION.MEMORY_CONTENT_MIN
        +:+ " characters"]
     else if (VALIDATION.MEMORY_CONTENT_MAX <? len)%Z then
       ["Memory content cannot exceed " +:+ pretty VALIDATION.MEMORY_CONTENT_MAX
        +:+ " characters"]
     else []).

Definition validateImportance (importance : JSNumber) : ValidationResult :=
  result
    (match importance with
     | NonInteger => ["Importance must be a whole number"]
     | Integer z =>
         if (z <? 1)%Z || (10 <? z)%Z then ["Importance must be between 1 and 10"]
         else []
     end).

(** The body of the [for] loop of [validateTags], for one tag. *)
Definition check_tag (errors : list string) (tag : JSString) : list string :=
  let errors :=
    push_if (50 <? length tag)%nat "Individual tags cannot exceed 50 characters" errors in
  push_if (negb (test_name_chars tag))
    "Tags can only contain letters, numbers, spaces, hyphens, and underscores" errors.

Definition validateTags (tags : JSString) : ValidationResult :=
  let errors :=
    push_if (truthy_string tags
             && (VALIDATION.MEMORY_TAGS_MAX <? Z.of_nat (length tags))%Z)
      ("Tags cannot exceed " +:+ pretty VALIDATION.MEMORY_TAGS_MAX +:+ " characters") [] in
  result
    (if truthy_string tags then
       let tagList :=
         filter (λ tag, (0 < length tag)%nat) (trim <$> split comma tags) in
       let errors :=
         push_if (20 <? length tagList)%nat "Cannot have more than 20 tags" errors in
       foldl check_tag errors tagList
     else errors).

Definition validateAssistantName (name : JSString) : ValidationResult :=
  result
    (if negb (truthy_string name) || (length (trim name) =? 0)%nat then
       ["Assistant name is required"]
     else
       let trimmedName := trim name in
       let len := Z.of_nat (length trimmedName) in
       let errors :=
         if (len <? VALIDATION.ASSISTANT_NAME_MIN)%Z then
           ["Assistant name must be at least " +:+ pretty VALIDATION.ASSISTANT_NAME_MIN
            +:+ " character"]
         else if (VALIDATION.ASSISTANT_NAME_MAX <? len)%Z then
           ["Assistant name cannot exceed " +:+ pretty VALIDATION.ASSISTANT_NAME_MAX
            +:+ " characters"]
         else [] in
       let errors :=
         push_if (negb (test_name_chars trimmedName))
           "Assistant name can only contain letters, numbers, spaces, hyphens, and underscores"
           errors in
       push_if (negb (test_starts_with_letter trimmedName))
         "Assistant name must start with a letter" errors).

Definition validateSearchQuery (query : JSString) : ValidationResult :=
  result
    (if negb (truthy_string query) || (length (trim query) =? 0)%nat then
       ["Search query is required"]
     else
       let trimmedQuery := trim query in
       let len := Z.of_nat (length trimmedQuery) in
       if (len <? VALIDATION.SEARCH_QUERY_MIN)%Z then
         ["Search query must be at least " +:+ pretty VALIDATION.SEARCH_QUERY_MIN
          +:+ " character"]
       else if (VALIDATION.SEARCH_QUERY_MAX <? len)%Z then
         ["Search query cannot exceed " +:+ pretty VALIDATION.SEARCH_QUERY_MAX
          +:+ " characters"]
       else []).

(** [results.flatMap(result => result.errors)]. *)
Definition combineValidationResults (results : list ValidationResult) : ValidationResult :=
  result (concat (errors <$> results)).

(** A result whose flag says what its list says, as every validator
    returns it. *)
Definition consistent (r : ValidationResult) : Prop :=
  isValid r = true ↔ errors r = [].

End Validators.

(** ** utils/formatters.ts *)

Module Formatters.
Import Text Constants.

(** [truncateText(text, maxLength)] for an integer [maxLength]. *)
Definition truncateText (text : JSString) (maxLength : Z) : JSString :=
  if (Z.of_nat (length text) <=? maxLength)%Z then text
  else trim (slice_to maxLength text) ++ lit "...".

Definition levels : list string :=
  ["Very Low"; "Low"; "Below Normal"; "Normal"; "Medium";
   "Above Normal"; "High"; "Very High"; "Critical"; "Emergency"].

(** [formatImportance(importance)] for an integer [importance]; the index
    is clamped to 0..9, and [|| 'Unknown'] applies when the array has no
    such element. *)
Definition formatImportance (importance : Z) : string :=
  default "Unknown" (levels !! Z.to_nat (Z.max 0 (Z.min 9 (importance - 1)))).

(** The argument of [formatTags]: a string or an array of strings. *)
Inductive TagsArg : Type :=
| TagsString (tags : JSString)
| TagsArray (tags : list JSString).

Definition formatTags (tags : TagsArg) : JSString :=
  match tags with
  | TagsArray l => join (lit ", ") l
  | TagsString s => if truthy_string s then s else lit ""
  end.

Definition parseTags (tagsString : JSString) : list JSString :=
  if negb (truthy_string tagsString) then []
  else filter (λ tag, (0 < length tag)%nat) (trim <$> split comma tagsString).

(** A tag as [parseTags] returns it: not empty, without a comma, and with
    no white space at either end. *)
Definition clean_tag (tag : JSString) : Prop :=
  tag ≠ [] ∧ (comma ∉ tag) ∧ trim tag = tag.

End Formatters.

Module FormScenarios.
Import Text Constants Validators Formatters.

(** The fields of a memory form as a user filled them in. *)
Definition form_results : list ValidationResult :=
  [validateMemoryContent (lit "Buy milk on the way home");
   validateImportance (Integer DEFAULTS.MEMORY_IMPORTANCE);
   validateTags (lit "home, to do")].

Definition form_tags : list JSString := [lit "home"; lit "to do"].

Definition headline : JSString := lit "hello world".

End FormScenarios.

(** ** The search state: [useAdvancedSearch] of hooks/useSearch.ts *)

Module Search.
Import Text.

Inductive SearchType : Type :=
| keyword
| semantic
| hybrid.

(** [SearchRequest]; an optional property is an [option]. *)
Record SearchRequest : Type := mkSearchRequest {
  query : JSString;
  assistant_id : option Z;
  memory_type : option JSString;
  search_type : option SearchType;
  limit : option Z;
  min_importance : option Z;
  tags : option (list JSString);
  include_shared : option bool;
  date_from : option JSString;
  date_to : option JSString
}.

(** [Partial<SearchRequest>]: for each property, whether the object has
    it and with which value. An argument that was left out has none. *)
Record PartialSearchRequest : Type := mkPartialSearchRequest {
  has_query : option JSString;
  has_assistant_id : option (option Z);
  has_memory_type : option (option JSString);
  has_search_type : option (option SearchType);
  has_limit : option (option Z);
  has_min_importance : option (option Z);
  has_tags : option (option (list JSString));
  has_include_shared : option (option bool);
  has_date_from : option (option JSString);
  has_date_to : option (option JSString)
}.

Definition nothing : PartialSearchRequest :=
  mkPartialSearchRequest None None None None None None None None None None.

(** [{...prev, ...updates}]. *)
Definition spread (prev : SearchRequest) (updates : PartialSearchRequest) : SearchRequest :=
  {| query := default (query prev) (has_query updates);
     assistant_id := default (assistant_id prev) (has_assistant_id updates);
     memory_type := default (memory_type prev) (has_memory_type updates);
     search_type := default (search_type prev) (has_search_type updates);
     limit := default (limit prev) (has_limit updates);
     min_importance := default (min_importance prev) (has_min_importance updates);
     tags := default (tags prev) (has_tags updates);
     include_shared := default (include_shared prev) (has_include_shared updates);
     date_from := default (date_from prev) (has_date_from updates);
     date_to := default (date_to prev) (has_date_to updates) |}.

(** The state of one [useAdvancedSearch]: its two React states, the
    queries handed to [saveQueryMutation.mutate] and the requests whose
    search key was invalidated, oldest first. *)
Record AdvancedSearch : Type := mkAdvancedSearch {
  searchRequest : SearchRequest;
  searchHistory : list SearchRequest;
  saved : list JSString;
  invalidated : list SearchRequest
}.

(** The initial states of the hook. *)
Definition useAdvancedSearch (initialRequest : PartialSearchRequest) : AdvancedSearch :=
  {| searchRequest :=
       spread (mkSearchRequest (lit "") None None (Some hybrid) (Some 20%Z) None None
                 (Some true) None None)
         initialRequest;
     searchHistory := [];
     saved := [];
     invalidated := [] |}.

Definition updateSearchRequest (updates : PartialSearchRequest) (s : AdvancedSearch)
    : AdvancedSearch :=
  mkAdvancedSearch (spread (searchRequest s) updates) (searchHistory s) (saved s)
    (invalidated s).

(** [executeSearch(request)], called from a render that shows the state
    [s]. *)
Definition executeSearch (request : PartialSearchRequest) (s : AdvancedSearch)
    : AdvancedSearch :=
  let finalRequest := spread (searchRequest s) request in
  {| searchRequest := finalRequest;
     searchHistory :=
       finalRequest
       :: take 9 (filter (λ item, query item ≠ query finalRequest) (searchHistory s));
     saved :=
       if (2 <? length (query finalRequest))%nat
       then saved s ++ [query finalRequest] else saved s;
     invalidated := invalidated s ++ [finalRequest] |}.

Definition clearSearch (s : AdvancedSearch) : AdvancedSearch :=
  mkAdvancedSearch (spread (searchRequest s)
                      (mkPartialSearchRequest (Some (lit "")) None None None None None None
                         None None None))
    (searchHistory s) (saved s) (invalidated s).

Definition resetFilters (s : AdvancedSearch) : AdvancedSearch :=
  let prev := searchRequest s in
  mkAdvancedSearch
    (mkSearchRequest (query prev) (assistant_id prev) None (Some hybrid) (Some 20%Z) None
       None (Some true) None None)
    (searchHistory s) (saved s) (invalidated s).

(** What a component does with the hook between renders. *)
Inductive Action : Type :=
| UpdateSearchRequest (updates : PartialSearchRequest)
| ExecuteSearch (request : PartialSearchRequest)
| ClearSearch
| ResetFilters.

Definition act (a : Action) (s : AdvancedSearch) : AdvancedSearch :=
  match a with
  | UpdateSearchRequest updates => updateSearchRequest updates s
  | ExecuteSearch request => executeSearch request s
  | ClearSearch => clearSearch s
  | ResetFilters => resetFilters s
  end.

(** The actions in order, each seeing the state the one before left. *)
Definition run (actions : list Action) (s : AdvancedSearch) : AdvancedSearch :=
  foldl (λ s a, act a s) s actions.

(** The queries that were executed, oldest first. *)
Definition executed (s : AdvancedSearch) : list JSString := query <$> invalidated s.

End Search.

(** ** The response interceptor of services/api.ts *)

Module Api.

(** [ValidationError] of types/api.ts. *)
Record ValidationError : Type := mkValidationError {
  field : string;
  message : string
}.

(** The body of a failed response, as [ErrorResponse] and
    [ValidationErrorResponse] type it; a property that is absent is [None],
    and [details] is [Some] when it is an array. *)
Record ErrorData : Type := mkErrorData {
  error : option string;
  detail : option string;
  details : option (list ValidationError)
}.

Record Response : Type := mkResponse {
  status : Z;
  data : option ErrorData
}.

(** An [AxiosError]: the response if the server answered, whether a
    request was sent, and the error's own message. *)
Record AxiosError : Type := mkAxiosError {
  response : option Response;
  request : bool;
  error_message : option string
}.

(** [value || fallback] for a string that may be absent: the empty string
    is falsy. *)
Definition or_else (value : option string) (fallback : string) : string :=
  match value with
  | Some text => if String.eqb text "" then fallback else text
  | None => fallback
  end.

(** The rejection handler of the response interceptor: the texts it hands
    to [toast.error], in order; the [switch] on the status is the cascade of
    its comparisons. It then rejects with the same error. *)
Definition on_rejected (e : AxiosError) : list string :=
  match response e with
  | Some r =>
      if (status r =? 400)%Z then [or_else (data r ≫= detail) "Bad request"]
      else if (status r =? 401)%Z then ["Authentication required"]
      else if (status r =? 403)%Z then ["Access denied"]
      else if (status r =? 404)%Z then [or_else (data r ≫= detail) "Resource not found"]
      else if (status r =? 422)%Z then
        match data r ≫= details with
        | Some items => (λ item, field item +:+ ": " +:+ message item) <$> items
        | None => [or_else (data r ≫= error) "Validation error"]
        end
      else if (status r =? 429)%Z then ["Too many requests. Please slow down."]
      else if (status r =? 500)%Z then ["Internal server error. Please try again."]
      else [or_else (data r ≫= error) "An error occurred"]
  | None =>
      if request e then ["Network error. Please check your connection."]
      else ["Request failed. Please try again."]
  end.

(** What the caller of the API client catches: the same error, of which
    the mutation hooks read [message]. *)
Definition rejection (e : AxiosError) : Service.ApiError :=
  Service.mkApiError (error_message e).

(** The validation errors of a 422 response whose body lists them. *)
Definition listed_errors (e : AxiosError) : option (list ValidationError) :=
  match response e with
  | Some r => if (status r =? 422)%Z then data r ≫= details else None
  | None => None
  end.

End Api.

(** ** A mutation whose request fails, seen through the interceptor *)

Module Failure.
Import Service MemoryHooks.

(** The interceptor shows its toasts when the response arrives. *)
Definition intercept (e : Api.AxiosError) (a : App) : App :=
  foldl (λ a text, toast (toast_error text) a) a (Api.on_rejected e).

(** The mutation [m], whose request fails with [e]: the interceptor runs,
    then the promise the mutation awaits rejects. *)
Definition failed_mutate (m : Mutation) (e : Api.AxiosError) (a : App)
    : option ApiError * App :=
  mutate m (intercept e a).

End Failure.

Module FailureScenarios.
Import Service MemoryHooks Scenarios.

(** The server refuses a creation with status 400 and a detail. *)
Definition refused : Api.AxiosError :=
  Api.mkAxiosError
    (Some (Api.mkResponse 400
             (Some (Api.mkErrorData (Some "Bad Request") (Some "Content is too short")
                      None))))
    true (Some "Request failed with status code 400").

Definition refused_create : Mutation :=
  CreateMemory (create_request 7) (always (Rejected (Api.rejection refused))).

End FailureScenarios.

Module HookScenarios.
Import Types Service Cache MemoryHooks Scenarios.

Definition update_request : UpdateMemoryRequest :=
  mkUpdateMemoryRequest (Some "remember that") None None None None None None None None.

(** The record the server returns for the update of memory 42. *)
Definition updated_42 : Memory :=
  mkMemory 42 7 "remember that" None general 5 None None None false None 0
    "2024-01-01T00:00:00Z" "2024-01-02T00:00:00Z" None.

(** The recent view of assistant 7, asked with two limits. *)
Definition recent_five : ReadHook := useRecentMemories (Some 7%Z) 5 no_options.
Definition recent_twenty : ReadHook := useRecentMemories (Some 7%Z) 20 no_options.






End HookScenarios.

(** ** The requests of services/memoryService.ts through the API client *)

Module Requests.
Import Types Service.

Inductive Method : Type :=
| GET
| POST
| PUT
| PATCH
| DELETE.

(** The value of a property of a params object. *)
Inductive ParamValue : Type :=
| PNum (n : Z)
| PStr (s : string)
| PBool (b : bool)
| PList (l : list string)
| PUndefined.

(** A params object: its properties in order. *)
Abbreviation Params := (list (string * ParamValue)).

(** The body of a request. *)
Inductive Body : Type :=
| CreateBody (data : CreateMemoryRequest)
| UpdateBody (data : UpdateMemoryRequest).

(** What the API client hands to axios: the method, the path under the
    base URL, the [params] of the config and the body; [None] where the
    client passes [undefined]. *)
Record Request : Type := mkRequest {
  method : Method;
  url : string;
  params : option Params;
  body : option Body
}.

Definition baseURL : string := "/api/v1".

(** [apiClient]. Its [delete] has one parameter, the url. *)
Definition apiClient_get (url : string) (params : option Params) : Request :=
  mkRequest GET url params None.
Definition apiClient_post (url : string) (data : option Body) : Request :=
  mkRequest POST url None data.
Definition apiClient_put (url : string) (data : option Body) : Request :=
  mkRequest PUT url None data.
Definition apiClient_delete (url : string) : Request :=
  mkRequest DELETE url None None.

Definition memory_type_name (t : MemoryType) : string :=
  match t with
  | general => "general"
  | conversation => "conversation"
  | fact => "fact"
  | task => "task"
  | project => "project"
  | personal => "personal"
  | code => "code"
  | reference => "reference"
  end.

(** A property of an object that is present when the value is. *)
Definition property {A : Type} (key : string) (value : A → ParamValue) (v : option A)
    : Params :=
  match v with
  | Some x => [(key, value x)]
  | None => []
  end.

(** A [MemoryFilters] object as a params object. *)
Definition filters_params (filters : MemoryFilters) : Params :=
  property "assistant_id" PNum (filter_assistant_id filters)
  ++ property "memory_type" (λ t, PStr (memory_type_name t)) (filter_memory_type filters)
  ++ property "min_importance" PNum (min_importance filters)
  ++ property "max_importance" PNum (max_importance filters)
  ++ property "tags" PList (filter_tags filters)
  ++ property "include_shared" PBool (include_shared filters)
  ++ property "skip" PNum (skip filters)
  ++ property "limit" PNum (limit filters).

(** [{ assistant_id: assistantId, limit }]. *)
Definition assistant_limit (assistantId : option Z) (limit : Z) : Params :=
  [("assistant_id", match assistantId with Some n => PNum n | None => PUndefined end);
   ("limit", PNum limit)].

(** The request each method of [memoryService] makes. [bulkDeleteMemories]
    passes [{ data: ids }] as a second argument to [apiClient.delete],
    which has no second parameter. *)
Definition request_of (call : ServiceCall) : Request :=
  match call with
  | getMemories filters => apiClient_get "/memories" (Some (filters_params filters))
  | getMemory id => apiClient_get ("/memories/" +:+ pretty id) None
  | createMemory data => apiClient_post "/memories" (Some (CreateBody data))
  | updateMemory id data =>
      apiClient_put ("/memories/" +:+ pretty id) (Some (UpdateBody data))
  | deleteMemory id => apiClient_delete ("/memories/" +:+ pretty id)
  | getRelatedMemories id limit =>
      apiClient_get ("/memories/" +:+ pretty id +:+ "/related")
        (Some [("limit", PNum limit)])
  | recordAccess id => apiClient_post ("/memories/" +:+ pretty id +:+ "/access") None
  | getMemoryStats assistantId =>
      apiClient_get ("/memories/assistant/" +:+ pretty assistantId +:+ "/stats") None
  | bulkDeleteMemories ids => apiClient_delete "/memories/bulk-delete"
  | getRecentMemories assistantId limit =>
      apiClient_get "/memories/recent" (Some (assistant_limit assistantId limit))
  | getMostImportantMemories assistantId limit =>
      apiClient_get "/memories/important" (Some (assistant_limit assistantId limit))
  | getMostAccessedMemories assistantId limit =>
      apiClient_get "/memories/accessed" (Some (assistant_limit assistantId limit))
  end.

(** Reading a filters object back from a params object. *)
Definition memory_type_of_name (name : string) : option MemoryType :=
  if String.eqb name "general" then Some general
  else if String.eqb name "conversation" then Some conversation
  else if String.eqb name "fact" then Some fact
  else if String.eqb name "task" then Some task
  else if String.eqb name "project" then Some project
  else if String.eqb name "personal" then Some personal
  else if String.eqb name "code" then Some code
  else if String.eqb name "reference" then Some reference
  else None.

Fixpoint get_param (key : string) (ps : Params) : option ParamValue :=
  match ps with
  | [] => None
  | (k, v) :: ps' => if String.eqb k key then Some v else get_param key ps'
  end.

Definition as_num (v : option ParamValue) : option Z :=
  match v with Some (PNum n) => Some n | _ => None end.
Definition as_bool (v : option ParamValue) : option bool :=
  match v with Some (PBool b) => Some b | _ => None end.
Definition as_list (v : option ParamValue) : option (list string) :=
  match v with Some (PList l) => Some l | _ => None end.
Definition as_memory_type (v : option ParamValue) : option MemoryType :=
  match v with Some (PStr s) => memory_type_of_name s | _ => None end.

Definition params_filters (ps : Params) : MemoryFilters :=
  mkMemoryFilters
    (as_num (get_param "assistant_id" ps))
    (as_memory_type (get_param "memory_type" ps))
    (as_num (get_param "min_importance" ps))
    (as_num (get_param "max_importance" ps))
    (as_list (get_param "tags" ps))
    (as_bool (get_param "include_shared" ps))
    (as_num (get_param "skip" ps))
    (as_num (get_param "limit" ps)).

(** A text that starts with a decimal digit or a minus sign. *)
Definition starts_numeric (s : string) : bool :=
  match s with
  | String c _ =>
      let n := Ascii.nat_of_ascii c in
      ((48 <=? n) && (n <=? 57))%nat || (n =? 45)%nat
  | EmptyString => false
  end.

End Requests.

(** * Properties of the realtime channel *)

Section ChannelFacts.
Import Channel.

Context (JSON_parse : string → option Json).
Context (location_protocol location_host : string).
Context (constructible : string → bool).
Context (url : string) (options : UseWebSocketOptions).

Local Abbreviation connect := (connect location_protocol location_host constructible url options).
Local Abbreviation onopen := (onopen options).
Local Abbreviation onmessage := (onmessage JSON_parse options).
Local Abbreviation onclose := (onclose options).
Local Abbreviation onerror := (onerror options).
Local Abbreviation step :=
  (step JSON_parse location_protocol location_host constructible url options).
Local Abbreviation run :=
  (run JSON_parse location_protocol location_host constructible url options).
Local Abbreviation reachable :=
  (reachable JSON_parse location_protocol location_host constructible url options).

(** *** The retry counter *)

Lemma connect_attempts h :
  reconnectAttemptsRef (connect h) = reconnectAttemptsRef h.
Proof.
  unfold Channel.connect.
  destruct (negb (enabled options) || _); [reflexivity|].
  destruct (constructible _); reflexivity.
Qed.

Lemma clearTimeout_attempts t h :
  reconnectAttemptsRef (clearTimeout t h) = reconnectAttemptsRef h.
Proof.
  unfold clearTimeout. destruct (timers h !! t) as [tm|]; [|reflexivity].
  destruct (timer_state tm); reflexivity.
Qed.

Lemma set_readyState_attempts s r h :
  reconnectAttemptsRef (set_readyState s r h) = reconnectAttemptsRef h.
Proof. unfold set_readyState. destruct (sockets h !! s); reflexivity. Qed.

Lemma ws_close_attempts s h :
  reconnectAttemptsRef (ws_close s h) = reconnectAttemptsRef h.
Proof.
  unfold ws_close. destruct (sockets h !! s) as [ws|]; [|reflexivity].
  destruct (readyState ws); auto using set_readyState_attempts.
Qed.

Lemma ws_send_attempts s f h :
  reconnectAttemptsRef (ws_send s f h) = reconnectAttemptsRef h.
Proof. unfold ws_send. destruct (sockets h !! s); reflexivity. Qed.

Lemma disconnect_attempts h :
  reconnectAttemptsRef (disconnect h) = reconnectAttemptsRef h.
Proof.
  unfold disconnect. cbn.
  destruct (wsRef _) eqn:Hws; cbn.
  - rewrite ws_close_attempts.
    destruct (reconnectTimeoutRef h); cbn; auto using clearTimeout_attempts.
  - destruct (reconnectTimeoutRef h); cbn; auto using clearTimeout_attempts.
Qed.

Lemma sendMessage_attempts m h :
  reconnectAttemptsRef (snd (sendMessage m h)) = reconnectAttemptsRef h.
Proof.
  unfold sendMessage. destruct (wsRef h); [|reflexivity].
  case_bool_decide; [|reflexivity].
  destruct (JSON_stringify m); cbn; auto using ws_send_attempts.
Qed.

Lemma onmessage_attempts data h :
  reconnectAttemptsRef (onmessage data h) = reconnectAttemptsRef h.
Proof.
  unfold Channel.onmessage. destruct (JSON_parse data); [|reflexivity].
  unfold notify. destruct (onMessage options); reflexivity.
Qed.

Lemma onerror_attempts h :
  reconnectAttemptsRef (onerror h) = reconnectAttemptsRef h.
Proof. unfold Channel.onerror, notify. destruct (onError options); reflexivity. Qed.

Lemma onclose_attempts h :
  (reconnectAttemptsRef h ≤ reconnectAttemptsRef (onclose h))%nat.
Proof.
  unfold Channel.onclose, notify.
  destruct (onClose options); cbn;
    destruct (reconnect options && _); cbn; lia.
Qed.

Lemma onopen_attempts s now h : reconnectAttemptsRef (onopen s now h) = 0%nat.
Proof.
  unfold Channel.onopen.
  destruct (JSON_stringify _); [rewrite ws_send_attempts|];
    unfold notify; destruct (onOpen options); reflexivity.
Qed.

(** Every event other than the opening of a socket leaves the counter where
    it was or raises it. *)
Lemma step_attempts e h h' :
  step e h = Some h' →
  is_open_event e = false →
  (reconnectAttemptsRef h ≤ reconnectAttemptsRef h')%nat.
Proof.
  intros Hstep Hev. destruct e; cbn in Hstep; try discriminate Hev.
  - destruct (readyState <$> sockets h !! s) as [[]|]; inversion Hstep.
    rewrite onmessage_attempts. lia.
  - destruct (readyState <$> sockets h !! s) as [[]|]; inversion Hstep;
      (etrans; [|apply onclose_attempts]);
      destruct failed; rewrite ?onerror_attempts, set_readyState_attempts; lia.
  - destruct (timers h !! t) as [[ms []]|]; inversion Hstep.
    rewrite connect_attempts. cbn. lia.
  - destruct (isConnected h); inversion Hstep.
    unfold sendPing. rewrite sendMessage_attempts. lia.
  - inversion Hstep. rewrite connect_attempts. lia.
  - inversion Hstep. rewrite disconnect_attempts. lia.
  - inversion Hstep. rewrite sendMessage_attempts. lia.
  - inversion Hstep. unfold sendPing. rewrite sendMessage_attempts. lia.
Qed.

Lemma run_attempts es : ∀ h h',
  run es h = Some h' →
  Forall (λ e, is_open_event e = false) es →
  (reconnectAttemptsRef h ≤ reconnectAttemptsRef h')%nat.
Proof.
  induction es as [|e es IH]; intros h h' Hrun Hall; cbn in Hrun.
  - inversion Hrun. lia.
  - destruct (step e h) as [h1|] eqn:Hstep; [|discriminate].
    inversion Hall as [|? ? He Hes]; subst.
    etrans; [eapply step_attempts; eassumption|]. eauto.
Qed.

(** C9. The retry counter goes back to zero only when a socket opens:
    over any run of the channel in which no socket opens the counter never
    goes down, so a run in which it went down contains an open event; and
    neither [connect] nor [disconnect] changes it. *)
Theorem attempts_kept_until_open es h h' :
  run es h = Some h' →
  (Forall (λ e, is_open_event e = false) es →
   (reconnectAttemptsRef h ≤ reconnectAttemptsRef h')%nat)
  ∧ ((reconnectAttemptsRef h' < reconnectAttemptsRef h)%nat →
     Exists (λ e, is_open_event e = true) es)
  ∧ reconnectAttemptsRef (connect h) = reconnectAttemptsRef h
  ∧ reconnectAttemptsRef (disconnect h) = reconnectAttemptsRef h.
Proof.
  intros Hrun. split_and!.
  - intros Hall. eapply run_attempts; eassumption.
  - intros Hlt.
    destruct (decide (Exists (λ e, is_open_event e = true) es)) as [|Hno]; [done|].
    apply not_Exists_Forall in Hno; [|intros e; apply _].
    assert (reconnectAttemptsRef h ≤ reconnectAttemptsRef h')%nat; [|lia].
    eapply run_attempts; [eassumption|].
    eapply Forall_impl; [exact Hno|]. cbn. intros e He.
    destruct (is_open_event e); [contradiction He; reflexivity|reflexivity].
  - apply connect_attempts.
  - apply disconnect_attempts.
Qed.

(** A close schedules a reconnect exactly when reconnecting is on and the
    counter is below the ceiling; the timer's delay is the interval. *)
Lemma onclose_schedules h :
  let retry := reconnect options
               && (Z.of_nat (reconnectAttemptsRef h) <? maxReconnectAttempts options)%Z in
  timers (onclose h)
  = timers h ++ (if retry then [mkTimer (reconnectInterval options) Pending] else [])
  ∧ reconnectAttemptsRef (onclose h)
    = (if retry then S (reconnectAttemptsRef h) else reconnectAttemptsRef h)
  ∧ connectionState (onclose h) = disconnected
  ∧ wsRef (onclose h) = None.
Proof.
  unfold Channel.onclose, notify.
  destruct (onClose options); cbn;
    destruct (reconnect options && _); cbn;
    rewrite ?app_nil_r, ?Nat.add_1_r; done.
Qed.

(** An open event resets the counter. *)
Lemma open_resets_attempts s now h h' :
  step (SocketOpened s now) h = Some h' → reconnectAttemptsRef h' = 0%nat.
Proof.
  cbn. destruct (readyState <$> sockets h !! s) as [[]|]; intros H; inversion H.
  apply onopen_attempts.
Qed.

(** The counter never passes the ceiling. *)
Lemma attempts_never_exceed_ceiling clientId h :
  reachable clientId h →
  (Z.of_nat (reconnectAttemptsRef h) ≤ Z.max 0 (maxReconnectAttempts options))%Z.
Proof.
  induction 1 as [|e h h' _ IH Hstep].
  - unfold mount. destruct (enabled options); [rewrite connect_attempts|]; cbn; lia.
  - destruct e; cbn in Hstep.
    + apply open_resets_attempts in Hstep. rewrite Hstep. lia.
    + destruct (readyState <$> sockets h !! s) as [[]|]; inversion Hstep.
      by rewrite onmessage_attempts.
    + assert (∀ h0, reconnectAttemptsRef h0 = reconnectAttemptsRef h →
                (Z.of_nat (reconnectAttemptsRef (onclose h0))
                 ≤ Z.max 0 (maxReconnectAttempts options))%Z) as Hclose.
      { intros h0 Heq. unfold Channel.onclose, notify.
        destruct (onClose options); cbn;
          destruct (reconnect options); cbn; rewrite ?Heq; try lia;
          destruct (Z.ltb_spec (Z.of_nat (reconnectAttemptsRef h))
                      (maxReconnectAttempts options)); cbn; rewrite ?Heq; lia. }
      destruct (readyState <$> sockets h !! s) as [[]|]; inversion Hstep;
        apply Hclose; destruct failed;
        rewrite ?onerror_attempts, set_readyState_attempts; reflexivity.
    + destruct (timers h !! t) as [[ms []]|]; inversion Hstep.
      by rewrite connect_attempts.
    + destruct (isConnected h); inversion Hstep.
      unfold sendPing. by rewrite sendMessage_attempts.
    + inversion Hstep. by rewrite connect_attempts.
    + inversion Hstep. by rewrite disconnect_attempts.
    + inversion Hstep. by rewrite sendMessage_attempts.
    + inversion Hstep. unfold sendPing. by rewrite sendMessage_attempts.
Qed.

(** *** Inbound payloads *)

(** C7. A payload that [JSON.parse] rejects is logged and dropped: the
    handler returns, [lastMessage] is what it was, no observer is called,
    and nothing of the connection, its timers or its retry counter
    changes. *)
Theorem malformed_payload_dropped s data h :
  JSON_parse data = None →
  readyState <$> sockets h !! s = Some OPEN →
  ∃ h', step (SocketMessage s data) h = Some h'
    ∧ lastMessage h' = lastMessage h
    ∧ notified h' = notified h
    ∧ console h' = console h ++ ["Failed to parse WebSocket message:"]
    ∧ connectionState h' = connectionState h
    ∧ isConnected h' = isConnected h
    ∧ wsRef h' = wsRef h
    ∧ sockets h' = sockets h
    ∧ timers h' = timers h
    ∧ reconnectTimeoutRef h' = reconnectTimeoutRef h
    ∧ reconnectAttemptsRef h' = reconnectAttemptsRef h.
Proof.
  intros Hparse Hopen. exists (onmessage data h). cbn. rewrite Hopen.
  split; [reflexivity|]. unfold Channel.onmessage. rewrite Hparse.
  cbn. split_and!; reflexivity.
Qed.

(** A payload that parses becomes [lastMessage] and reaches the observer. *)
Lemma wellformed_payload_stored data message h :
  JSON_parse data = Some message →
  lastMessage (onmessage data h) = message
  ∧ notified (onmessage data h)
    = notified h ++ (if onMessage options then [CalledOnMessage message] else []).
Proof.
  intros Hparse. unfold Channel.onmessage, notify. rewrite Hparse.
  destruct (onMessage options); cbn; [done|]. by rewrite app_nil_r.
Qed.

(** *** Sending *)

Local Abbreviation wsUrl := (wsUrl location_protocol location_host url).
Local Abbreviation channel_invariant :=
  (channel_invariant location_protocol location_host constructible url).

Lemma ws_send_readyState s f h i :
  readyState <$> sockets (ws_send s f h) !! i = readyState <$> sockets h !! i.
Proof.
  unfold ws_send. destruct (sockets h !! s) as [ws|] eqn:Hs; [|reflexivity].
  cbn. destruct (decide (s = i)) as [->|Hne].
  - rewrite list_lookup_insert_eq by (eapply lookup_lt_Some; eassumption).
    by rewrite Hs.
  - by rewrite list_lookup_insert_ne.
Qed.

Lemma ws_send_fields s f h :
  clientIdRef (ws_send s f h) = clientIdRef h
  ∧ wsRef (ws_send s f h) = wsRef h
  ∧ connectionState (ws_send s f h) = connectionState h
  ∧ isConnected (ws_send s f h) = isConnected h
  ∧ (sockets h = [] → sockets (ws_send s f h) = []).
Proof.
  unfold ws_send. destruct (sockets h !! s) as [ws|] eqn:Hs; [|done].
  cbn. split_and!; try reflexivity. intros Hnil. rewrite Hnil in Hs. discriminate.
Qed.

Lemma ws_send_invariant clientId s f h :
  channel_invariant clientId h → channel_invariant clientId (ws_send s f h).
Proof.
  intros (Hid & Hopen & Hctor).
  destruct (ws_send_fields s f h) as (Eid & Ews & Ecs & Eic & Enil).
  unfold channel_invariant, current_readyState, Channel.wsUrl in *.
  rewrite Eid, Ews, Ecs, Eic. split_and!; [done| |].
  - destruct (wsRef h) as [r|]; [|done]. by rewrite ws_send_readyState.
  - destruct Hctor as [Hnil|Hok]; [left; auto|right; done].
Qed.

Lemma sendMessage_invariant clientId m h :
  channel_invariant clientId h → channel_invariant clientId (snd (sendMessage m h)).
Proof.
  intros Hinv. unfold sendMessage. destruct (wsRef h); [|done].
  case_bool_decide; [|done].
  destruct (JSON_stringify m); cbn; [by apply ws_send_invariant|done].
Qed.

Lemma connect_invariant clientId h :
  channel_invariant clientId h → channel_invariant clientId (connect h).
Proof.
  intros (Hid & Hopen & Hctor). unfold Channel.connect.
  destruct (negb (enabled options) || _); [done|].
  cbn. destruct (constructible _) eqn:Hok; cbn.
  - split_and!; [done| |by right].
    unfold current_readyState. cbn.
    rewrite lookup_app_r, Nat.sub_diag by lia. cbn. discriminate.
  - destruct Hctor as [Hnil|Hok']; [|unfold Channel.wsUrl in *; congruence].
    split_and!; [done| |by left].
    unfold current_readyState. cbn. rewrite Hnil.
    destruct (wsRef h); cbn; discriminate.
Qed.

Lemma closed_invariant clientId h :
  clientIdRef h = clientId →
  (sockets h = [] ∨ constructible (wsUrl h) = true) →
  channel_invariant clientId (onclose h).
Proof.
  intros Hid Hctor. unfold Channel.onclose, notify.
  destruct (onClose options); cbn;
    destruct (reconnect options && _); cbn; (split_and!; [done|discriminate|done]).
Qed.

Lemma set_readyState_fields s r h :
  clientIdRef (set_readyState s r h) = clientIdRef h
  ∧ (sockets h = [] → sockets (set_readyState s r h) = []).
Proof.
  unfold set_readyState. destruct (sockets h !! s) as [ws|] eqn:Hs; [|done].
  cbn. split; [done|]. intros Hnil. rewrite Hnil in Hs. discriminate.
Qed.

Lemma onerror_fields h :
  clientIdRef (onerror h) = clientIdRef h ∧ sockets (onerror h) = sockets h.
Proof. unfold Channel.onerror, notify. destruct (onError options); done. Qed.

Lemma step_invariant clientId e h h' :
  channel_invariant clientId h → step e h = Some h' → channel_invariant clientId h'.
Proof.
  intros Hinv Hstep. destruct e; cbn in Hstep.
  - destruct (readyState <$> sockets h !! s) as [[]|]; inversion Hstep.
    destruct Hinv as (Hid & _ & Hctor).
    destruct (set_readyState_fields s OPEN h) as [Eid Enil].
    unfold Channel.onopen.
    assert (channel_invariant clientId
              (notify (onOpen options) CalledOnOpen
                 (set_reconnectAttemptsRef 0
                    (setConnectionState connected
                       (setIsConnected true (set_readyState s OPEN h)))))) as Hn.
    { unfold channel_invariant, current_readyState, Channel.wsUrl, notify in *.
      destruct (onOpen options); cbn;
        (split_and!; [congruence|done|]);
        (destruct Hctor as [Hnil|Hok]; [left; auto|right; congruence]). }
    subst h'. by apply ws_send_invariant.
  - destruct (readyState <$> sockets h !! s) as [[]|]; inversion Hstep.
    destruct Hinv as (Hid & Hopen & Hctor).
    unfold Channel.onmessage, notify.
    destruct (JSON_parse data); [destruct (onMessage options)|]; done.
  - destruct Hinv as (Hid & _ & Hctor).
    destruct (set_readyState_fields s CLOSED h) as [Eid Enil].
    destruct (onerror_fields (set_readyState s CLOSED h)) as [Eid' Es'].
    assert (channel_invariant clientId
              (onclose (if failed then onerror (set_readyState s CLOSED h)
                        else set_readyState s CLOSED h))) as Hn.
    { apply closed_invariant; destruct failed; try congruence;
        (destruct Hctor as [Hnil|Hok]; [left|right]);
        rewrite ?Es'; auto; unfold Channel.wsUrl in *; congruence. }
    destruct (readyState <$> sockets h !! s) as [[]|]; inversion Hstep; subst; done.
  - destruct (timers h !! t) as [[ms []]|]; inversion Hstep.
    apply connect_invariant. done.
  - destruct (isConnected h); inversion Hstep. by apply sendMessage_invariant.
  - inversion Hstep. by apply connect_invariant.
  - inversion Hstep. destruct Hinv as (Hid & _ & Hctor).
    assert (∀ h0, clientIdRef h0 = clientId →
                  (sockets h0 = [] ∨ constructible (wsUrl h0) = true) →
                  channel_invariant clientId
                    (setConnectionState disconnected
                       (setIsConnected false
                          (match wsRef h0 with
                           | Some s => set_wsRef None (ws_close s h0)
                           | None => h0
                           end)))) as Hd.
    { intros h0 Hid0 Hctor0. destruct (wsRef h0) as [s|] eqn:Hws; cbn.
      - assert (clientIdRef (ws_close s h0) = clientIdRef h0
                ∧ (sockets h0 = [] → sockets (ws_close s h0) = [])) as [Ec En].
        { unfold ws_close. destruct (sockets h0 !! s) as [ws|]; [|done].
          destruct (readyState ws); try done; apply set_readyState_fields. }
        unfold channel_invariant, current_readyState, Channel.wsUrl in *. cbn.
        split_and!; [congruence|discriminate|].
        destruct Hctor0 as [Hnil|Hok]; [left; auto|right; congruence].
      - unfold channel_invariant, current_readyState. cbn. rewrite Hws.
        split_and!; [done|discriminate|done]. }
    unfold disconnect. apply Hd; destruct (reconnectTimeoutRef h) as [t|]; cbn; try done.
    + unfold clearTimeout. destruct (timers h !! t) as [tm|]; [|done].
      destruct (timer_state tm); done.
    + unfold clearTimeout, Channel.wsUrl in *. destruct (timers h !! t) as [tm|]; [|done].
      destruct (timer_state tm); done.
  - inversion Hstep. by apply sendMessage_invariant.
  - inversion Hstep. by apply sendMessage_invariant.
Qed.

Lemma reachable_invariant clientId h :
  reachable clientId h → channel_invariant clientId h.
Proof.
  induction 1 as [|e h h' _ IH Hstep].
  - assert (channel_invariant clientId (initial clientId)) as H0.
    { split_and!; [done|discriminate|by left]. }
    unfold mount. destruct (enabled options); [by apply connect_invariant|done].
  - eapply step_invariant; eassumption.
Qed.

(** [sendMessage] looks only at the ready state of the socket it holds. *)
Lemma sendMessage_cases m h :
  (current_readyState h ≠ Some OPEN ∧ sendMessage m h = (Normal false, h))
  ∨ (current_readyState h = Some OPEN
     ∧ ((∃ e, JSON_stringify m = Throw e ∧ sendMessage m h = (Throw e, h))
        ∨ (∃ text s, JSON_stringify m = Normal text ∧ wsRef h = Some s
           ∧ sendMessage m h = (Normal true, ws_send s (frame_of text) h)))).
Proof.
  unfold sendMessage, current_readyState. destruct (wsRef h) as [s|].
  - case_bool_decide as Hopen.
    + right. split; [done|]. destruct (JSON_stringify m) as [text|e]; eauto 10.
    + left. done.
  - left. split; [discriminate|done].
Qed.

(** C6, as the code has it. In every state of a mounted hook and for every
    message: while the hook is not [connected], [sendMessage] returns false
    and transmits nothing; it returns true only while [connected]; it throws
    only while [connected] and only for a message [JSON.stringify] throws on;
    and a message that [JSON.stringify] accepts never makes it throw. *)
Theorem sendMessage_best_effort clientId h m :
  reachable clientId h →
  (connectionState h ≠ connected → sendMessage m h = (Normal false, h))
  ∧ (fst (sendMessage m h) = Normal true →
     connectionState h = connected ∧ isConnected h = true)
  ∧ (∀ e, fst (sendMessage m h) = Throw e →
     connectionState h = connected ∧ JSON_stringify m = Throw e)
  ∧ (∀ text, JSON_stringify m = Normal text → ∃ b, fst (sendMessage m h) = Normal b).
Proof.
  intros Hreach. apply reachable_invariant in Hreach as (_ & Hopen & _).
  destruct (sendMessage_cases m h)
    as [[Hno Hsend]|[Hyes [(e & Hs & Hsend)|(text & s & Hs & Hws & Hsend)]]];
    rewrite Hsend; cbn.
  - split_and!; [done|discriminate|discriminate|eauto].
  - destruct (Hopen Hyes) as [Hc Hi].
    split_and!; [done|discriminate| |intros text Ht; congruence].
    intros e' He'. inversion He'; subst. done.
  - destruct (Hopen Hyes) as [Hc Hi].
    split_and!; [done|done|discriminate|eauto].
Qed.

(** *** Connecting *)

(** While the socket the hook holds is connecting, [connect] returns at its
    guard. *)
Lemma connect_noop_while_connecting h :
  current_readyState h = Some CONNECTING → connect h = h.
Proof.
  intros Hc. unfold Channel.connect. rewrite bool_decide_eq_true_2 by done.
  by rewrite orb_true_r.
Qed.

(** While that socket is open the guard lets [connect] through: it
    constructs another socket and drops the reference to the open one. *)
Lemma connect_while_open h :
  enabled options = true →
  current_readyState h = Some OPEN →
  constructible (wsUrl h) = true →
  sockets (connect h) = sockets h ++ [mkWebSocket (wsUrl h) CONNECTING []]
  ∧ wsRef (connect h) = Some (length (sockets h))
  ∧ connectionState (connect h) = connecting.
Proof.
  intros Hen Hopen Hok. unfold Channel.connect. rewrite Hen.
  rewrite bool_decide_eq_false_2 by (rewrite Hopen; discriminate).
  cbn. unfold Channel.wsUrl in *. cbn. rewrite Hok. done.
Qed.

End ChannelFacts.

Section ChannelExamples.
Import Channel Scenarios.

Lemma connected_hook_reachable :
  reachable parse_null_only "http:" "localhost:3000" accept_all "/ws/connect"
    default_options "client-1" connected_hook.
Proof.
  apply reachable_step
    with (e := SocketOpened 0 "2024-01-01T00:00:00.000Z") (h := dashboard_mount).
  - apply reachable_mount.
  - reflexivity.
Qed.

(** C9, on the dashboard's channel after it gave up: a [disconnect], a
    [connect] and one more failed connection leave the counter at 5. *)
Lemma attempts_kept_until_open_witness :
  ∃ h', dashboard_run [CallDisconnect; CallConnect; SocketClosed 6 true] exhausted_hook
        = Some h'
    ∧ reconnectAttemptsRef exhausted_hook = 5%nat
    ∧ (reconnectAttemptsRef exhausted_hook ≤ reconnectAttemptsRef h')%nat
    ∧ pending_timers h' = [].
Proof.
  eexists. split; [vm_compute; reflexivity|]. split; [reflexivity|].
  split; [|reflexivity].
  refine (proj1 (attempts_kept_until_open parse_null_only "http:" "localhost:3000"
                   accept_all "/ws/connect" default_options
                   [CallDisconnect; CallConnect; SocketClosed 6 true]
                   exhausted_hook _ _) _).
  - vm_compute. reflexivity.
  - repeat constructor.
Defined.

(** C7, on the dashboard's channel once connected: the text ["{oops"] is
    not a document. *)
Lemma malformed_payload_dropped_witness :
  parse_null_only "{oops" = None
  ∧ readyState <$> sockets connected_hook !! 0%nat = Some OPEN
  ∧ ∃ h', dashboard_step (SocketMessage 0 "{oops") connected_hook = Some h'
      ∧ lastMessage h' = lastMessage connected_hook
      ∧ notified h' = notified connected_hook.
Proof.
  split; [reflexivity|]. split; [reflexivity|].
  destruct (malformed_payload_dropped parse_null_only "http:" "localhost:3000"
              accept_all "/ws/connect" default_options 0 "{oops" connected_hook
              eq_refl eq_refl) as (h' & Hstep & Hlast & Hnot & _).
  exists h'. split_and!; assumption.
Defined.

(** C6, on the dashboard's channel once connected, for a text message. *)
Lemma sendMessage_best_effort_witness :
  reachable parse_null_only "http:" "localhost:3000" accept_all "/ws/connect"
    default_options "client-1" connected_hook
  ∧ (fst (sendMessage (JStr "hello") connected_hook) = Normal true →
     connectionState connected_hook = connected ∧ isConnected connected_hook = true).
Proof.
  split; [exact connected_hook_reachable|].
  exact (proj1 (proj2 (sendMessage_best_effort parse_null_only "http:" "localhost:3000"
                         accept_all "/ws/connect" default_options "client-1"
                         connected_hook (JStr "hello") connected_hook_reachable))).
Defined.

(** Against C6 as stated: on a connected channel, [sendMessage] handed a
    BigInt throws the TypeError of [JSON.stringify] to its caller. *)
Lemma sendMessage_throws_on_bigint :
  connectionState connected_hook = connected
  ∧ fst (sendMessage (JBigInt 1) connected_hook) = Throw TypeError.
Proof. split; reflexivity. Qed.

(** C4, at the failing input. On the dashboard's channel once connected,
    [connect] is not a no-op: it sets the state to [connecting], constructs a
    second socket and holds that one, while the first socket stays open.
    While the first socket was still connecting, [connect] changed nothing. *)
Theorem connect_while_connected_opens_second_socket :
  connectionState connected_hook = connected
  ∧ current_readyState connected_hook = Some OPEN
  ∧ length (sockets connected_hook) = 1%nat
  ∧ length (sockets (dashboard_connect connected_hook)) = 2%nat
  ∧ connectionState (dashboard_connect connected_hook) = connecting
  ∧ wsRef (dashboard_connect connected_hook) = Some 1%nat
  ∧ readyState <$> sockets (dashboard_connect connected_hook) !! 0%nat = Some OPEN
  ∧ current_readyState dashboard_mount = Some CONNECTING
  ∧ dashboard_connect dashboard_mount = dashboard_mount.
Proof. split_and!; reflexivity. Qed.

(** The same guard lets the hook's own reconnect timer through: when the
    caller has connected by hand before the timer fires, the timer's
    [connect] constructs a third socket next to the one that is open. *)
Lemma reconnect_timer_duplicates_connection :
  ∃ h, dashboard_run manual_connect_then_timer dashboard_mount = Some h
    ∧ length (sockets h) = 3%nat
    ∧ readyState <$> sockets h !! 1%nat = Some OPEN
    ∧ wsRef h = Some 2%nat
    ∧ connectionState h = connecting.
Proof. eexists. split; [vm_compute; reflexivity|]. split_and!; reflexivity. Qed.

(** Against C3 as stated: when each of the six connections opens before
    the server closes it, every open resets the counter, so each of the six
    closes schedules a reconnect: six are scheduled, not five, and the
    sixth is still pending. *)
Lemma six_opens_schedule_six_reconnects :
  ∃ h, dashboard_run six_opened_then_closed dashboard_mount = Some h
    ∧ length (timers h) = 6%nat
    ∧ length (pending_timers h) = 1%nat
    ∧ reconnectAttemptsRef h = 1%nat.
Proof. eexists. split; [vm_compute; reflexivity|]. split_and!; reflexivity. Qed.

(** C3, as the code has it. With the defaults, six connections in a row
    that are closed without having opened schedule exactly five reconnects,
    each with a delay of 3000 ms; after the sixth close no timer is pending,
    the hook is [disconnected] and holds no socket, the host has no event
    left to deliver, and a call of [connect] starts a seventh connection.
    When each connection opens first, all six closes schedule a reconnect
    after 3000 ms. *)
Theorem reconnects_stop_at_ceiling :
  (∃ h, dashboard_run six_closed_unopened dashboard_mount = Some h
     ∧ scheduled_delays h = [3000; 3000; 3000; 3000; 3000]%Z
     ∧ pending_timers h = []
     ∧ reconnectAttemptsRef h = 5%nat
     ∧ connectionState h = disconnected
     ∧ isConnected h = false
     ∧ wsRef h = None
     ∧ (∀ e, is_host_event e = true → dashboard_step e h = None)
     ∧ ∃ h', dashboard_step CallConnect h = Some h'
         ∧ connectionState h' = connecting
         ∧ length (sockets h') = 7%nat)
  ∧ (∃ h, dashboard_run six_opened_then_closed dashboard_mount = Some h
       ∧ scheduled_delays h = [3000; 3000; 3000; 3000; 3000; 3000]%Z).
Proof.
  split.
  - eexists. split; [vm_compute; reflexivity|].
    split_and!; try reflexivity.
    + intros e He. destruct e; try discriminate He.
      * do 7 (destruct s as [|s]; [reflexivity|]). reflexivity.
      * do 7 (destruct s as [|s]; [reflexivity|]). reflexivity.
      * do 7 (destruct s as [|s]; [reflexivity|]). reflexivity.
      * do 6 (destruct t as [|t]; [reflexivity|]). reflexivity.
      * reflexivity.
    + eexists. split; [reflexivity|]. split; reflexivity.
  - eexists. split; [vm_compute; reflexivity|]. reflexivity.
Qed.

End ChannelExamples.

(** * Properties of the cache and of the data hooks *)

Section CacheFacts.
Import Types Service Cache MemoryHooks CacheEvents.

(** *** Looking entries up *)


Lemma find_update_eq k f qs :
  keeps_key f → find_query k (update_query k f qs) = f <$> find_query k qs.
Proof.
  intros Hf. induction qs as [|q qs IH]; cbn; [done|].
  destruct (decide (queryKey q = k)) as [Hk|Hk]; cbn.
  - rewrite decide_True by (by rewrite Hf). done.
  - rewrite decide_False by done. done.
Qed.

Lemma find_update_ne k k' f qs :
  keeps_key f → k ≠ k' → find_query k' (update_query k f qs) = find_query k' qs.
Proof.
  intros Hf Hne. induction qs as [|q qs IH]; cbn; [done|].
  destruct (decide (queryKey q = k)) as [Hk|Hk]; cbn.
  - rewrite Hf. rewrite !decide_False by congruence. done.
  - destruct (decide (queryKey q = k')); [done|]. done.
Qed.

Lemma find_fmap k g qs :
  keeps_key g → find_query k (g <$> qs) = g <$> find_query k qs.
Proof.
  intros Hg. induction qs as [|q qs IH]; cbn; [done|].
  rewrite Hg. destruct (decide (queryKey q = k)); done.
Qed.

Lemma find_app k qs q :
  find_query k (qs ++ [q])
  = match find_query k qs with
    | Some x => Some x
    | None => if decide (queryKey q = k) then Some q else None
    end.
Proof.
  induction qs as [|q0 qs IH]; cbn; [done|].
  destruct (decide (queryKey q0 = k)); done.
Qed.

Lemma find_filter k (p : QueryKey → bool) qs :
  find_query k (filter (λ q, p (queryKey q) = false) qs)
  = if p k then None else find_query k qs.
Proof.
  induction qs as [|q qs IH]; [cbn; by destruct (p k)|].
  rewrite filter_cons. destruct (decide (p (queryKey q) = false)) as [Hp|Hp]; cbn.
  - destruct (decide (queryKey q = k)) as [<-|Hk]; [by rewrite Hp|done].
  - destruct (decide (queryKey q = k)) as [<-|Hk]; [|done].
    rewrite IH. by destruct (p (queryKey q)).
Qed.

Lemma find_key k qs q : find_query k qs = Some q → queryKey q = k.
Proof.
  induction qs as [|q0 qs IH]; cbn; [done|].
  destruct (decide (queryKey q0 = k)); [|done]. by intros [= <-].
Qed.


Lemma keeps_key_start_fetch : keeps_key start_fetch.
Proof. by intros q. Qed.

Lemma keeps_key_invalidate f :
  keeps_key (λ q, if matchQuery f q then invalidate q else q).
Proof. intros q. by destruct (matchQuery f q). Qed.

(** *** Failed mutations *)

Lemma useMutation_rejected {V A : Type} (mutationFn : V → ServiceCall)
    (onSuccess : A → V → App → App) (onError : option (ApiError → App → App))
    (variables : V) (remote : Remote A) (a : App) (e : ApiError) :
  remote 0%nat = Rejected e →
  useMutation mutationFn onSuccess onError variables remote a
  = (Rejected e,
     let a' := mkApp (mkClient (queries (client a)) (outstanding (client a))
                        (requests (client a) ++ [mutationFn variables]))
                 (toasts a) in
     match onError with
     | Some handler => handler e a'
     | None => a'
     end).
Proof. intros Hr. unfold useMutation, mutation_retry. cbn. rewrite Hr. done. Qed.

Lemma useMutation_resolved {V A : Type} (mutationFn : V → ServiceCall)
    (onSuccess : A → V → App → App) (onError : option (ApiError → App → App))
    (variables : V) (remote : Remote A) (a : App) (result : A) :
  remote 0%nat = Resolved result →
  useMutation mutationFn onSuccess onError variables remote a
  = (Resolved result,
     onSuccess result variables
       (mkApp (mkClient (queries (client a)) (outstanding (client a))
                 (requests (client a) ++ [mutationFn variables]))
          (toasts a))).
Proof. intros Hr. unfold useMutation, mutation_retry. cbn. rewrite Hr. done. Qed.

(** C5. When the remote write of a mutation fails, the entries of the
    cache and the fetches in flight are what they were, the error is what
    the caller observes and what the error toast shows, and the call was
    sent once. *)
Theorem failed_mutation_touches_no_entry m a e :
  first_attempt m = Some e →
  fst (mutate m a) = Some e
  ∧ queries (client (snd (mutate m a))) = queries (client a)
  ∧ outstanding (client (snd (mutate m a))) = outstanding (client a)
  ∧ requests (client (snd (mutate m a))) = requests (client a) ++ [mutation_call m]
  ∧ toasts (snd (mutate m a)) = toasts a ++ error_toasts m e.
Proof.
  intros Hfirst.
  destruct m as [data remote|id data now remote|id remote|id remote|ids remote];
    cbn in Hfirst; destruct (remote 0%nat) as [r|e'] eqn:Hr; try discriminate Hfirst;
    injection Hfirst as ->; cbn.
  - unfold useCreateMemory. rewrite (useMutation_rejected _ _ _ _ _ _ _ Hr). done.
  - unfold useUpdateMemory. rewrite (useMutation_rejected _ _ _ _ _ _ _ Hr). done.
  - unfold useDeleteMemory. rewrite (useMutation_rejected _ _ _ _ _ _ _ Hr). done.
  - unfold useRecordAccess. rewrite (useMutation_rejected _ _ _ _ _ _ _ Hr).
    cbn. by rewrite app_nil_r.
  - unfold useBulkDeleteMemories. rewrite (useMutation_rejected _ _ _ _ _ _ _ Hr). done.
Qed.

(** *** Invalidation *)

Lemma start_fetch_idempotent q : start_fetch (start_fetch q) = start_fetch q.
Proof. destruct q as [k fn d st [t|] inv fe fc ob]; reflexivity. Qed.

Lemma fetch_find k k' c :
  match find_query k' (queries c) with
  | None => find_query k' (queries (fetch k c)) = None
  | Some q =>
      ∃ q', find_query k' (queries (fetch k c)) = Some q'
        ∧ (q' = q ∨ (k = k' ∧ q' = start_fetch q))
  end.
Proof.
  unfold fetch.
  destruct (find_query k (queries c)) as [q0|] eqn:Hk;
    [|destruct (find_query k' (queries c)); eauto].
  destruct (isFetching q0); [destruct (find_query k' (queries c)); eauto|].
  destruct (queryFn q0); [|destruct (find_query k' (queries c)); eauto].
  cbn. destruct (decide (k = k')) as [<-|Hne].
  - rewrite find_update_eq by apply keeps_key_start_fetch. rewrite Hk. cbn. eauto.
  - rewrite find_update_ne by (apply keeps_key_start_fetch || done).
    destruct (find_query k' (queries c)); eauto.
Qed.

Lemma refetch_find f qs : ∀ c k,
  match find_query k (queries c) with
  | None => find_query k (queries (refetchQueries f qs c)) = None
  | Some q =>
      ∃ q', find_query k (queries (refetchQueries f qs c)) = Some q'
        ∧ (q' = q ∨ (matchKey f k = true ∧ q' = start_fetch q))
  end.
Proof.
  induction qs as [|q0 qs IH]; intros c k; cbn.
  - destruct (find_query k (queries c)); eauto.
  - set (c1 := if matchQuery f q0 && (0 <? observers q0)%nat
               then fetch (queryKey q0) c else c).
    assert (match find_query k (queries c) with
            | None => find_query k (queries c1) = None
            | Some q =>
                ∃ q1, find_query k (queries c1) = Some q1
                  ∧ (q1 = q ∨ (matchKey f k = true ∧ q1 = start_fetch q))
            end) as Hc1.
    { subst c1. destruct (matchQuery f q0 && _) eqn:Hm.
      - pose proof (fetch_find (queryKey q0) k c) as Hf.
        destruct (find_query k (queries c)) as [q|]; [|done].
        destruct Hf as (q1 & Hq1 & [->|[<- ->]]); eauto.
        exists (start_fetch q). split; [done|]. right. split; [|done].
        apply andb_true_iff in Hm as [Hm _]. exact Hm.
      - destruct (find_query k (queries c)); eauto. }
    specialize (IH c1 k).
    destruct (find_query k (queries c)) as [q|].
    + destruct Hc1 as (q1 & Hq1 & Hrel). rewrite Hq1 in IH.
      destruct IH as (q' & Hq' & Hrel'). exists q'. split; [done|].
      destruct Hrel as [->|[Hm ->]], Hrel' as [->|[Hm' ->]]; eauto.
      rewrite start_fetch_idempotent. eauto.
    + by rewrite Hc1 in IH.
Qed.

(** What an invalidation does to the entry of a key: none appears; an
    entry the filter does not reach is left as it is; one it reaches is
    marked, and its value is kept. *)
Lemma invalidateQueries_find arg c k :
  match find_query k (queries c) with
  | None => find_query k (queries (invalidateQueries arg c)) = None
  | Some q =>
      ∃ q', find_query k (queries (invalidateQueries arg c)) = Some q'
        ∧ data q' = data q
        ∧ (isInvalidated q = true → isInvalidated q' = true)
        ∧ (if matchKey (parseFilterArgs arg) k
           then isInvalidated q' = true
           else q' = q)
  end.
Proof.
  unfold invalidateQueries.
  set (f := parseFilterArgs arg).
  set (g := λ q, if matchQuery f q then invalidate q else q).
  pose proof (refetch_find f (g <$> queries c)
                (mkClient (g <$> queries c) (outstanding c) (requests c)) k) as Hr.
  cbn in Hr. rewrite find_fmap in Hr by apply keeps_key_invalidate.
  destruct (find_query k (queries c)) as [q|] eqn:Hq; cbn in Hr; [|done].
  destruct Hr as (q' & Hq' & Hrel). exists q'. split; [done|].
  pose proof (find_key _ _ _ Hq) as Hkey.
  assert (matchQuery f q = matchKey f k) as Hm by (unfold matchQuery, matchKey; by rewrite Hkey).
  subst g. cbn in Hrel. rewrite Hm in Hrel.
  destruct (matchKey f k); destruct Hrel as [->|[Hmk ->]]; try done.
Qed.

(** What a removal does to the entry of a key. *)
Lemma removeQueries_find arg c k :
  find_query k (queries (removeQueries arg c))
  = if matchKey (parseFilterArgs arg) k then None else find_query k (queries c).
Proof.
  unfold removeQueries. cbn.
  exact (find_filter k (matchKey (parseFilterArgs arg)) (queries c)).
Qed.

Lemma create_affects_lists assistantId filters :
  create_affects assistantId (MEMORY_KEYS.list filters) = true.
Proof. reflexivity. Qed.

Lemma create_affects_stats assistantId :
  create_affects assistantId (MEMORY_KEYS.stats assistantId) = true.
Proof.
  unfold create_affects. cbn.
  rewrite (bool_decide_eq_true_2 (KNum assistantId = KNum assistantId)) by done.
  reflexivity.
Qed.

Lemma create_affects_other_stats assistantId other :
  other ≠ assistantId → create_affects assistantId (MEMORY_KEYS.stats other) = false.
Proof.
  intros Hne. unfold create_affects. cbn.
  rewrite (bool_decide_eq_false_2 (KNum other = KNum assistantId)) by congruence.
  reflexivity.
Qed.

(** C2, as the code has it. After a successful creation for an assistant,
    every entry the three invalidations reach is marked invalidated and
    every other entry is left as it was. They reach every memory list,
    whatever its filter, the statistics of that assistant and its recent
    view; they do not reach the statistics of another assistant. *)
Theorem create_invalidates_every_list request remote newMemory a k q :
  remote 0%nat = Resolved newMemory →
  find_query k (queries (client a)) = Some q →
  (∃ q', find_query k (queries (client (snd (useCreateMemory request remote a)))) = Some q'
     ∧ data q' = data q
     ∧ (if create_affects (assistant_id newMemory) k
        then isInvalidated q' = true
        else q' = q))
  ∧ (∀ filters, create_affects (assistant_id newMemory) (MEMORY_KEYS.list filters) = true)
  ∧ create_affects (assistant_id newMemory)
      (MEMORY_KEYS.stats (assistant_id newMemory)) = true
  ∧ (∀ other, other ≠ assistant_id newMemory →
     create_affects (assistant_id newMemory) (MEMORY_KEYS.stats other) = false).
Proof.
  intros Hr Hq.
  split; [|auto using create_affects_lists, create_affects_stats,
             create_affects_other_stats].
  unfold useCreateMemory. rewrite (useMutation_resolved _ _ _ _ _ _ _ Hr).
  unfold with_client, toast. cbn [snd client toasts].
  set (c0 := mkClient _ _ _).
  assert (find_query k (queries c0) = Some q) as H0 by done.
  pose proof (invalidateQueries_find (ArgKey MEMORY_KEYS.lists) c0 k) as H1.
  rewrite H0 in H1. destruct H1 as (q1 & H1 & Hd1 & Hk1 & Hm1).
  set (c1 := invalidateQueries _ c0) in *.
  pose proof (invalidateQueries_find
                (ArgKey (MEMORY_KEYS.stats (assistant_id newMemory))) c1 k) as H2.
  rewrite H1 in H2. destruct H2 as (q2 & H2 & Hd2 & Hk2 & Hm2).
  set (c2 := invalidateQueries _ c1) in *.
  pose proof (invalidateQueries_find
                (ArgKey (MEMORY_KEYS.recent (Some (assistant_id newMemory)))) c2 k) as H3.
  rewrite H2 in H3. destruct H3 as (q3 & H3 & Hd3 & Hk3 & Hm3).
  exists q3. split; [done|]. split; [congruence|].
  unfold create_affects. unfold matchKey in *. cbn [parseFilterArgs filters_queryKey] in *.
  destruct (partialMatchKey k MEMORY_KEYS.lists); cbn [orb]; [auto|].
  destruct (partialMatchKey k (MEMORY_KEYS.stats _)); cbn [orb]; [auto|].
  destruct (partialMatchKey k (MEMORY_KEYS.recent _)); [auto|]. congruence.
Qed.

(** What a successful deletion does: the entry of the deleted memory is
    gone, and every entry left is marked invalidated. *)
Lemma delete_removes_and_invalidates deletedId remote a :
  remote 0%nat = Resolved () →
  find_query (MEMORY_KEYS.detail deletedId)
    (queries (client (snd (useDeleteMemory deletedId remote a)))) = None
  ∧ ∀ k q', find_query k (queries (client (snd (useDeleteMemory deletedId remote a))))
            = Some q' → isInvalidated q' = true.
Proof.
  intros Hr. unfold useDeleteMemory. rewrite (useMutation_resolved _ _ _ _ _ _ _ Hr).
  unfold with_client, toast. cbn [snd client toasts].
  set (c0 := mkClient _ _ _).
  set (c1 := removeQueries (ArgKey (MEMORY_KEYS.detail deletedId)) c0).
  set (c2 := invalidateQueries (ArgKey MEMORY_KEYS.lists) c1).
  split.
  - assert (find_query (MEMORY_KEYS.detail deletedId) (queries c1) = None) as H1.
    { subst c1. rewrite removeQueries_find. unfold matchKey. cbn.
      by rewrite !bool_decide_eq_true_2 by done. }
    pose proof (invalidateQueries_find (ArgKey MEMORY_KEYS.lists) c1
                  (MEMORY_KEYS.detail deletedId)) as H2.
    rewrite H1 in H2. fold c2 in H2.
    pose proof (invalidateQueries_find ArgFunction c2 (MEMORY_KEYS.detail deletedId)) as H3.
    by rewrite H2 in H3.
  - intros k q' Hq'.
    pose proof (invalidateQueries_find ArgFunction c2 k) as H3.
    destruct (find_query k (queries c2)) as [q2|]; [|congruence].
    destruct H3 as (q3 & H3 & _ & _ & Hm). cbn in Hm. congruence.
Qed.

(** *** De-duplication of reads *)


Lemma fetching_update k f qs k' :
  keeps_key f → (∀ q, isFetching (f q) = isFetching q) →
  fetching_in (update_query k f qs) k' ↔ fetching_in qs k'.
Proof.
  intros Hkey Hf. unfold fetching_in. destruct (decide (k = k')) as [<-|Hne].
  - rewrite find_update_eq by done. destruct (find_query k qs) as [q|]; cbn.
    + split; intros (q' & [= <-] & Hq'); eexists; (split; [done|]);
        by rewrite ?Hf in *.
    + split; intros (? & [=] & _).
  - by rewrite find_update_ne.
Qed.



Lemma fetching_build k fn c k' :
  fetching_in (queries (build k fn c)) k' ↔ fetching_in (queries c) k'.
Proof.
  unfold build. destruct (find_query k (queries c)) as [q|] eqn:Hk; cbn.
  - by apply fetching_update.
  - unfold fetching_in. rewrite find_app.
    destruct (find_query k' (queries c)) as [q|]; [done|].
    cbn. destruct (decide (k = k')); split; intros (q' & [= <-] & Hq'); done.
Qed.












Lemma build_find k fn c :
  ∃ q, find_query k (queries (build k (Some fn) c)) = Some q
    ∧ queryFn q = Some fn
    ∧ (find_query k (queries c) = None → q = new_query k (Some fn)).
Proof.
  unfold build. destruct (find_query k (queries c)) as [q0|] eqn:Hk; cbn.
  - rewrite find_update_eq by done. rewrite Hk. cbn.
    eexists. split; [done|]. split; [done|]. intros [=].
  - rewrite find_app, Hk. cbn. rewrite decide_True by done.
    eexists. split; [done|]. split; done.
Qed.

Lemma build_log k fn c :
  outstanding (build k fn c) = outstanding c ∧ requests (build k fn c) = requests c.
Proof. unfold build. by destruct (find_query k (queries c)). Qed.

(** A read of a key whose fetch is in flight issues nothing. *)
Lemma useQuery_joins k fn enabled now c :
  fetching_in (queries c) k →
  requests (useQuery k fn enabled now c) = requests c
  ∧ outstanding (useQuery k fn enabled now c) = outstanding c.
Proof.
  intros Hf. unfold useQuery.
  destruct (build_log k (Some fn) c) as [Ho Hr].
  destruct enabled; [|done].
  set (c1 := mkClient _ _ _).
  assert (fetching_in (queries c1) k) as (q & Hq & Hfq).
  { subst c1. cbn. apply fetching_update; [done..|]. by apply fetching_build. }
  rewrite Hq. destruct (isStale now q); [|done].
  unfold fetch. rewrite Hq, Hfq. done.
Qed.


(** The first read of a key that has no entry fetches. *)
Lemma useQuery_first_read k fn now c :
  find_query k (queries c) = None →
  requests (useQuery k fn true now c) = requests c ++ [fn]
  ∧ outstanding (useQuery k fn true now c) = outstanding c ++ [k].
Proof.
  intros Hnone. unfold useQuery.
  destruct (build_log k (Some fn) c) as [Ho Hr].
  destruct (build_find k fn c) as (q0 & Hq0 & Hfn & Hnew).
  rewrite (Hnew Hnone) in Hq0.
  set (c1 := mkClient _ _ _).
  assert (find_query k (queries c1) = Some (add_observer (new_query k (Some fn)))) as Hq.
  { subst c1. cbn. rewrite find_update_eq by done. by rewrite Hq0. }
  rewrite Hq. cbn. unfold fetch. rewrite Hq. cbn. by rewrite Ho, Hr.
Qed.


(** *** Reads that are disabled *)


Lemma Forall_update (P : Query → Prop) k f qs :
  Forall P qs → (∀ q, P q → queryKey q = k → P (f q)) → Forall P (update_query k f qs).
Proof.
  intros Hall Hf. induction Hall as [|q qs Hq Hqs IH]; cbn; [constructor|].
  destruct (decide (queryKey q = k)); constructor; auto.
Qed.

Lemma find_elem k qs q : find_query k qs = Some q → q ∈ qs.
Proof.
  induction qs as [|q0 qs IH]; cbn; [done|].
  destruct (decide (queryKey q0 = k)).
  - intros [= <-]. by left.
  - intros H. right. auto.
Qed.

Lemma hook_fn_not_zero q fn :
  from_hook q → ¬ zero_key (queryKey q) → queryFn q = Some fn →
  fn ≠ getMemory 0 ∧ fn ≠ getMemoryStats 0.
Proof.
  intros Hfrom Hnz Hfn. destruct (Hfrom fn Hfn) as (r & Hk & ->).
  split; intros Heq; apply Hnz; rewrite Hk;
    destruct r; try discriminate Heq; injection Heq as ->; [by left|by right].
Qed.

Lemma zero_key_disabled r now :
  zero_key (hook_queryKey r) →
  CacheEvents.plain_for_zero (CacheEvents.Mount r now) = true →
  hook_enabled r = false.
Proof.
  intros [Hk|Hk] Hplain; destruct r; try discriminate Hk;
    injection Hk as ->; cbn in Hplain;
    apply bool_decide_eq_true_1 in Hplain as ->; reflexivity.
Qed.

Lemma fetch_zero k c : ¬ zero_key k → zero_invariant c → zero_invariant (fetch k c).
Proof.
  intros Hk (Hall & Hout & Hm & Hs). unfold fetch.
  destruct (find_query k (queries c)) as [q|] eqn:Hq; [|done].
  destruct (isFetching q); [done|].
  destruct (queryFn q) as [fn|] eqn:Hfn; [|done].
  pose proof (find_key _ _ _ Hq) as Hkey.
  pose proof (find_elem _ _ _ Hq) as Hin.
  rewrite Forall_forall in Hall. destruct (Hall q Hin) as [_ Hfrom].
  rewrite <- Hkey in Hk.
  destruct (hook_fn_not_zero q fn Hfrom Hk Hfn) as [Hne1 Hne2].
  split_and!; cbn.
  - apply Forall_update; [by apply Forall_forall|].
    intros q0 [Hz Hf] Hk0. split; [|done]. intros Hzero.
    cbn in Hzero. rewrite Hk0, <- Hkey in Hzero. done.
  - intros k' Hz. rewrite elem_of_app, list_elem_of_singleton.
    intros [Hin' | ->]; [by eapply Hout|]. rewrite Hkey in Hk. done.
  - rewrite elem_of_app, list_elem_of_singleton. intros [?|?]; done.
  - rewrite elem_of_app, list_elem_of_singleton. intros [?|?]; done.
Qed.

Lemma refetch_zero f qs : ∀ c,
  (∀ q, q ∈ qs → (0 <? observers q)%nat = true → ¬ zero_key (queryKey q)) →
  zero_invariant c → zero_invariant (refetchQueries f qs c).
Proof.
  induction qs as [|q qs IH]; intros c Hqs Hc; cbn; [done|].
  apply IH; [intros q' Hin; apply Hqs; by right|].
  destruct (matchQuery f q && _) eqn:Hm; [|done].
  apply andb_true_iff in Hm as [_ Hobs].
  apply fetch_zero; [|done]. apply Hqs; [by left|done].
Qed.

Lemma invalidateQueries_zero arg c :
  zero_invariant c → zero_invariant (invalidateQueries arg c).
Proof.
  intros (Hall & Hout & Hm & Hs). unfold invalidateQueries.
  set (g := λ q, if matchQuery (parseFilterArgs arg) q then invalidate q else q).
  assert (Forall entry_ok (g <$> queries c)) as Hall'.
  { apply Forall_fmap. eapply Forall_impl; [exact Hall|].
    intros q [Hz Hf]. subst g. cbn. by destruct (matchQuery _ q). }
  apply refetch_zero; [|done].
  intros q Hin Hobs Hzero. rewrite Forall_forall in Hall'.
  destruct (Hall' q Hin) as [Hz _]. destruct (Hz Hzero) as (Ho & _).
  rewrite Ho in Hobs. discriminate.
Qed.

Lemma build_zero k fn c :
  entry_ok (new_query k fn) →
  (∀ q, entry_ok q → queryKey q = k → entry_ok (set_queryFn fn q)) →
  zero_invariant c → zero_invariant (build k fn c).
Proof.
  intros Hnew Hset (Hall & Hout & Hm & Hs). unfold build.
  destruct (find_query k (queries c)); (split_and!; [|done..]); cbn.
  - by apply Forall_update.
  - apply Forall_app. split; [done|]. by constructor.
Qed.

Lemma build_hook_zero r c :
  zero_invariant c →
  zero_invariant (build (hook_queryKey r) (Some (hook_queryFn r)) c).
Proof.
  apply build_zero.
  - split; [by intros _|]. intros fn [= <-]. by exists r.
  - intros q [Hz Hf] Hk. split; [done|]. intros fn [= <-]. by exists r.
Qed.

Lemma mount_zero r now c :
  CacheEvents.plain_for_zero (CacheEvents.Mount r now) = true →
  zero_invariant c → zero_invariant (mount r now c).
Proof.
  intros Hplain Hc. unfold mount, useQuery.
  pose proof (build_hook_zero r c Hc) as Hb.
  destruct (hook_enabled r) eqn:Hen; [|done].
  assert (¬ zero_key (hook_queryKey r)) as Hnz.
  { intros Hz. rewrite (zero_key_disabled r now Hz Hplain) in Hen. done. }
  set (c1 := mkClient _ _ _).
  assert (zero_invariant c1) as Hc1.
  { destruct Hb as (Hall & Hout & Hm & Hs). split_and!; [|done..]. cbn.
    apply Forall_update; [done|]. intros q [Hz Hf] Hk. split; [|done].
    cbn. rewrite Hk. done. }
  destruct (find_query _ (queries c1)) as [q|]; [|done].
  destruct (isStale now q); [by apply fetch_zero|done].
Qed.

Lemma unmount_zero r c : zero_invariant c → zero_invariant (unmount r c).
Proof.
  intros (Hall & Hout & Hm & Hs). unfold unmount, unsubscribe.
  destruct (hook_enabled r); [|done]. split_and!; [|done..]. cbn.
  apply Forall_update; [done|]. intros q [Hz Hf] Hk. split; [|done].
  intros Hzero. destruct (Hz Hzero) as (Ho & Hrest). split; [|done].
  cbn. by rewrite Ho.
Qed.

Lemma remove_zero arg c : zero_invariant c → zero_invariant (removeQueries arg c).
Proof.
  intros (Hall & Hout & Hm & Hs). split_and!; [|done..]. cbn.
  rewrite Forall_forall in *. intros q [_ Hin]%list_elem_of_filter. auto.
Qed.

Lemma seed_zero k d now c :
  ¬ zero_key k → zero_invariant c → zero_invariant (setQueryData k d now c).
Proof.
  intros Hnz Hc. unfold setQueryData.
  assert (zero_invariant (build k None c)) as (Hall & Hout & Hm & Hs).
  { apply build_zero; [|done..]. split; [done|]. intros fn [=]. }
  split_and!; [|done..]. cbn.
  apply Forall_update; [done|]. intros q [Hz Hf] Hk. split; [|done].
  cbn. rewrite Hk. done.
Qed.

Lemma settle_zero k r now c c' :
  zero_invariant c → settle k r now c = Some c' → zero_invariant c'.
Proof.
  intros (Hall & Hout & Hm & Hs). unfold settle. case_bool_decide as Hin; [|done].
  assert (¬ zero_key k) as Hnz by (intros Hz; by eapply Hout).
  assert (∀ k', zero_key k' → k' ∉ remove_first k (outstanding c)) as Hout'.
  { intros k' Hz Hin'. apply (Hout k' Hz). clear -Hin'.
    induction (outstanding c) as [|k0 ks IH]; cbn in Hin'; [done|].
    destruct (decide (k0 = k)); [by right|].
    apply elem_of_cons in Hin' as [->|?]; [by left|right; auto]. }
  assert (∀ g, (∀ q, queryKey (g q) = queryKey q ∧ queryFn (g q) = queryFn q) →
            Forall entry_ok (update_query k g (queries c))) as Hupd.
  { intros g Hg. apply Forall_update; [done|]. intros q [Hz Hf] Hk.
    destruct (Hg q) as [Ek Ef]. split.
    - rewrite Ek, Hk. done.
    - unfold from_hook. rewrite Ek, Ef. done. }
  destruct (find_query k (queries c)) as [q|] eqn:Hq;
    [|intros [= <-]; split_and!; done].
  destruct (isFetching q); [|intros [= <-]; split_and!; done].
  destruct r as [d|e].
  - intros [= <-]. split_and!; [by apply Hupd|done..].
  - destruct (failureCount q <? query_retry)%nat; intros [= <-];
      [|split_and!; [by apply Hupd|done..]].
    pose proof (find_key _ _ _ Hq) as Hkey.
    pose proof (find_elem _ _ _ Hq) as Hinq.
    rewrite Forall_forall in Hall. destruct (Hall q Hinq) as [_ Hfrom].
    rewrite <- Hkey in Hnz.
    split_and!; cbn.
    + apply Hupd. done.
    + intros k' Hz. rewrite elem_of_app, list_elem_of_singleton.
      intros [Hin' | ->]; [by eapply Hout'|]. rewrite Hkey in Hnz. done.
    + rewrite elem_of_app. intros [?|Hin']; [done|].
      destruct (queryFn q) as [fn|] eqn:Hfn; cbn in Hin'; [|by apply elem_of_nil in Hin'].
      apply list_elem_of_singleton in Hin'.
      destruct (hook_fn_not_zero q fn Hfrom Hnz Hfn). congruence.
    + rewrite elem_of_app. intros [?|Hin']; [done|].
      destruct (queryFn q) as [fn|] eqn:Hfn; cbn in Hin'; [|by apply elem_of_nil in Hin'].
      apply list_elem_of_singleton in Hin'.
      destruct (hook_fn_not_zero q fn Hfrom Hnz Hfn). congruence.
Qed.

Lemma step_zero e c c' :
  CacheEvents.plain_for_zero e = true →
  zero_invariant c → CacheEvents.step e c = Some c' → zero_invariant c'.
Proof.
  intros Hplain Hc Hstep. destruct e; cbn in Hstep.
  - injection Hstep as <-. by eapply mount_zero.
  - injection Hstep as <-. by apply unmount_zero.
  - eapply settle_zero; eassumption.
  - injection Hstep as <-. by apply invalidateQueries_zero.
  - injection Hstep as <-. by apply remove_zero.
  - injection Hstep as <-. apply seed_zero; [|done].
    cbn in Hplain. apply andb_true_iff in Hplain as [H1 H2].
    apply negb_true_iff, bool_decide_eq_false_1 in H1, H2.
    by intros [?|?].
Qed.

Lemma run_zero es : ∀ c c',
  Forall (λ e, CacheEvents.plain_for_zero e = true) es →
  zero_invariant c → CacheEvents.run es c = Some c' → zero_invariant c'.
Proof.
  induction es as [|e es IH]; intros c c' Hall Hc Hrun; cbn in Hrun.
  - by injection Hrun as <-.
  - destruct (CacheEvents.step e c) as [c1|] eqn:Hstep; [|done].
    inversion Hall; subst. eapply IH; [done| |done].
    eapply step_zero; eassumption.
Qed.

(** C10. [useMemory(0)] and [useMemoryStats(0)] are disabled reads. In a
    cache that has seen any reads (those of memory 0 and of the statistics of
    assistant 0 called without [options]), answers, invalidations and
    removals, and seedings of other keys, no call for memory 0 or for the
    statistics of assistant 0 was ever issued or is outstanding, and their
    entries, where present, are idle, without value and not fetching. *)
Theorem disabled_reads_never_fetch es c :
  Forall (λ e, CacheEvents.plain_for_zero e = true) es →
  CacheEvents.run es empty_client = Some c →
  hook_enabled (useMemory 0 no_options) = false
  ∧ hook_enabled (useMemoryStats 0 no_options) = false
  ∧ (getMemory 0 ∉ requests c)
  ∧ (getMemoryStats 0 ∉ requests c)
  ∧ (MEMORY_KEYS.detail 0 ∉ outstanding c)
  ∧ (MEMORY_KEYS.stats 0 ∉ outstanding c)
  ∧ (∀ q, find_query (MEMORY_KEYS.detail 0) (queries c) = Some q →
     status q = Idle ∧ isFetching q = false ∧ data q = None)
  ∧ (∀ q, find_query (MEMORY_KEYS.stats 0) (queries c) = Some q →
     status q = Idle ∧ isFetching q = false ∧ data q = None).
Proof.
  intros Hall Hrun.
  assert (zero_invariant empty_client) as H0.
  { split_and!; [constructor|intros k _|..]; by intros ?%elem_of_nil. }
  destruct (run_zero es _ _ Hall H0 Hrun) as (Hent & Hout & Hm & Hs).
  assert (∀ k q, zero_key k → find_query k (queries c) = Some q →
            status q = Idle ∧ isFetching q = false ∧ data q = None) as Hidle.
  { intros k q Hz Hq. rewrite Forall_forall in Hent.
    destruct (Hent q (find_elem _ _ _ Hq)) as [Hd _].
    rewrite (find_key _ _ _ Hq) in Hd. destruct (Hd Hz) as (_ & ? & ? & ? & _). done. }
  split_and!; try done.
  - apply Hout. by left.
  - apply Hout. by right.
  - intros q. apply Hidle. by left.
  - intros q. apply Hidle. by right.
Qed.

End CacheFacts.

(** * Properties of the application shell *)

Section ShellFacts.
Import Cache MemoryHooks AppShell.

(** C1, as the code has it. The effect that observes [lastMessage] writes
    the message to the console when it is truthy and does nothing else: for
    every message, of every type, the cache and the toasts are what they
    were. No inbound message type is mapped to an invalidation. *)
Theorem realtime_message_only_logged lastMessage s :
  app (onLastMessage lastMessage s) = app s
  ∧ console (onLastMessage lastMessage s)
    = console s
      ++ (if truthy lastMessage then [("WebSocket message:", lastMessage)] else []).
Proof.
  unfold onLastMessage. destruct (truthy lastMessage); cbn; [done|].
  by rewrite app_nil_r.
Qed.

End ShellFacts.

(** * The scenarios of the specification *)

Section CacheExamples.
Import Types Service Cache MemoryHooks CacheEvents AppShell Scenarios.

(** Against C1 as stated: in a cache that holds memory 42 and the list of
    assistant 7, the delivery of the [memory_deleted] message for id 42
    leaves the entry of memory 42 in place, with its value, and leaves the
    list unmarked. *)
Lemma memory_deleted_message_changes_no_entry :
  truthy memory_deleted_42 = true
  ∧ data <$> find_query (MEMORY_KEYS.detail 42)
               (queries (client (app (onLastMessage memory_deleted_42 warm_shell))))
    = Some (Some (DataMemory (memory_of 42 7)))
  ∧ isInvalidated <$> find_query (MEMORY_KEYS.list (for_assistant 7))
                        (queries (client (app (onLastMessage memory_deleted_42 warm_shell))))
    = Some false.
Proof. split_and!; vm_compute; reflexivity. Qed.

(** Against C2 as stated: the list of assistant 9 is fresh before a memory
    is created for assistant 7, and invalidated after. *)
Lemma create_for_7_invalidates_list_of_9 :
  isInvalidated <$> find_query (MEMORY_KEYS.list (for_assistant 9)) (queries warm_client)
  = Some false
  ∧ isInvalidated <$> find_query (MEMORY_KEYS.list (for_assistant 9))
        (queries (client (snd (useCreateMemory (create_request 7)
                                 (always (Resolved (memory_of 43 7))) warm_app))))
    = Some true.
Proof. split; vm_compute; reflexivity. Qed.

(** C2, on the warm cache: a creation for assistant 7 and the list of
    assistant 9. *)
Lemma create_invalidates_every_list_witness :
  ∃ q, find_query (MEMORY_KEYS.list (for_assistant 9)) (queries (client warm_app)) = Some q
    ∧ ∃ q', find_query (MEMORY_KEYS.list (for_assistant 9))
              (queries (client (snd (useCreateMemory (create_request 7)
                                       (always (Resolved (memory_of 43 7))) warm_app))))
            = Some q'
        ∧ isInvalidated q' = true.
Proof.
  eexists. split; [vm_compute; reflexivity|].
  destruct (create_invalidates_every_list (create_request 7)
              (always (Resolved (memory_of 43 7))) (memory_of 43 7) warm_app
              (MEMORY_KEYS.list (for_assistant 9)) _ eq_refl eq_refl)
    as [(q' & Hq' & _ & Hinv) _].
  exists q'. split; [exact Hq'|exact Hinv].
Defined.

(** C5, on the warm cache: a creation the server rejects. *)
Lemma failed_mutation_touches_no_entry_witness :
  first_attempt (CreateMemory (create_request 7)
                   (always (Rejected (mkApiError (Some "boom")))))
  = Some (mkApiError (Some "boom"))
  ∧ queries (client (snd (mutate (CreateMemory (create_request 7)
                                    (always (Rejected (mkApiError (Some "boom")))))
                            warm_app)))
    = queries warm_client
  ∧ toasts (snd (mutate (CreateMemory (create_request 7)
                           (always (Rejected (mkApiError (Some "boom")))))
                   warm_app))
    = [toast_error "boom"].
Proof.
  split; [reflexivity|].
  destruct (failed_mutation_touches_no_entry
              (CreateMemory (create_request 7)
                 (always (Rejected (mkApiError (Some "boom")))))
              warm_app (mkApiError (Some "boom")) eq_refl)
    as (_ & Hq & _ & _ & Ht).
  split; [exact Hq|exact Ht].
Defined.


(** C10, on a cache where both disabled reads are mounted. *)
Lemma disabled_reads_never_fetch_witness :
  Forall (λ e, plain_for_zero e = true) reads_of_zero
  ∧ run reads_of_zero empty_client = Some client_after_reads_of_zero
  ∧ (status <$> find_query (MEMORY_KEYS.detail 0) (queries client_after_reads_of_zero))
    = Some Idle
  ∧ (status <$> find_query (MEMORY_KEYS.stats 0) (queries client_after_reads_of_zero))
    = Some Idle
  ∧ (getMemory 0 ∉ requests client_after_reads_of_zero)
  ∧ (getMemoryStats 0 ∉ requests client_after_reads_of_zero).
Proof.
  assert (Forall (λ e, plain_for_zero e = true) reads_of_zero) as Hall
    by (repeat constructor).
  assert (run reads_of_zero empty_client = Some client_after_reads_of_zero) as Hrun
    by (vm_compute; reflexivity).
  destruct (disabled_reads_never_fetch reads_of_zero client_after_reads_of_zero
              Hall Hrun) as (_ & _ & Hm & Hs & _).
  split_and!; [exact Hall|exact Hrun|vm_compute; reflexivity|vm_compute; reflexivity
              |exact Hm|exact Hs].
Defined.

End CacheExamples.

(** * More properties of the realtime channel *)

Section ChannelShape.
Import Channel Handshake.

Context (JSON_parse : string → option Json).
Context (location_protocol location_host : string).
Context (constructible : string → bool).
Context (url : string) (options : UseWebSocketOptions).

Local Abbreviation connect := (connect location_protocol location_host constructible url options).
Local Abbreviation onclose := (onclose options).
Local Abbreviation step :=
  (step JSON_parse location_protocol location_host constructible url options).
Local Abbreviation run :=
  (run JSON_parse location_protocol location_host constructible url options).
Local Abbreviation reachable :=
  (reachable JSON_parse location_protocol location_host constructible url options).
Local Abbreviation wsUrl := (wsUrl location_protocol location_host url).

Lemma reachable_run clientId es : ∀ h h',
  reachable clientId h → run es h = Some h' → reachable clientId h'.
Proof.
  induction es as [|e es IH]; intros h h' Hh Hrun; cbn in Hrun.
  - by injection Hrun as <-.
  - destruct (step e h) as [h1|] eqn:Hstep; [|done].
    eapply IH; [|exact Hrun]. eapply reachable_step; eassumption.
Qed.

Local Abbreviation hook_shape clientId :=
  (hook_shape (wsUrl (initial clientId)) clientId (reconnectInterval options)).

Lemma wsUrl_clientId h clientId :
  clientIdRef h = clientId → wsUrl h = wsUrl (initial clientId).
Proof. intros <-. reflexivity. Qed.

Lemma socket_ok_closing address clientId ws r :
  socket_ok address clientId ws → r = CLOSING ∨ r = CLOSED →
  socket_ok address clientId (mkWebSocket (ws_url ws) r (sent ws)).
Proof.
  intros [Hurl Hsent] Hr. split; [done|]. cbn.
  destruct Hr as [-> | ->]; destruct (readyState ws); auto.
Qed.

Lemma socket_ok_send address clientId ws f :
  socket_ok address clientId ws → readyState ws = OPEN →
  socket_ok address clientId (mkWebSocket (ws_url ws) (readyState ws) (sent ws ++ [f])).
Proof.
  intros [Hurl Hsent] Hopen. split; [done|]. cbn. rewrite Hopen in *.
  destruct Hsent as (now & rest & ->). by exists now, (rest ++ [f]).
Qed.

Lemma shape_same clientId h h' :
  clientIdRef h' = clientIdRef h → sockets h' = sockets h → timers h' = timers h →
  hook_shape clientId h → hook_shape clientId h'.
Proof. intros E1 E2 E3 (H1 & H2 & H3). unfold Handshake.hook_shape. by rewrite E1, E2, E3. Qed.

Lemma notify_core supplied n h :
  clientIdRef (notify supplied n h) = clientIdRef h
  ∧ sockets (notify supplied n h) = sockets h
  ∧ timers (notify supplied n h) = timers h.
Proof. by destruct supplied. Qed.

Lemma connect_shape clientId h : hook_shape clientId h → hook_shape clientId (connect h).
Proof.
  intros (Hid & Hs & Ht). unfold Channel.connect.
  destruct (negb (enabled options) || _); [done|].
  cbn. destruct (constructible _); cbn; [|done].
  split_and!; [done| |done]. apply Forall_app. split; [done|].
  constructor; [|constructor]. split; [|done]. cbn.
  change (Channel.wsUrl location_protocol location_host url
            (setConnectionState connecting h)) with (wsUrl h).
  by apply wsUrl_clientId.
Qed.

Lemma onclose_shape clientId h : hook_shape clientId h → hook_shape clientId (onclose h).
Proof.
  intros (Hid & Hs & Ht). unfold Channel.onclose, notify.
  destruct (onClose options); cbn; destruct (reconnect options && _); cbn;
    (split_and!; [done|done|]); try done;
    apply Forall_app; (split; [done|]); by repeat constructor.
Qed.

Lemma set_readyState_shape clientId s r h :
  r = CLOSING ∨ r = CLOSED →
  hook_shape clientId h → hook_shape clientId (set_readyState s r h).
Proof.
  intros Hr (Hid & Hs & Ht). unfold set_readyState.
  destruct (sockets h !! s) as [ws|] eqn:Hws; [|done].
  split_and!; [done| |done]. cbn. apply Forall_insert; [done|].
  apply socket_ok_closing; [|done].
  rewrite Forall_forall in Hs. apply Hs. by eapply list_elem_of_lookup_2.
Qed.

Lemma ws_close_shape clientId s h :
  hook_shape clientId h → hook_shape clientId (ws_close s h).
Proof.
  intros Hh. unfold ws_close. destruct (sockets h !! s) as [ws|]; [|done].
  destruct (readyState ws); try done; apply set_readyState_shape; auto.
Qed.

Lemma clearTimeout_shape clientId t h :
  hook_shape clientId h → hook_shape clientId (clearTimeout t h).
Proof.
  intros (Hid & Hs & Ht). unfold clearTimeout.
  destruct (timers h !! t) as [tm|] eqn:Htm; [|done].
  destruct (timer_state tm); try done.
  split_and!; [done|done|]. cbn. apply Forall_insert; [done|]. cbn.
  rewrite Forall_forall in Ht. apply Ht. by eapply list_elem_of_lookup_2.
Qed.

Lemma disconnect_shape clientId h :
  hook_shape clientId h → hook_shape clientId (disconnect h).
Proof.
  intros Hh. unfold disconnect.
  set (h1 := match reconnectTimeoutRef h with
             | Some t => set_reconnectTimeoutRef None (clearTimeout t h)
             | None => h
             end).
  assert (hook_shape clientId h1) as H1.
  { subst h1. destruct (reconnectTimeoutRef h); [|done].
    eapply shape_same; [..|apply clearTimeout_shape; exact Hh]; done. }
  set (h2 := match wsRef h1 with
             | Some s => set_wsRef None (ws_close s h1)
             | None => h1
             end).
  assert (hook_shape clientId h2) as H2.
  { subst h2. destruct (wsRef h1); [|done].
    eapply shape_same; [..|apply ws_close_shape; exact H1]; done. }
  eapply shape_same; [..|exact H2]; done.
Qed.

Lemma ws_send_shape clientId s f h :
  readyState <$> sockets h !! s = Some OPEN →
  hook_shape clientId h → hook_shape clientId (ws_send s f h).
Proof.
  intros Hopen (Hid & Hs & Ht). unfold ws_send.
  destruct (sockets h !! s) as [ws|] eqn:Hws; [|done].
  split_and!; [done| |done]. cbn. apply Forall_insert; [done|].
  injection Hopen as Hopen. apply socket_ok_send; [|done].
  rewrite Forall_forall in Hs. apply Hs. by eapply list_elem_of_lookup_2.
Qed.

Lemma sendMessage_shape clientId m h :
  hook_shape clientId h → hook_shape clientId (snd (sendMessage m h)).
Proof.
  intros Hh. unfold sendMessage. destruct (wsRef h) as [s|]; [|done].
  case_bool_decide as Hopen; [|done].
  destruct (JSON_stringify m); cbn; [by apply ws_send_shape|done].
Qed.

Lemma opened_shape clientId s now h ws :
  sockets h !! s = Some ws → readyState ws = CONNECTING →
  hook_shape clientId h →
  hook_shape clientId (onopen options s now (set_readyState s OPEN h)).
Proof.
  intros Hws Hc (Hid & Hs & Ht).
  assert (socket_ok (wsUrl (initial clientId)) clientId ws) as [Hurl Hsent].
  { rewrite Forall_forall in Hs. apply Hs. by eapply list_elem_of_lookup_2. }
  rewrite Hc in Hsent.
  unfold Channel.onopen. cbn [JSON_stringify SerializeJSONProperty connection_info].
  cbn. unfold set_readyState. rewrite Hws.
  destruct (notify_core (onOpen options) CalledOnOpen
              (set_reconnectAttemptsRef 0
                 (setConnectionState connected
                    (setIsConnected true
                       (set_sockets (<[s:=mkWebSocket (ws_url ws) OPEN (sent ws)]> (sockets h)) h)))))
    as (E1 & E2 & E3).
  cbn in E1, E2, E3. unfold ws_send. rewrite E2, E1.
  rewrite list_lookup_insert_eq by (by eapply lookup_lt_Some).
  cbn. rewrite list_insert_insert_eq.
  split_and!.
  - cbn. rewrite E1. done.
  - cbn. apply Forall_insert; [done|]. split; [done|]. cbn.
    rewrite Hsent, Hid. cbn. by eexists _, _.
  - cbn. by rewrite E3.
Qed.

Lemma step_shape clientId e h h' :
  hook_shape clientId h → step e h = Some h' → hook_shape clientId h'.
Proof.
  intros Hh Hstep. destruct e; cbn -[Channel.onopen] in Hstep.
  - destruct (sockets h !! s) as [ws|] eqn:Hws; [|done]. cbn -[Channel.onopen] in Hstep.
    destruct (readyState ws) eqn:Hr; try done. injection Hstep as <-.
    by eapply opened_shape.
  - destruct (readyState <$> sockets h !! s) as [[]|]; try done. injection Hstep as <-.
    unfold Channel.onmessage. destruct (JSON_parse data) as [m|]; [|done].
    destruct (notify_core (onMessage options) (CalledOnMessage m) (setLastMessage m h))
      as (E1 & E2 & E3).
    eapply shape_same; [exact E1|exact E2|exact E3|exact Hh].
  - assert (hook_shape clientId
              (onclose (if failed then onerror options (set_readyState s CLOSED h)
                        else set_readyState s CLOSED h))) as Hn.
    { apply onclose_shape. destruct failed; [|apply set_readyState_shape; auto].
      unfold Channel.onerror.
      destruct (notify_core (onError options) CalledOnError
                  (setConnectionState error (set_readyState s CLOSED h)))
        as (E1 & E2 & E3).
      eapply shape_same; [exact E1|exact E2|exact E3|].
      apply set_readyState_shape; auto. }
    destruct (readyState <$> sockets h !! s) as [[]|]; try done; by injection Hstep as <-.
  - destruct (timers h !! t) as [[ms []]|] eqn:Htm; try done. injection Hstep as <-.
    apply connect_shape. destruct Hh as (Hid & Hs & Ht).
    split_and!; [done|done|]. cbn. apply Forall_insert; [done|]. cbn.
    rewrite Forall_forall in Ht. apply (Ht (mkTimer ms Pending)).
    by eapply list_elem_of_lookup_2.
  - destruct (isConnected h); [|done]. injection Hstep as <-. by apply sendMessage_shape.
  - injection Hstep as <-. by apply connect_shape.
  - injection Hstep as <-. by apply disconnect_shape.
  - injection Hstep as <-. by apply sendMessage_shape.
  - injection Hstep as <-. by apply sendMessage_shape.
Qed.

Lemma reachable_shape clientId h : reachable clientId h → hook_shape clientId h.
Proof.
  induction 1 as [|e h h' _ IH Hstep].
  - assert (hook_shape clientId (initial clientId)) as H0.
    { split_and!; [done|constructor|constructor]. }
    unfold mount. destruct (enabled options); [by apply connect_shape|done].
  - eapply step_shape; eassumption.
Qed.

Local Abbreviation onmessage := (onmessage JSON_parse options).

(** X1. The retry budget is kept, for every finite [maxReconnectAttempts],
    fractional ones included: the test of [ws.onclose] on the counter is
    the test against the least integer not below that number; in every
    state a mounted hook can reach the retry counter is 0 or less than
    [maxReconnectAttempts + 1], so it never passes an integer ceiling and
    passes a fractional one by less than one; and a close that finds the
    counter not below [maxReconnectAttempts] schedules no reconnect. *)
Theorem retry_budget_kept (max : QArith_base.Q) clientId h :
  maxReconnectAttempts options = Qround.Qceiling max →
  reachable clientId h →
  (∀ n : nat,
     (Z.of_nat n <? maxReconnectAttempts options)%Z = true
     ↔ QArith_base.Qlt (QArith_base.inject_Z (Z.of_nat n)) max)
  ∧ (reconnectAttemptsRef h = 0%nat
     ∨ QArith_base.Qlt (QArith_base.inject_Z (Z.of_nat (reconnectAttemptsRef h) - 1)) max)
  ∧ (Z.of_nat (reconnectAttemptsRef h) ≤ Z.max 0 (maxReconnectAttempts options))%Z
  ∧ (¬ QArith_base.Qlt (QArith_base.inject_Z (Z.of_nat (reconnectAttemptsRef h))) max →
     timers (onclose h) = timers h
     ∧ reconnectAttemptsRef (onclose h) = reconnectAttemptsRef h).
Proof.
  intros Hmax Hreach.
  assert (∀ n : nat,
            (Z.of_nat n <? maxReconnectAttempts options)%Z = true
            ↔ QArith_base.Qlt (QArith_base.inject_Z (Z.of_nat n)) max) as Htest.
  { intros n. rewrite Hmax, Z.ltb_lt. split.
    - intros Hlt. eapply QArith_base.Qle_lt_trans; [|apply Qround.Qceiling_lt].
      rewrite <- QArith_base.Zle_Qle. lia.
    - intros Hlt. rewrite QArith_base.Zlt_Qlt.
      eapply QArith_base.Qlt_le_trans; [exact Hlt|apply Qround.Qle_ceiling]. }
  pose proof (attempts_never_exceed_ceiling _ _ _ _ _ _ _ _ Hreach) as Hle.
  split_and!.
  - exact Htest.
  - destruct (reconnectAttemptsRef h) as [|n] eqn:Hn; [by left|]. right.
    replace (Z.of_nat (S n) - 1)%Z with (Z.of_nat n) by lia.
    apply Htest, Z.ltb_lt. lia.
  - exact Hle.
  - intros Hfull. destruct (onclose_schedules options h) as (Ht & Ha & _).
    cbn zeta in Ht, Ha.
    destruct (Z.of_nat (reconnectAttemptsRef h) <? maxReconnectAttempts options)%Z
      eqn:Hlt; [exfalso; by apply Hfull, Htest|].
    rewrite andb_false_r in *. by rewrite app_nil_r in Ht.
Qed.

(** X2. Reconnects are at a fixed interval: every reconnect a mounted hook
    has scheduled with [setTimeout] (the timers of the model; the ping
    interval the hook sets up with [setInterval] is not one of them) has
    the configured [reconnectInterval] as its delay, whatever happened to
    the hook since. *)
Theorem reconnect_interval_fixed clientId h :
  reachable clientId h →
  Forall (λ tm, delay tm = reconnectInterval options) (timers h).
Proof. intros Hreach. by apply reachable_shape in Hreach as (_ & _ & Ht). Qed.

(** X3. The identity of the client is stable across reconnects: the client
    id of a mounted hook never changes, and any two sockets the hook has
    constructed, however many reconnects lie between them, were
    constructed with one and the same address. *)
Theorem client_identity_stable clientId h ws1 ws2 :
  reachable clientId h →
  ws1 ∈ sockets h →
  ws2 ∈ sockets h →
  clientIdRef h = clientId ∧ ws_url ws1 = ws_url ws2.
Proof.
  intros Hreach H1 H2. apply reachable_shape in Hreach as (Hid & Hs & _).
  rewrite Forall_forall in Hs. split; [done|].
  destruct (Hs ws1 H1) as [-> _]. by destruct (Hs ws2 H2) as [-> _].
Qed.

(** X4. When the caller supplied no observer, on every socket of a mounted
    hook the first frame sent is the [connection_info] envelope with the
    client id: nothing is sent while the socket is connecting, and a socket
    that is open has sent it. *)
Theorem connection_info_sent_first clientId h s ws :
  no_observers options →
  reachable clientId h →
  sockets h !! s = Some ws →
  (sent ws = [] ∨ starts_with_connection_info clientId (sent ws))
  ∧ (readyState ws = CONNECTING → sent ws = [])
  ∧ (readyState ws = OPEN → starts_with_connection_info clientId (sent ws)).
Proof.
  intros _ Hreach Hws. apply reachable_shape in Hreach as (_ & Hs & _).
  rewrite Forall_forall in Hs.
  destruct (Hs ws (list_elem_of_lookup_2 _ _ _ Hws)) as [_ Hsent].
  destruct (readyState ws); split_and!; auto; try discriminate.
Qed.

(** X5. [disconnect] is idempotent, and after it the hook holds no socket
    and no timer, says [disconnected], and the reconnect it had scheduled
    is no longer pending. *)
Theorem disconnect_idempotent h :
  disconnect (disconnect h) = disconnect h
  ∧ wsRef (disconnect h) = None
  ∧ reconnectTimeoutRef (disconnect h) = None
  ∧ connectionState (disconnect h) = disconnected
  ∧ isConnected (disconnect h) = false
  ∧ (∀ t tm, reconnectTimeoutRef h = Some t →
             timers (disconnect h) !! t = Some tm → timer_state tm ≠ Pending).
Proof.
  assert (∀ s h0, wsRef (ws_close s h0) = wsRef h0
                  ∧ reconnectTimeoutRef (ws_close s h0) = reconnectTimeoutRef h0
                  ∧ timers (ws_close s h0) = timers h0) as Hclose.
  { intros s h0. unfold ws_close, set_readyState.
    destruct (sockets h0 !! s) as [ws|]; [|done]. by destruct (readyState ws). }
  assert (∀ t h0, wsRef (clearTimeout t h0) = wsRef h0
                  ∧ sockets (clearTimeout t h0) = sockets h0) as Hclear.
  { intros t h0. unfold clearTimeout.
    destruct (timers h0 !! t) as [tm|]; [|done]. by destruct (timer_state tm). }
  assert (wsRef (disconnect h) = None) as Hws.
  { unfold disconnect. cbn.
    generalize (match reconnectTimeoutRef h with
                | Some t => set_reconnectTimeoutRef None (clearTimeout t h)
                | None => h
                end).
    intros h1. by destruct (wsRef h1) eqn:E. }
  assert (reconnectTimeoutRef (disconnect h) = None) as Hto.
  { unfold disconnect. cbn.
    destruct (reconnectTimeoutRef h) as [t|] eqn:Ht; cbn.
    - destruct (wsRef (clearTimeout t h)) as [s|]; [|done]. cbn.
      by rewrite (proj1 (proj2 (Hclose s _))).
    - destruct (wsRef h) as [s|]; [|done]. cbn.
      by rewrite (proj1 (proj2 (Hclose s _))). }
  split_and!; try done.
  - unfold disconnect at 1. rewrite Hto, Hws.
    assert (isConnected (disconnect h) = false) as Hic by done.
    assert (connectionState (disconnect h) = disconnected) as Hcs by done.
    destruct (disconnect h). cbn in *. by subst.
  - intros t tm Ht Htm. unfold disconnect in Htm. cbn in Htm. rewrite Ht in Htm.
    cbn in Htm.
    assert (timers (clearTimeout t h) !! t = Some tm) as Htm'.
    { destruct (wsRef (clearTimeout t h)) as [s|]; [|done]. cbn in Htm.
      by rewrite (proj2 (proj2 (Hclose s _))) in Htm. }
    clear Htm. unfold clearTimeout in Htm'.
    destruct (timers h !! t) as [tm0|] eqn:Htm0; [|by rewrite Htm0 in Htm'].
    destruct (timer_state tm0) eqn:Hst; cbn in Htm'.
    + rewrite list_lookup_insert_eq in Htm' by (by eapply lookup_lt_Some).
      by injection Htm' as <-.
    + rewrite Htm0 in Htm'. injection Htm' as <-. by rewrite Hst.
    + rewrite Htm0 in Htm'. injection Htm' as <-. by rewrite Hst.
Qed.

Lemma onclose_retry h :
  reconnect options = true →
  (Z.of_nat (reconnectAttemptsRef h) < maxReconnectAttempts options)%Z →
  timers (onclose h) = timers h ++ [mkTimer (reconnectInterval options) Pending]
  ∧ reconnectTimeoutRef (onclose h) = Some (length (timers h))
  ∧ reconnectAttemptsRef (onclose h) = S (reconnectAttemptsRef h)
  ∧ wsRef (onclose h) = None
  ∧ sockets (onclose h) = sockets h
  ∧ clientIdRef (onclose h) = clientIdRef h.
Proof.
  intros Hrec Hlt. unfold Channel.onclose, notify.
  destruct (onClose options); cbn; rewrite Hrec; cbn.
  all: replace (Z.of_nat (reconnectAttemptsRef h) <? maxReconnectAttempts options)%Z
         with true by (symmetry; apply Z.ltb_lt; lia).
  all: cbn; rewrite Nat.add_1_r; done.
Qed.

Lemma connect_fresh h :
  enabled options = true →
  wsRef h = None →
  constructible (wsUrl h) = true →
  sockets (connect h) = sockets h ++ [mkWebSocket (wsUrl h) CONNECTING []]
  ∧ wsRef (connect h) = Some (length (sockets h))
  ∧ connectionState (connect h) = connecting.
Proof.
  intros Hen Href Hok. unfold Channel.connect, current_readyState.
  rewrite Hen, Href. cbn. unfold Channel.wsUrl in *. cbn. by rewrite Hok.
Qed.

Lemma disconnect_core h :
  clientIdRef (disconnect h) = clientIdRef h
  ∧ reconnectAttemptsRef (disconnect h) = reconnectAttemptsRef h
  ∧ length (timers (disconnect h)) = length (timers h)
  ∧ length (sockets (disconnect h)) = length (sockets h)
  ∧ ∀ s ws, wsRef h = Some s → sockets h !! s = Some ws → readyState ws ≠ CLOSED →
      sockets (disconnect h) !! s = Some (mkWebSocket (ws_url ws) CLOSING (sent ws)).
Proof.
  assert (∀ t h0, wsRef (clearTimeout t h0) = wsRef h0
                  ∧ sockets (clearTimeout t h0) = sockets h0
                  ∧ reconnectAttemptsRef (clearTimeout t h0) = reconnectAttemptsRef h0
                  ∧ clientIdRef (clearTimeout t h0) = clientIdRef h0
                  ∧ length (timers (clearTimeout t h0)) = length (timers h0)) as Hclear.
  { intros t h0. unfold clearTimeout.
    destruct (timers h0 !! t) as [tm|]; [|done].
    destruct (timer_state tm); cbn; split_and!; try done.
    by rewrite length_insert. }
  assert (∀ s h0, reconnectAttemptsRef (ws_close s h0) = reconnectAttemptsRef h0
                  ∧ clientIdRef (ws_close s h0) = clientIdRef h0
                  ∧ timers (ws_close s h0) = timers h0
                  ∧ length (sockets (ws_close s h0)) = length (sockets h0)
                  ∧ ∀ ws, sockets h0 !! s = Some ws → readyState ws ≠ CLOSED →
                      sockets (ws_close s h0) !! s
                      = Some (mkWebSocket (ws_url ws) CLOSING (sent ws))) as Hclose.
  { intros s h0. unfold ws_close, set_readyState.
    destruct (sockets h0 !! s) as [ws|] eqn:Hws; [|done].
    assert (s < length (sockets h0))%nat by (by eapply lookup_lt_Some).
    destruct ws as [u [] snt]; cbn; split_and!; rewrite ?length_insert; try done.
    all: intros ws' [= <-] Hne; cbn; try done.
    all: by rewrite list_lookup_insert_eq. }
  unfold disconnect.
  set (h1 := match reconnectTimeoutRef h with
             | Some t => set_reconnectTimeoutRef None (clearTimeout t h)
             | None => h
             end).
  assert (wsRef h1 = wsRef h ∧ sockets h1 = sockets h
          ∧ reconnectAttemptsRef h1 = reconnectAttemptsRef h
          ∧ clientIdRef h1 = clientIdRef h
          ∧ length (timers h1) = length (timers h)) as (H1 & H2 & H3 & H4 & H5).
  { unfold h1. destruct (reconnectTimeoutRef h) as [t|]; [|done].
    destruct (Hclear t h) as (? & ? & ? & ? & ?). cbn. split_and!; congruence. }
  cbn. destruct (wsRef h1) as [s|] eqn:Hs1; cbn.
  - destruct (Hclose s h1) as (E1 & E2 & E3 & E4 & E5).
    split_and!; try congruence.
    intros s' ws Href Hws Hne. rewrite <- H1 in Href. injection Href as <-.
    apply E5; [|done]. by rewrite H2.
  - split_and!; try congruence.
Qed.

(** X6. [disconnect] does not end the reconnect cycle: it closes the socket
    but leaves its [onclose] handler in place, so when the close event of
    that socket arrives, with [reconnect] on and the retry budget not used
    up, a reconnect is scheduled again, and when that timer fires the hook
    (if enabled) constructs a new socket although the caller had
    disconnected. *)
Theorem disconnect_then_close_reconnects h s ws :
  wsRef h = Some s →
  sockets h !! s = Some ws →
  readyState ws ≠ CLOSED →
  reconnect options = true →
  (Z.of_nat (reconnectAttemptsRef h) < maxReconnectAttempts options)%Z →
  ∃ h', step (SocketClosed s false) (disconnect h) = Some h'
    ∧ timers h' = timers (disconnect h) ++ [mkTimer (reconnectInterval options) Pending]
    ∧ reconnectTimeoutRef h' = Some (length (timers h))
    ∧ reconnectAttemptsRef h' = S (reconnectAttemptsRef h)
    ∧ (enabled options = true → constructible (wsUrl h) = true →
       ∃ h'', step (TimerFired (length (timers h))) h' = Some h''
         ∧ connectionState h'' = connecting
         ∧ wsRef h'' = Some (length (sockets h))
         ∧ sockets h'' = sockets h' ++ [mkWebSocket (wsUrl h) CONNECTING []]).
Proof.
  intros Href Hws Hst Hrec Hlt.
  destruct (disconnect_core h) as (Hc & Ha & Ht & Hl & Hs).
  specialize (Hs s ws Href Hws Hst).
  assert (s < length (sockets (disconnect h)))%nat as Hlt' by (by eapply lookup_lt_Some).
  set (h2 := set_readyState s CLOSED (disconnect h)).
  assert (timers h2 = timers (disconnect h)
          ∧ reconnectAttemptsRef h2 = reconnectAttemptsRef h
          ∧ clientIdRef h2 = clientIdRef h
          ∧ length (sockets h2) = length (sockets h)) as (Ht2 & Ha2 & Hc2 & Hl2).
  { unfold h2, set_readyState. rewrite Hs. cbn. by rewrite length_insert. }
  destruct (onclose_retry h2 Hrec) as (T & R & A & W & S' & C); [lia|].
  exists (onclose h2). split_and!.
  - unfold step, Channel.step. rewrite Hs. reflexivity.
  - by rewrite T, Ht2.
  - by rewrite R, Ht2, Ht.
  - by rewrite A, Ha2.
  - intros Hen Hok.
    set (h3 := set_timers (<[length (timers h) := mkTimer (reconnectInterval options) Fired]>
                             (timers (onclose h2))) (onclose h2)).
    exists (connect h3).
    assert (wsUrl h3 = wsUrl h) as Hurl.
    { unfold Channel.wsUrl. cbn. by rewrite C, Hc2. }
    split.
    { assert (timers (onclose h2) !! length (timers h)
              = Some (mkTimer (reconnectInterval options) Pending)) as Hlk.
      { rewrite T, Ht2, lookup_app_r by lia. by rewrite Ht, Nat.sub_diag. }
      unfold step, Channel.step. rewrite Hlk. reflexivity. }
    destruct (connect_fresh h3 Hen) as (K1 & K2 & K3); [done|by rewrite Hurl|].
    rewrite Hurl in K1. cbn in K1, K2. rewrite S' in K2. rewrite Hl2 in K2.
    split_and!; done.
Qed.

(** X7. When the caller supplied no observer, a run of message events on
    an open socket leaves [lastMessage] at the last payload that parsed
    (unchanged if none did), logs one line per payload that does not parse,
    calls no observer, and touches neither the sockets nor the timers nor
    the connection state. *)
Theorem messages_keep_last_parsed s datas : ∀ h,
  no_observers options →
  readyState <$> sockets h !! s = Some OPEN →
  ∃ h', run (SocketMessage s <$> datas) h = Some h'
    ∧ lastMessage h' = default (lastMessage h) (last (omap JSON_parse datas))
    ∧ length (console h')
      = (length (console h) + length (filter (λ d, JSON_parse d = None) datas))%nat
    ∧ notified h' = notified h
    ∧ sockets h' = sockets h
    ∧ timers h' = timers h
    ∧ connectionState h' = connectionState h
    ∧ isConnected h' = isConnected h.
Proof.
  induction datas as [|d datas IH]; intros h Hnone Hopen.
  - exists h. cbn. split_and!; done.
  - destruct Hnone as (HO & HC & HE & HM).
    assert (sockets (onmessage d h) = sockets h) as Hsock.
    { unfold onmessage, Channel.onmessage, notify.
      destruct (JSON_parse d); [|done]. by rewrite HM. }
    destruct (IH (onmessage d h)) as (h' & Hrun & Hl & Hc & Hn & Hs & Ht & Hcs & Hic).
    { done. }
    { by rewrite Hsock. }
    exists h'. split.
    { cbn [fmap list_fmap run Channel.run]. change (list_fmap _ _ (SocketMessage s) datas)
        with (SocketMessage s <$> datas).
      unfold step at 1. cbn -[run Channel.run]. rewrite Hopen. exact Hrun. }
    rewrite Hn, Hl, Hc, Hs, Ht, Hcs, Hic. rewrite filter_cons. cbn [omap list_omap].
    change (list_omap _ _ JSON_parse datas) with (omap JSON_parse datas).
    unfold onmessage, Channel.onmessage, notify. rewrite HM.
    destruct (JSON_parse d) as [m|] eqn:Hd.
    + rewrite decide_False by done.
      assert (default m (last (omap JSON_parse datas))
              = default (lastMessage h) (last (m :: omap JSON_parse datas))) as Hlast.
      { rewrite last_cons. by destruct (last (omap JSON_parse datas)). }
      cbn. split_and!; done.
    + rewrite decide_True by done. cbn. rewrite length_app. cbn.
      split_and!; try done. lia.
Qed.

(** X8. A hook that is not enabled never connects: in every state it can
    reach it has constructed no socket and created no timer, it is not
    connected, it has received no message, and [sendMessage] returns
    [false] without sending. *)
Theorem disabled_hook_never_connects clientId h m :
  enabled options = false →
  reachable clientId h →
  sockets h = [] ∧ timers h = [] ∧ wsRef h = None
  ∧ isConnected h = false ∧ lastMessage h = JsNull
  ∧ sendMessage m h = (Normal false, h).
Proof.
  intros Hoff Hreach.
  assert (sockets h = [] ∧ timers h = [] ∧ wsRef h = None
          ∧ isConnected h = false ∧ lastMessage h = JsNull) as Hinv.
  { induction Hreach as [|e h h' _ (Hs & Ht & Hw & Hc & Hl) Hstep].
    - unfold Channel.mount. by rewrite Hoff.
    - assert (connect h = h) as Hconn.
      { unfold Channel.connect. by rewrite Hoff. }
      assert (sendMessage m h = (Normal false, h)) as Hsend.
      { unfold sendMessage. by rewrite Hw. }
      destruct e as [s now|s payload|s failed|t|now| | |m'|now];
        unfold step, Channel.step in Hstep; rewrite ?Hs, ?Ht, ?Hc in Hstep;
        cbn in Hstep; try discriminate Hstep; injection Hstep as <-.
      + by rewrite Hconn.
      + unfold disconnect. destruct (reconnectTimeoutRef h) as [t|].
        * assert (clearTimeout t h = h) as ->.
          { unfold clearTimeout. by rewrite Ht, lookup_nil. }
          cbn. rewrite Hw. by cbn.
        * rewrite Hw. by cbn.
      + unfold sendMessage. by rewrite Hw.
      + unfold sendPing, sendMessage. by rewrite Hw. }
  destruct Hinv as (Hs & Ht & Hw & Hc & Hl). split_and!; try done.
  unfold sendMessage. by rewrite Hw.
Qed.

End ChannelShape.

Section ChannelShapeExamples.
Import Channel Handshake Scenarios ChannelScenarios.

Lemma exhausted_hook_reachable :
  reachable parse_null_only "http:" "localhost:3000" accept_all "/ws/connect"
    default_options "client-1" exhausted_hook.
Proof.
  apply reachable_run with (es := six_closed_unopened) (h := dashboard_mount).
  - apply reachable_mount.
  - vm_compute. reflexivity.
Qed.

Lemma duplicated_hook_reachable :
  reachable parse_null_only "http:" "localhost:3000" accept_all "/ws/connect"
    default_options "client-1" duplicated_hook.
Proof.
  apply reachable_run with (es := manual_connect_then_timer) (h := dashboard_mount).
  - apply reachable_mount.
  - vm_compute. reflexivity.
Qed.

Lemma fractional_exhausted_hook_reachable :
  reachable parse_null_only "http:" "localhost:3000" accept_all "/ws/connect"
    fractional_options "client-1" fractional_exhausted_hook.
Proof.
  apply reachable_run
    with (es := four_closed_unopened)
         (h := mount "http:" "localhost:3000" accept_all "/ws/connect" fractional_options
                 "client-1").
  - apply reachable_mount.
  - vm_compute. reflexivity.
Qed.

(** X1, on a channel with the ceiling of 2.5 after four connections in a
    row failed: the counter is 3, there are three timers, and one more
    close schedules nothing. *)
Lemma retry_budget_kept_witness :
  maxReconnectAttempts fractional_options = 3%Z
  ∧ reconnectAttemptsRef fractional_exhausted_hook = 3%nat
  ∧ QArith_base.Qlt (QArith_base.inject_Z (3 - 1)) two_and_a_half
  ∧ length (timers fractional_exhausted_hook) = 3%nat
  ∧ timers (onclose fractional_options fractional_exhausted_hook)
    = timers fractional_exhausted_hook.
Proof.
  split; [reflexivity|]. split; [reflexivity|].
  destruct (retry_budget_kept parse_null_only "http:" "localhost:3000" accept_all
              "/ws/connect" fractional_options two_and_a_half "client-1"
              fractional_exhausted_hook eq_refl fractional_exhausted_hook_reachable)
    as (_ & Hbelow & _ & Hfull).
  split.
  { destruct Hbelow as [Hzero|Hlt]; [discriminate Hzero|exact Hlt]. }
  split; [reflexivity|].
  apply Hfull. vm_compute. discriminate.
Defined.

(** X2, on the dashboard's channel after it gave up: its five reconnect
    timers all have the default delay of 3000 ms. *)
Lemma reconnect_interval_fixed_witness :
  length (timers exhausted_hook) = 5%nat
  ∧ Forall (λ tm, delay tm = 3000%Z) (timers exhausted_hook).
Proof.
  split; [reflexivity|].
  exact (reconnect_interval_fixed parse_null_only "http:" "localhost:3000" accept_all
           "/ws/connect" default_options "client-1" exhausted_hook
           exhausted_hook_reachable).
Defined.

(** X3, on the dashboard's channel after a manual connect and a late
    reconnect timer: the first and the last of its three sockets have the
    address of the dashboard's channel. *)
Lemma client_identity_stable_witness :
  length (sockets duplicated_hook) = 3%nat
  ∧ ws_url first_socket = "ws://localhost:3000/ws/connect?client_id=client-1"
  ∧ ws_url first_socket = ws_url last_socket.
Proof.
  split; [reflexivity|]. split; [reflexivity|].
  refine (proj2 (client_identity_stable parse_null_only "http:" "localhost:3000"
                   accept_all "/ws/connect" default_options "client-1" duplicated_hook
                   first_socket last_socket duplicated_hook_reachable _ _)).
  - apply (list_elem_of_lookup_2 _ 0%nat). vm_compute. reflexivity.
  - apply (list_elem_of_lookup_2 _ 2%nat). vm_compute. reflexivity.
Defined.

(** X4, on the dashboard's channel, which has no observer, once connected
    and pinged: the first of the two frames of its socket is the
    [connection_info] envelope. *)
Lemma connection_info_sent_first_witness :
  no_observers default_options
  ∧ length (sent pinged_socket) = 2%nat
  ∧ starts_with_connection_info "client-1" (sent pinged_socket).
Proof.
  assert (no_observers default_options) as Hnone by (repeat split).
  split; [exact Hnone|]. split; [reflexivity|].
  refine (proj2 (proj2 (connection_info_sent_first parse_null_only "http:"
                          "localhost:3000" accept_all "/ws/connect" default_options
                          "client-1" pinged_hook 0 pinged_socket Hnone _ _)) _).
  - apply reachable_step
      with (e := CallSendPing "2024-01-01T00:00:30.000Z") (h := connected_hook).
    + exact connected_hook_reachable.
    + reflexivity.
  - reflexivity.
  - reflexivity.
Defined.

(** X6, on the dashboard's channel once connected: after [disconnect], the
    close of socket 0 schedules timer 0, and when it fires socket 1 is
    constructed. *)
Lemma disconnect_then_close_reconnects_witness :
  ∃ h' h'',
    dashboard_step (SocketClosed 0 false) (disconnect connected_hook) = Some h'
    ∧ dashboard_step (TimerFired 0) h' = Some h''
    ∧ connectionState h'' = connecting
    ∧ wsRef h'' = Some 1%nat.
Proof.
  destruct (disconnect_then_close_reconnects parse_null_only "http:" "localhost:3000"
              accept_all "/ws/connect" default_options connected_hook 0
              (mkWebSocket "ws://localhost:3000/ws/connect?client_id=client-1" OPEN
                 [FrameJson (connection_info_json "client-1" "2024-01-01T00:00:00.000Z")]))
    as (h' & Hstep & _ & _ & _ & Hfire).
  - reflexivity.
  - reflexivity.
  - discriminate.
  - reflexivity.
  - vm_compute. reflexivity.
  - destruct Hfire as (h'' & Hstep' & Hcs & Href & _); [reflexivity|reflexivity|].
    exists h', h''. split_and!; assumption.
Defined.

(** X7, on the dashboard's channel, which has no observer, once
    connected: of three payloads the first and the last parse; one line is
    logged and the state of the connection is unchanged. *)
Lemma messages_keep_last_parsed_witness :
  no_observers default_options
  ∧ ∃ h', dashboard_run (SocketMessage 0 <$> ["null"; "{oops"; "null"]) connected_hook
          = Some h'
      ∧ lastMessage h' = JsNull
      ∧ length (console h') = 1%nat
      ∧ sockets h' = sockets connected_hook.
Proof.
  assert (no_observers default_options) as Hnone by (repeat split).
  split; [exact Hnone|].
  destruct (messages_keep_last_parsed parse_null_only "http:" "localhost:3000"
              accept_all "/ws/connect" default_options 0 ["null"; "{oops"; "null"]
              connected_hook Hnone eq_refl)
    as (h' & Hrun & Hlast & Hcon & _ & Hs & _).
  exists h'. split_and!; assumption.
Defined.

(** X8, on a hook mounted with [enabled: false], after the caller tried
    to connect and to send. *)
Lemma disabled_hook_never_connects_witness :
  sockets idle_hook = [] ∧ isConnected idle_hook = false.
Proof.
  destruct (disabled_hook_never_connects parse_null_only "http:" "localhost:3000" accept_all
              "/ws/connect" disabled_options "client-1" idle_hook (JStr "hello") eq_refl)
    as (Hs & _ & _ & Hc & _).
  - apply reachable_run with (es := [CallConnect; CallSendMessage (JStr "hello")])
                             (h := mount "http:" "localhost:3000" accept_all "/ws/connect"
                                     disabled_options "client-1").
    + apply reachable_mount.
    + vm_compute. reflexivity.
  - split; [exact Hs|exact Hc].
Defined.

End ChannelShapeExamples.

(** * Properties of the validators and formatters *)

Section TextFacts.
Import Text.

Local Abbreviation blank := (Forall (λ c, is_whitespace c = true)).

Lemma trimStart_blank ws s : blank ws → trimStart (ws ++ s) = trimStart s.
Proof. induction 1 as [|c ws Hc _ IH]; [done|]. cbn. by rewrite Hc. Qed.

Lemma trimStart_decompose s : ∃ ws, blank ws ∧ s = ws ++ trimStart s.
Proof.
  induction s as [|c s (ws & Hws & IH)]; [by exists []|]. cbn.
  destruct (is_whitespace c) eqn:Hc.
  - exists (c :: ws). split; [by constructor|]. cbn. by rewrite <- IH.
  - by exists [].
Qed.

Lemma trimStart_head s c s' : trimStart s = c :: s' → is_whitespace c = false.
Proof.
  induction s as [|d s IH]; [done|]. cbn.
  destruct (is_whitespace d) eqn:Hd; [done|]. by intros [= <- _].
Qed.

Lemma trimStart_fixed c s : is_whitespace c = false → trimStart (c :: s) = c :: s.
Proof. intros Hc. cbn. by rewrite Hc. Qed.

Lemma trimStart_nil s : trimStart s = [] ↔ blank s.
Proof.
  induction s as [|c s IH]; [done|]. cbn. destruct (is_whitespace c) eqn:Hc.
  - rewrite IH. split; [by constructor|by inversion 1].
  - split; [done|]. inversion 1; congruence.
Qed.

Lemma trimStart_app s t : trimStart s ≠ [] → trimStart (s ++ t) = trimStart s ++ t.
Proof.
  induction s as [|c s IH]; [done|]. cbn. by destruct (is_whitespace c).
Qed.

Lemma trimEnd_blank s ws : blank ws → trimEnd (s ++ ws) = trimEnd s.
Proof.
  intros Hws. unfold trimEnd. rewrite reverse_app, trimStart_blank; [done|].
  by apply Forall_reverse.
Qed.

Lemma trimEnd_snoc s c : is_whitespace c = false → trimEnd (s ++ [c]) = s ++ [c].
Proof.
  intros Hc. unfold trimEnd. rewrite reverse_app, reverse_singleton.
  change ([c] ++ reverse s) with (c :: reverse s).
  rewrite (trimStart_fixed c) by done.
  by rewrite reverse_cons, reverse_involutive.
Qed.

Lemma trimEnd_decompose s : ∃ ws, blank ws ∧ s = trimEnd s ++ ws.
Proof.
  destruct (trimStart_decompose (reverse s)) as (ws & Hws & Hs).
  exists (reverse ws). split; [by apply Forall_reverse|].
  unfold trimEnd. rewrite <- reverse_app, <- Hs. by rewrite reverse_involutive.
Qed.

Lemma trimEnd_nil s : trimEnd s = [] ↔ blank s.
Proof.
  unfold trimEnd. split.
  - intros H. apply (f_equal reverse) in H. rewrite reverse_involutive in H.
    apply trimStart_nil in H. apply Forall_reverse in H.
    by rewrite reverse_involutive in H.
  - intros H. apply Forall_reverse in H. apply trimStart_nil in H. by rewrite H.
Qed.

Lemma trimEnd_cons c s : is_whitespace c = false → trimEnd (c :: s) = c :: trimEnd s.
Proof.
  intros Hc. induction s as [|x s IH] using rev_ind.
  - exact (trimEnd_snoc [] c Hc).
  - destruct (is_whitespace x) eqn:Hx.
    + rewrite app_comm_cons, !trimEnd_blank by (by repeat constructor). exact IH.
    + by rewrite app_comm_cons, !trimEnd_snoc.
Qed.

Lemma trim_nil s : trim s = [] ↔ blank s.
Proof.
  unfold trim. rewrite trimEnd_nil. split.
  - intros H. destruct (trimStart_decompose s) as (ws & Hws & Hs).
    rewrite Hs. by apply Forall_app.
  - intros H. apply trimStart_nil in H. by rewrite H.
Qed.

Lemma trim_decompose s : ∃ ws1 ws2, blank ws1 ∧ blank ws2 ∧ s = ws1 ++ trim s ++ ws2.
Proof.
  destruct (trimStart_decompose s) as (ws1 & H1 & Hs).
  destruct (trimEnd_decompose (trimStart s)) as (ws2 & H2 & Ht).
  exists ws1, ws2. split_and!; [done|done|]. unfold trim. by rewrite <- Ht.
Qed.

Lemma trim_pad ws1 s ws2 : blank ws1 → blank ws2 → trim (ws1 ++ s ++ ws2) = trim s.
Proof.
  intros H1 H2. unfold trim. rewrite trimStart_blank by done.
  destruct (trimStart s) as [|c u] eqn:Hs.
  - assert (trimStart (s ++ ws2) = []) as ->; [|done].
    apply trimStart_nil, Forall_app. split; [by apply trimStart_nil|done].
  - rewrite trimStart_app by (by rewrite Hs). rewrite Hs. by apply trimEnd_blank.
Qed.

Lemma trim_idempotent s : trim (trim s) = trim s.
Proof.
  destruct (trim_decompose s) as (ws1 & ws2 & H1 & H2 & Hs).
  rewrite Hs at 2. by rewrite trim_pad.
Qed.

Lemma trim_length s : (length (trim s) ≤ length s)%nat.
Proof.
  destruct (trim_decompose s) as (ws1 & ws2 & _ & _ & Hs).
  rewrite Hs at 2. rewrite !length_app. lia.
Qed.

Lemma trim_elem c s : c ∈ trim s → c ∈ s.
Proof.
  destruct (trim_decompose s) as (ws1 & ws2 & _ & _ & Hs).
  intros Hc. rewrite Hs, !elem_of_app. auto.
Qed.

(** A string with no white space at either end is what [trim] returns for
    it. *)
Lemma trim_fixed c s :
  is_whitespace c = false → trimEnd (c :: s) = c :: s → trim (c :: s) = c :: s.
Proof. intros Hc He. unfold trim. by rewrite trimStart_fixed. Qed.

Lemma split_not_nil sep s : split sep s ≠ [].
Proof.
  induction s as [|c s IH]; [done|]. cbn. destruct (c =? sep)%N; [done|].
  by destruct (split sep s).
Qed.

Lemma split_no_sep sep s : sep ∉ s → split sep s = [s].
Proof.
  induction s as [|c s IH]; [done|]. intros [Hne Hs]%not_elem_of_cons. cbn.
  destruct (N.eqb_spec c sep) as [->|_]; [done|]. by rewrite IH.
Qed.

Lemma split_app sep a rest :
  sep ∉ a → split sep (a ++ sep :: rest) = a :: split sep rest.
Proof.
  induction a as [|c a IH]; cbn.
  - intros _. by rewrite N.eqb_refl.
  - intros [Hne Ha]%not_elem_of_cons.
    destruct (N.eqb_spec c sep) as [->|_]; [done|]. by rewrite IH.
Qed.

Lemma split_pieces sep s : Forall (λ piece, sep ∉ piece) (split sep s).
Proof.
  induction s as [|c s IH]; cbn.
  - repeat constructor. apply not_elem_of_nil.
  - destruct (N.eqb_spec c sep) as [->|Hne].
    + constructor; [apply not_elem_of_nil|done].
    + destruct (split sep s) as [|piece pieces].
      * repeat constructor. apply not_elem_of_cons. split; [done|apply not_elem_of_nil].
      * inversion IH; subst. constructor; [|done]. by apply not_elem_of_cons.
Qed.

End TextFacts.

Section ValidatorFacts.
Import Text Constants Validators Formatters.

Local Abbreviation blank := (Forall (λ c, is_whitespace c = true)).

Lemma result_consistent errs : consistent (result errs).
Proof. unfold consistent, result. cbn. by destruct errs. Qed.

Lemma result_valid errs : isValid (result errs) = true ↔ errs = [].
Proof. apply result_consistent. Qed.

Lemma push_if_nil condition message errs :
  push_if condition message errs = [] ↔ condition = false ∧ errs = [].
Proof.
  unfold push_if. destruct condition.
  - split; [|by intros [? _]]. by destruct errs.
  - tauto.
Qed.

Lemma required_guard s :
  negb (truthy_string s) || (length (trim s) =? 0)%nat = (length (trim s) =? 0)%nat.
Proof. by destruct s. Qed.

Lemma required_guard_trim s :
  negb (truthy_string (trim s)) || (length (trim (trim s)) =? 0)%nat
  = (length (trim s) =? 0)%nat.
Proof. by rewrite required_guard, trim_idempotent. Qed.

(** X9. The branches that report a name or a query shorter than one
    character are dead: [validateAssistantName] and [validateSearchQuery]
    never produce the [must be at least 1 character] message, because a
    text that is empty after trimming is reported as required first. *)
Theorem min_length_errors_unreachable s :
  ("Assistant name must be at least 1 character" ∉ errors (validateAssistantName s))
  ∧ ("Search query must be at least 1 character" ∉ errors (validateSearchQuery s)).
Proof.
  assert ((length (trim s) =? 0)%nat = false →
          (Z.of_nat (length (trim s)) <? 1)%Z = false) as Hmin.
  { intros H%Nat.eqb_neq. apply Z.ltb_ge. lia. }
  split.
  - unfold validateAssistantName. cbn [errors result]. rewrite required_guard.
    destruct (length (trim s) =? 0)%nat eqn:Hlen.
    + intros Hin%list_elem_of_singleton. discriminate Hin.
    + cbn zeta. unfold VALIDATION.ASSISTANT_NAME_MIN. rewrite (Hmin eq_refl). clear Hmin.
      unfold push_if.
      destruct (_ <? _)%Z, (negb (test_name_chars _)), (negb (test_starts_with_letter _)).
      all: intros Hin.
      all: repeat (apply elem_of_app in Hin as [Hin|Hin]).
      all: repeat (apply elem_of_cons in Hin as [Hin|Hin]).
      all: try (by apply elem_of_nil in Hin).
      all: vm_compute in Hin; discriminate Hin.
  - unfold validateSearchQuery. cbn [errors result]. rewrite required_guard.
    destruct (length (trim s) =? 0)%nat eqn:Hlen.
    + intros Hin%list_elem_of_singleton. discriminate Hin.
    + cbn zeta. unfold VALIDATION.SEARCH_QUERY_MIN. rewrite (Hmin eq_refl). clear Hmin.
      destruct (_ <? _)%Z.
      all: intros Hin.
      all: repeat (apply elem_of_cons in Hin as [Hin|Hin]).
      all: try (by apply elem_of_nil in Hin).
      all: vm_compute in Hin; discriminate Hin.
Qed.

(** X10. [validateAssistantName] judges the trimmed name only: it returns
    for a name what it returns for the trimmed name, so white space around
    a name never changes the verdict or the messages; and a name is
    accepted exactly when, once trimmed, it has at most 50 code units,
    starts with a letter and contains only letters, digits, white space,
    hyphens and underscores. *)
Theorem validateAssistantName_judges_trimmed name :
  validateAssistantName name = validateAssistantName (trim name)
  ∧ (isValid (validateAssistantName name) = true ↔
     (length (trim name) ≤ 50)%nat
     ∧ test_starts_with_letter (trim name) = true
     ∧ forallb is_name_char (trim name) = true)
  ∧ (∀ ws1 ws2, blank ws1 → blank ws2 →
       validateAssistantName (ws1 ++ name ++ ws2) = validateAssistantName name).
Proof.
  assert (∀ s, validateAssistantName s = validateAssistantName (trim s)) as Htrim.
  { intros s. unfold validateAssistantName.
    by rewrite required_guard, required_guard_trim, trim_idempotent. }
  split_and!.
  - apply Htrim.
  - unfold validateAssistantName. rewrite result_valid, required_guard.
    destruct (trim name) as [|c t] eqn:Ht.
    { cbn. split; [done|]. by intros (_ & ? & _). }
    cbn [length Nat.eqb]. cbn zeta. rewrite !push_if_nil.
    unfold VALIDATION.ASSISTANT_NAME_MIN, VALIDATION.ASSISTANT_NAME_MAX.
    replace (Z.of_nat (S (length t)) <? 1)%Z with false by (symmetry; apply Z.ltb_ge; lia).
    rewrite !negb_false_iff. unfold test_name_chars.
    destruct (Z.ltb_spec 50 (Z.of_nat (S (length t)))) as [Hlong|Hshort].
    + split; [by intros (_ & _ & ?)|]. intros (Hle & _). lia.
    + split.
      * intros (? & ? & _). split_and!; [lia|done|done].
      * intros (_ & ? & ?). done.
  - intros ws1 ws2 H1 H2. by rewrite Htrim, trim_pad, <- Htrim.
Qed.

Lemma check_tag_app errs tag : ∃ more, check_tag errs tag = errs ++ more
  ∧ (more = [] ↔ (length tag ≤ 50)%nat ∧ test_name_chars tag = true).
Proof.
  unfold check_tag, push_if.
  destruct (Nat.ltb_spec 50 (length tag)) as [Hlong|Hshort];
    destruct (test_name_chars tag); cbn.
  - exists ["Individual tags cannot exceed 50 characters"]. split; [done|].
    split; [done|]. intros [? _]. lia.
  - eexists [_; _]. split; [by rewrite <- app_assoc|]. split; [done|]. by intros [_ ?].
  - exists []. split; [by rewrite app_nil_r|]. done.
  - eexists [_]. split; [done|]. split; [done|]. by intros [_ ?].
Qed.

Lemma foldl_check_tag_nil tagList : ∀ errs,
  foldl check_tag errs tagList = [] ↔
  errs = [] ∧ Forall (λ tag, (length tag ≤ 50)%nat ∧ test_name_chars tag = true) tagList.
Proof.
  induction tagList as [|tag tagList IH]; intros errs; cbn.
  - split; [by intros ->|by intros [-> _]].
  - rewrite IH. destruct (check_tag_app errs tag) as (more & -> & Hmore). split.
    + intros [[-> ->]%app_nil Hall]. split; [done|]. constructor; [|done].
      by apply Hmore.
    + intros [-> Hall]. inversion Hall as [|? ? Htag Hrest]; subst.
      split; [|done]. apply Hmore in Htag. by rewrite Htag.
Qed.

(** X11. [validateTags] accepts a tags string exactly when the string has
    at most 500 code units and the tags [parseTags] reads from it are at
    most 20, each of at most 50 code units and made of letters, digits,
    white space, hyphens and underscores only. *)
Theorem validateTags_accepts_parsed tags :
  isValid (validateTags tags) = true ↔
  (length tags ≤ 500)%nat
  ∧ (length (parseTags tags) ≤ 20)%nat
  ∧ Forall (λ tag, (length tag ≤ 50)%nat ∧ forallb is_name_char tag = true)
      (parseTags tags).
Proof.
  unfold validateTags, parseTags. rewrite result_valid.
  destruct tags as [|c tags]; [cbn; split; [intros _; split_and!; [lia|lia|done]|done]|].
  cbn [truthy_string negb andb]. cbn zeta.
  set (tagList := filter _ _).
  rewrite foldl_check_tag_nil, !push_if_nil.
  unfold VALIDATION.MEMORY_TAGS_MAX.
  assert (Forall (λ tag, (length tag ≤ 50)%nat ∧ test_name_chars tag = true) tagList
          ↔ Forall (λ tag, (length tag ≤ 50)%nat ∧ forallb is_name_char tag = true) tagList)
    as ->.
  { rewrite !Forall_forall. split; intros H tag Hin; specialize (H tag Hin).
    - destruct H as [? H]. split; [done|]. by destruct tag.
    - destruct H as [? H]. split; [done|].
      apply list_elem_of_filter in Hin as [Hlen _]. by destruct tag; [cbn in Hlen; lia|]. }
  rewrite Nat.ltb_ge, Z.ltb_ge. split.
  - intros ((? & ? & _) & ?). split_and!; [lia|done|done].
  - intros (? & ? & ?). split_and!; [done|lia|done|done].
Qed.

(** X12. Combining results that the validators produced (results whose
    flag agrees with their error list) gives a valid result exactly when
    every one of them is valid. *)
Theorem combine_valid_iff results :
  Forall consistent results →
  (isValid (combineValidationResults results) = true
   ↔ Forall (λ r, isValid r = true) results).
Proof.
  intros Hcons. unfold combineValidationResults. rewrite result_valid.
  induction Hcons as [|r results Hr _ IH]; cbn.
  - done.
  - unfold consistent in Hr. rewrite app_nil, IH, <- Hr. split.
    + intros [? ?]. by constructor.
    + by inversion 1.
Qed.

(** X13. [formatImportance] and [IMPORTANCE_LEVELS] agree: for an integer
    importance the formatter returns the label the constants give to the
    importance clamped to 1..10, never ['Unknown']; in particular, for an
    importance that [validateImportance] accepts, the label of that very
    level. *)
Theorem formatImportance_matches_levels importance :
  Some (formatImportance importance)
  = IMPORTANCE_LEVELS_label (Z.max 1 (Z.min 10 importance))
  ∧ formatImportance importance ≠ "Unknown"
  ∧ (isValid (validateImportance (Integer importance)) = true →
     IMPORTANCE_LEVELS_label importance = Some (formatImportance importance)).
Proof.
  assert (importance ≤ 1 ∨ importance = 2 ∨ importance = 3 ∨ importance = 4
          ∨ importance = 5 ∨ importance = 6 ∨ importance = 7 ∨ importance = 8
          ∨ importance = 9 ∨ 10 ≤ importance)%Z as Hcases by lia.
  assert (Some (formatImportance importance)
          = IMPORTANCE_LEVELS_label (Z.max 1 (Z.min 10 importance))) as Hclamp.
  { unfold formatImportance.
    destruct Hcases as [H|[H|[H|[H|[H|[H|[H|[H|[H|H]]]]]]]]]; try (subst; reflexivity).
    - replace (Z.max 0 (Z.min 9 (importance - 1))) with 0%Z by lia.
      by replace (Z.max 1 (Z.min 10 importance)) with 1%Z by lia.
    - replace (Z.max 0 (Z.min 9 (importance - 1))) with 9%Z by lia.
      by replace (Z.max 1 (Z.min 10 importance)) with 10%Z by lia. }
  split_and!.
  - exact Hclamp.
  - intros Heq. rewrite Heq in Hclamp.
    destruct Hcases as [H|[H|[H|[H|[H|[H|[H|[H|[H|H]]]]]]]]]; try (subst; discriminate).
    + by replace (Z.max 1 (Z.min 10 importance)) with 1%Z in Hclamp by lia.
    + by replace (Z.max 1 (Z.min 10 importance)) with 10%Z in Hclamp by lia.
  - unfold validateImportance. rewrite result_valid.
    destruct (Z.ltb_spec importance 1), (Z.ltb_spec 10 importance); cbn; try done.
    intros _. rewrite Hclamp. f_equal. lia.
Qed.

(** X14. Every tag [parseTags] returns is clean: not empty, without a
    comma, and with no white space at either end. *)
Theorem parseTags_clean tagsString : Forall clean_tag (parseTags tagsString).
Proof.
  unfold parseTags. destruct (negb _); [done|].
  apply Forall_forall. intros tag [Hlen Hin]%list_elem_of_filter.
  apply list_elem_of_fmap in Hin as (piece & -> & Hpiece).
  split_and!.
  - intros Hnil. rewrite Hnil in Hlen. cbn in Hlen. lia.
  - intros Hc%trim_elem. revert Hc.
    pose proof (split_pieces comma tagsString) as Hall. rewrite Forall_forall in Hall.
    by apply Hall.
  - apply trim_idempotent.
Qed.

Lemma split_join pre tags :
  (comma ∉ pre) → Forall (λ tag, comma ∉ tag) tags →
  split comma (pre ++ join (lit ", ") tags)
  = match tags with
    | [] => [pre]
    | tag :: tags' => (pre ++ tag) :: ((λ t, 32%N :: t) <$> tags')
    end.
Proof.
  intros Hpre Htags. revert pre Hpre.
  induction Htags as [|tag tags Htag Htags IH]; intros pre Hpre.
  - cbn. rewrite app_nil_r. by apply split_no_sep.
  - destruct tags as [|tag' tags'].
    + cbn. apply split_no_sep. rewrite elem_of_app. tauto.
    + change (join (lit ", ") (tag :: tag' :: tags'))
        with (tag ++ comma :: ([32%N] ++ join (lit ", ") (tag' :: tags'))).
      rewrite app_assoc, split_app by (rewrite elem_of_app; tauto).
      rewrite IH; [done|].
      intros [Heq|Hin]%elem_of_cons; [done|by apply elem_of_nil in Hin].
Qed.

(** X15. [parseTags] undoes [formatTags]: an array of clean tags (not
    empty, without commas, with no white space at either end), formatted
    to a string and parsed again, is the same array. *)
Theorem parseTags_formatTags tags :
  Forall clean_tag tags → parseTags (formatTags (TagsArray tags)) = tags.
Proof.
  intros Hclean. unfold formatTags, parseTags.
  destruct Hclean as [|tag tags (Hne & Hcomma & Htrim) Hrest]; [done|].
  assert (truthy_string (join (lit ", ") (tag :: tags)) = true) as ->.
  { destruct tags; cbn; by destruct tag. }
  cbn [negb].
  rewrite <- (app_nil_l (join _ _)), split_join.
  - rewrite app_nil_l, fmap_cons, Htrim, filter_cons_True by (destruct tag; cbn; [done|lia]).
    f_equal. induction Hrest as [|tag' tags' (Hne' & Hcomma' & Htrim') Hrest' IH]; [done|].
    rewrite !fmap_cons.
    assert (trim (32%N :: tag') = tag') as ->.
    { pose proof (trim_pad [32%N] tag' []) as Hpad. rewrite app_nil_r in Hpad.
      rewrite <- Htrim' at 2. apply Hpad; by repeat constructor. }
    rewrite filter_cons_True by (destruct tag'; cbn; [done|lia]).
    by rewrite IH.
  - apply not_elem_of_nil.
  - constructor; [done|]. eapply Forall_impl; [exact Hrest|]. by intros ? (_ & ? & _).
Qed.

(** X16. [truncateText] with a maximum that is not negative returns a text
    that fits unchanged, and otherwise a text of at most [maxLength + 3]
    code units: the first [maxLength] code units of the text without the
    white space at their ends, followed by three dots. *)
Theorem truncateText_bound text maxLength :
  (0 ≤ maxLength)%Z →
  (Z.of_nat (length (truncateText text maxLength)) ≤ maxLength + 3)%Z
  ∧ ((Z.of_nat (length text) ≤ maxLength)%Z → truncateText text maxLength = text)
  ∧ ((maxLength < Z.of_nat (length text))%Z →
     ∃ kept ws1 ws2,
       truncateText text maxLength = kept ++ lit "..."
       ∧ trim kept = kept
       ∧ blank ws1 ∧ blank ws2
       ∧ take (Z.to_nat maxLength) text = ws1 ++ kept ++ ws2).
Proof.
  intros Hpos. unfold truncateText.
  destruct (Z.leb_spec (Z.of_nat (length text)) maxLength) as [Hfit|Hlong].
  - split_and!; [lia|done|lia].
  - assert (slice_to maxLength text = take (Z.to_nat maxLength) text) as Hslice.
    { unfold slice_to. replace (maxLength <? 0)%Z with false by (symmetry; apply Z.ltb_ge; lia).
      f_equal. lia. }
    rewrite Hslice. split_and!.
    + rewrite length_app. pose proof (trim_length (take (Z.to_nat maxLength) text)) as Hlen.
      rewrite length_take in Hlen. cbn. lia.
    + lia.
    + intros _. destruct (trim_decompose (take (Z.to_nat maxLength) text))
        as (ws1 & ws2 & H1 & H2 & Hs).
      exists (trim (take (Z.to_nat maxLength) text)), ws1, ws2.
      split_and!; [done|apply trim_idempotent|done|done|done].
Qed.

End ValidatorFacts.

Section ValidatorExamples.
Import Text Constants Validators Formatters FormScenarios.

(** X12, on the three results of a filled-in memory form. *)
Lemma combine_valid_iff_witness :
  Forall consistent form_results
  ∧ isValid (combineValidationResults form_results) = true.
Proof.
  assert (Forall consistent form_results) as Hcons.
  { repeat constructor; vm_compute; intros _; reflexivity. }
  split; [exact Hcons|].
  apply (combine_valid_iff form_results Hcons).
  repeat constructor.
Defined.

(** X15, on the tags [home] and [to do]. *)
Lemma parseTags_formatTags_witness :
  formatTags (TagsArray form_tags) = lit "home, to do"
  ∧ parseTags (formatTags (TagsArray form_tags)) = form_tags.
Proof.
  split; [reflexivity|].
  apply (parseTags_formatTags form_tags).
  repeat constructor; try discriminate; try reflexivity.
  all: apply (bool_decide_unpack _); vm_compute; exact I.
Defined.

(** X16, on a headline of 11 code units cut at 6: the space before the cut
    is dropped. *)
Lemma truncateText_bound_witness :
  truncateText headline 6 = lit "hello..."
  ∧ (Z.of_nat (length (truncateText headline 6)) ≤ 6 + 3)%Z.
Proof.
  split; [reflexivity|].
  apply (truncateText_bound headline 6). lia.
Defined.

End ValidatorExamples.

(** * Properties of the search state *)

Section SearchFacts.
Import Text Search.

Lemma remove_dups_snoc (qs : list JSString) x :
  remove_dups (qs ++ [x]) = filter (λ q, q ≠ x) (remove_dups qs) ++ [x].
Proof.
  induction qs as [|q qs IH]; [done|]. cbn [app remove_dups].
  destruct (decide_rel (∈) q (qs ++ [x])) as [Hin|Hnin];
    destruct (decide_rel (∈) q qs) as [Hin'|Hnin'].
  - exact IH.
  - apply elem_of_app in Hin as [?|Hx]; [done|].
    apply list_elem_of_singleton in Hx as ->.
    by rewrite filter_cons_False by (by intros ?).
  - exfalso. apply Hnin, elem_of_app. by left.
  - rewrite filter_cons_True, IH; [done|].
    intros ->. apply Hnin, elem_of_app. right. by constructor.
Qed.

Lemma filter_query_fmap x (l : list SearchRequest) :
  query <$> filter (λ item, query item ≠ x) l = filter (λ q, q ≠ x) (query <$> l).
Proof.
  induction l as [|item l IH]; [done|]. rewrite fmap_cons.
  destruct (decide (query item = x)) as [Heq|Hne].
  - by rewrite !filter_cons_False by (by intros ?).
  - by rewrite !filter_cons_True, fmap_cons, IH.
Qed.

Lemma filter_ne_length (x : JSString) l :
  NoDup l → (length l ≤ S (length (filter (λ q, q ≠ x) l)))%nat.
Proof.
  induction 1 as [|q l Hq Hl IH]; [cbn; lia|].
  destruct (decide (q = x)) as [->|Hne].
  - rewrite filter_cons_False by (by intros ?).
    assert (filter (λ q, q ≠ x) l = l) as ->; [|done].
    clear IH Hl. induction l as [|y l IH]; [done|].
    apply not_elem_of_cons in Hq as [Hy Hq].
    rewrite filter_cons_True by done. by rewrite IH.
  - rewrite filter_cons_True by done. cbn. lia.
Qed.

Lemma NoDup_take_prefix (n : nat) (l : list JSString) : NoDup l → NoDup (take n l).
Proof. intros Hl. eapply sublist_NoDup; [exact Hl|apply sublist_take]. Qed.

Lemma NoDup_reversed (l : list JSString) : NoDup l → NoDup (reverse l).
Proof. by rewrite reverse_Permutation. Qed.

Lemma take_filter_take (x : JSString) l :
  NoDup l →
  take 9 (filter (λ q, q ≠ x) (take 10 l)) = take 9 (filter (λ q, q ≠ x) l).
Proof.
  intros Hl. destruct (decide (length l ≤ 10)%nat) as [Hshort|Hlong].
  - by rewrite (take_ge l 10).
  - rewrite <- (take_drop 10 l) at 2. rewrite filter_app, take_app_le; [done|].
    pose proof (filter_ne_length x (take 10 l)) as Hlen.
    rewrite length_take in Hlen. specialize (Hlen (NoDup_take_prefix _ _ Hl)). lia.
Qed.

Lemma run_snoc actions a s : run (actions ++ [a]) s = act a (run actions s).
Proof. unfold run. by rewrite foldl_app. Qed.

(** X17. The search history is the ten most recent distinct queries, most
    recent first: after any sequence of uses of the hook, the queries of
    the history are the executed queries with repetitions removed, from
    the latest back, cut at ten; so the history never holds more than ten
    requests or one query twice. A query is handed to the save mutation
    exactly when it was executed with more than two code units. *)
Theorem history_keeps_recent_distinct initialRequest actions :
  let s := run actions (useAdvancedSearch initialRequest) in
  query <$> searchHistory s = take 10 (reverse (remove_dups (executed s)))
  ∧ (length (searchHistory s) ≤ 10)%nat
  ∧ NoDup (query <$> searchHistory s)
  ∧ saved s = filter (λ q, (2 < length q)%nat) (executed s).
Proof.
  cbn zeta.
  assert (query <$> searchHistory (run actions (useAdvancedSearch initialRequest))
          = take 10 (reverse (remove_dups
                                (executed (run actions (useAdvancedSearch initialRequest)))))
          ∧ saved (run actions (useAdvancedSearch initialRequest))
            = filter (λ q, (2 < length q)%nat)
                (executed (run actions (useAdvancedSearch initialRequest)))) as [Hh Hs].
  { induction actions as [|a actions [IH1 IH2]] using rev_ind; [done|].
    rewrite run_snoc. set (s := run actions (useAdvancedSearch initialRequest)) in *.
    destruct a; [done| |done|done].
    unfold act, executeSearch, executed. cbn [searchHistory saved invalidated].
    set (final := spread (searchRequest s) request).
    rewrite fmap_app. change (query <$> [final]) with [query final].
    fold (executed s). split.
    - rewrite remove_dups_snoc, reverse_app, reverse_singleton. cbn [app take].
      rewrite fmap_cons, fmap_take, filter_query_fmap, IH1. f_equal.
      rewrite <- filter_reverse.
      apply take_filter_take, NoDup_reversed, NoDup_remove_dups.
    - rewrite filter_app, <- IH2. cbn [filter list_filter].
      destruct (Nat.ltb_spec 2 (length (query final))) as [Hlong|Hshort].
      + by rewrite decide_True.
      + rewrite decide_False by lia. by rewrite app_nil_r. }
  split_and!; [done| | |done].
  - rewrite <- (length_fmap query), Hh, length_take. lia.
  - rewrite Hh. apply NoDup_take_prefix, NoDup_reversed, NoDup_remove_dups.
Qed.

End SearchFacts.

(** * Properties of the API client's error handling *)

Section ApiFacts.
Import Service MemoryHooks Api Failure.

Lemma or_else_not_empty value fallback : fallback ≠ "" → or_else value fallback ≠ "".
Proof.
  intros Hf. unfold or_else. destruct value as [text|]; [|done].
  destruct (String.eqb_spec text ""); done.
Qed.

(** X18. The interceptor shows exactly one toast for a failed request,
    whatever the failure, except for a 422 response whose body lists its
    validation errors: then it shows one toast per listed error, and
    nothing at all when the list is empty. No toast has an empty text. *)
Theorem interceptor_toasts e :
  length (on_rejected e)
  = match listed_errors e with
    | Some items => length items
    | None => 1%nat
    end
  ∧ Forall (λ text, text ≠ "") (on_rejected e)
  ∧ (on_rejected e = [] ↔ listed_errors e = Some []).
Proof.
  assert (∀ text, text ≠ "" →
            length [text] = 1%nat
            ∧ Forall (λ text, text ≠ "") [text]
            ∧ ([text] = [] ↔ None = Some ([] : list ValidationError))) as Hone.
  { intros text Htext. split; [done|]. split; [constructor; [done|constructor]|done]. }
  unfold on_rejected, listed_errors.
  destruct (response e) as [r|]; [|by destruct (request e); apply Hone].
  destruct (Z.eqb_spec (status r) 422) as [H422|Hne].
  - rewrite H422. cbn. destruct (data r ≫= details) as [items|].
    + split_and!.
      * by rewrite length_fmap.
      * apply Forall_fmap, Forall_forall. intros item _. cbn. by destruct (field item).
      * split; [by destruct items|by intros [= ->]].
    + apply Hone. by apply or_else_not_empty.
  - repeat (destruct (_ =? _)%Z;
            [apply Hone; by (done || apply or_else_not_empty)|]).
    apply Hone. by apply or_else_not_empty.
Qed.

Lemma intercept_spec e a :
  client (intercept e a) = client a
  ∧ toasts (intercept e a) = toasts a ++ (toast_error <$> on_rejected e).
Proof.
  unfold intercept. generalize (on_rejected e) as texts. intros texts. revert a.
  induction texts as [|text texts IH]; intros a; cbn.
  - by rewrite app_nil_r.
  - destruct (IH (toast (toast_error text) a)) as [-> ->]. cbn.
    by rewrite <- app_assoc.
Qed.

(** X19. A mutation whose request fails is reported twice: the toasts of
    the interceptor come first, then the toast of the hook's [onError] with
    the message of the same error (none for the recording of an access),
    and the cache entries are untouched. *)
Theorem failed_mutation_reported_twice m e a :
  first_attempt m = Some (rejection e) →
  fst (failed_mutate m e a) = Some (rejection e)
  ∧ toasts (snd (failed_mutate m e a))
    = toasts a ++ (toast_error <$> on_rejected e) ++ error_toasts m (rejection e)
  ∧ Cache.queries (client (snd (failed_mutate m e a))) = Cache.queries (client a).
Proof.
  intros Hfirst. unfold failed_mutate.
  destruct (intercept_spec e a) as [Hc Ht].
  set (a1 := intercept e a) in *.
  destruct m as [request remote|i request now remote|i remote|i remote|ids remote];
    cbn in Hfirst; destruct (remote 0%nat) as [r|e'] eqn:Hr; try discriminate Hfirst;
    injection Hfirst as ->; cbn.
  - unfold useCreateMemory. rewrite (useMutation_rejected _ _ _ _ _ _ _ Hr). cbn.
    by rewrite Ht, Hc, <- app_assoc.
  - unfold useUpdateMemory. rewrite (useMutation_rejected _ _ _ _ _ _ _ Hr). cbn.
    by rewrite Ht, Hc, <- app_assoc.
  - unfold useDeleteMemory. rewrite (useMutation_rejected _ _ _ _ _ _ _ Hr). cbn.
    by rewrite Ht, Hc, <- app_assoc.
  - unfold useRecordAccess. rewrite (useMutation_rejected _ _ _ _ _ _ _ Hr). cbn.
    by rewrite Ht, Hc, app_nil_r.
  - unfold useBulkDeleteMemories. rewrite (useMutation_rejected _ _ _ _ _ _ _ Hr). cbn.
    by rewrite Ht, Hc, <- app_assoc.
Qed.

End ApiFacts.

Section ApiExamples.
Import Service MemoryHooks Api Failure Scenarios FailureScenarios.

(** X19, on a creation the server refuses with status 400: the user sees
    the detail of the response and then the message of the error. *)
Lemma failed_mutation_reported_twice_witness :
  toasts (snd (failed_mutate refused_create refused warm_app))
  = [toast_error "Content is too short";
     toast_error "Request failed with status code 400"].
Proof.
  exact (proj1 (proj2 (failed_mutation_reported_twice refused_create refused warm_app
                         eq_refl))).
Defined.

End ApiExamples.

(** * Properties of the mutations that succeed *)

Section HookFacts.
Import Types Service Cache MemoryHooks.

Lemma setQueryData_find k d now c :
  (∃ q, find_query k (queries (setQueryData k d now c)) = Some q
     ∧ data q = Some d ∧ isInvalidated q = false ∧ dataUpdatedAt q = Some now)
  ∧ (∀ k', k' ≠ k →
       find_query k' (queries (setQueryData k d now c)) = find_query k' (queries c)).
Proof.
  unfold setQueryData, build.
  destruct (find_query k (queries c)) as [q0|] eqn:Hk; cbn.
  - split.
    + rewrite !find_update_eq by done. rewrite Hk. cbn. by eexists.
    + intros k' Hne. by rewrite !find_update_ne by done.
  - split.
    + rewrite find_update_eq by done. rewrite find_app, Hk. cbn.
      rewrite decide_True by done. cbn. by eexists.
    + intros k' Hne. rewrite find_update_ne by done. rewrite find_app.
      destruct (find_query k' (queries c)); [done|]. cbn.
      by rewrite decide_False by done.
Qed.

Lemma invalidate_unmatched arg c k :
  matchKey (parseFilterArgs arg) k = false →
  find_query k (queries (invalidateQueries arg c)) = find_query k (queries c).
Proof.
  intros Hm. pose proof (invalidateQueries_find arg c k) as H.
  destruct (find_query k (queries c)) as [q|]; [|done].
  destruct H as (q' & Hq' & _ & _ & Hrel). rewrite Hm in Hrel. by subst.
Qed.

Lemma invalidate_matched arg c k q :
  find_query k (queries c) = Some q →
  ∃ q', find_query k (queries (invalidateQueries arg c)) = Some q'
    ∧ data q' = data q
    ∧ (isInvalidated q = true ∨ matchKey (parseFilterArgs arg) k = true →
       isInvalidated q' = true).
Proof.
  intros Hq. pose proof (invalidateQueries_find arg c k) as H. rewrite Hq in H.
  destruct H as (q' & Hq' & Hd & Hkeep & Hrel). exists q'. split_and!; [done|done|].
  intros [Hi|Hm]; [by apply Hkeep|]. by rewrite Hm in Hrel.
Qed.

(** X20. A successful update seeds the detail entry of the memory the
    server returned with that record, fresh and not invalidated, and
    invalidates every memory list while keeping its data; a component that
    opens the detail of that memory before the stale time has passed sends
    no request. *)
Theorem update_seeds_detail i request now remote updatedMemory a :
  remote 0%nat = Resolved updatedMemory →
  let a' := snd (useUpdateMemory (i, request) now remote a) in
  (∃ q, find_query (MEMORY_KEYS.detail (id updatedMemory)) (queries (client a')) = Some q
     ∧ data q = Some (DataMemory updatedMemory)
     ∧ isInvalidated q = false
     ∧ dataUpdatedAt q = Some now)
  ∧ (∀ filters q0,
       find_query (MEMORY_KEYS.list filters) (queries (client a)) = Some q0 →
       ∃ q', find_query (MEMORY_KEYS.list filters) (queries (client a')) = Some q'
         ∧ data q' = data q0
         ∧ isInvalidated q' = true)
  ∧ (∀ now' options, (now' < now + staleTime)%Z →
       requests (mount (useMemory (id updatedMemory) options) now' (client a'))
       = requests (client a')).
Proof.
  intros Hr. cbn zeta. unfold useUpdateMemory.
  rewrite (useMutation_resolved _ _ _ _ _ _ _ Hr).
  unfold with_client, toast. cbn [snd client toasts].
  set (c0 := mkClient _ _ _).
  set (kd := MEMORY_KEYS.detail (id updatedMemory)).
  set (c1 := setQueryData kd (DataMemory updatedMemory) now c0).
  set (c2 := invalidateQueries (ArgKey MEMORY_KEYS.lists) c1).
  set (c3 := invalidateQueries (ArgKey (MEMORY_KEYS.stats (assistant_id updatedMemory))) c2).
  destruct (setQueryData_find kd (DataMemory updatedMemory) now c0)
    as ((q & Hq & Hd & Hi & Hu) & Hother). fold c1 in Hq, Hother.
  assert (find_query kd (queries c3) = Some q) as Hq3.
  { subst c3 c2. rewrite !invalidate_unmatched; done. }
  split_and!.
  - by exists q.
  - intros filters q0 Hq0.
    assert (find_query (MEMORY_KEYS.list filters) (queries c1) = Some q0) as H1.
    { rewrite Hother; [done|]. discriminate. }
    destruct (invalidate_matched (ArgKey MEMORY_KEYS.lists) c1 _ _ H1)
      as (q2 & H2 & Hd2 & Hi2). fold c2 in H2.
    destruct (invalidate_matched (ArgKey (MEMORY_KEYS.stats (assistant_id updatedMemory)))
                c2 _ _ H2) as (q3 & H3 & Hd3 & Hi3). fold c3 in H3.
    exists q3. split_and!; [done|congruence|]. apply Hi3. left. apply Hi2. by right.
  - intros now' options Hfresh. unfold mount, useQuery.
    cbn [hook_queryKey hook_queryFn]. fold kd.
    destruct (build_log kd (Some (getMemory (id updatedMemory))) c3) as [_ Hlog].
    destruct (hook_enabled _); [|done].
    set (c4 := mkClient _ _ _).
    assert (∃ q4, find_query kd (queries c4) = Some q4 ∧ isInvalidated q4 = false
                  ∧ dataUpdatedAt q4 = Some now) as (q4 & Hq4 & Hi4 & Hu4).
    { subst c4. cbn [queries]. rewrite find_update_eq by done.
      unfold build. rewrite Hq3. cbn [queries]. rewrite find_update_eq by done.
      rewrite Hq3. cbn. by eexists. }
    rewrite Hq4. unfold isStale. rewrite Hi4, Hu4. cbn [orb].
    replace (now + staleTime <=? now')%Z with false by (symmetry; apply Z.leb_gt; lia).
    done.
Qed.

(** X21. A successful deletion removes the detail entry of the deleted
    memory, leaves every other entry in the cache with its data, marks
    every one of them invalidated, whatever it caches, and shows one
    success toast. *)
Theorem delete_invalidates_every_entry deletedId remote a :
  remote 0%nat = Resolved () →
  let a' := snd (useDeleteMemory deletedId remote a) in
  find_query (MEMORY_KEYS.detail deletedId) (queries (client a')) = None
  ∧ (∀ k q, find_query k (queries (client a)) = Some q →
       partialMatchKey k (MEMORY_KEYS.detail deletedId) = false →
       ∃ q', find_query k (queries (client a')) = Some q'
         ∧ data q' = data q ∧ isInvalidated q' = true)
  ∧ (∀ k q', find_query k (queries (client a')) = Some q' → isInvalidated q' = true)
  ∧ toasts a' = toasts a ++ [toast_success "Memory deleted successfully"].
Proof.
  intros Hr. cbn zeta.
  destruct (delete_removes_and_invalidates deletedId remote a Hr) as [Hgone Hall].
  split_and!; [done| |done|].
  - revert Hgone Hall. unfold useDeleteMemory.
    rewrite (useMutation_resolved _ _ _ _ _ _ _ Hr).
    unfold with_client, toast. cbn [snd client toasts].
    set (c0 := mkClient _ _ _).
    set (c1 := removeQueries (ArgKey (MEMORY_KEYS.detail deletedId)) c0).
    set (c2 := invalidateQueries (ArgKey MEMORY_KEYS.lists) c1).
    intros _ _ k q Hq Hm.
    assert (find_query k (queries c1) = Some q) as H1.
    { subst c1. rewrite removeQueries_find. unfold matchKey. cbn [parseFilterArgs filters_queryKey].
      by rewrite Hm. }
    destruct (invalidate_matched (ArgKey MEMORY_KEYS.lists) c1 _ _ H1)
      as (q2 & H2 & Hd2 & _). fold c2 in H2.
    destruct (invalidate_matched ArgFunction c2 _ _ H2) as (q3 & H3 & Hd3 & Hi3).
    exists q3. split_and!; [done|congruence|]. apply Hi3. by right.
  - unfold useDeleteMemory. by rewrite (useMutation_resolved _ _ _ _ _ _ _ Hr).
Qed.

(** X22. A successful recording of an access shows no toast and
    invalidates the detail entry of the memory and the most-accessed view
    that was read without an assistant; every other entry is left as it
    was, and the most-accessed view of a given assistant is among those. *)
Theorem record_access_refreshes accessedId remote a :
  remote 0%nat = Resolved () →
  let a' := snd (useRecordAccess accessedId remote a) in
  toasts a' = toasts a
  ∧ (∀ k q, find_query k (queries (client a)) = Some q →
       ∃ q', find_query k (queries (client a')) = Some q'
         ∧ data q' = data q
         ∧ (if partialMatchKey k (MEMORY_KEYS.detail accessedId)
               || partialMatchKey k (MEMORY_KEYS.accessed None)
            then isInvalidated q' = true
            else q' = q))
  ∧ partialMatchKey (MEMORY_KEYS.detail accessedId) (MEMORY_KEYS.detail accessedId) = true
  ∧ partialMatchKey (MEMORY_KEYS.accessed None) (MEMORY_KEYS.accessed None) = true
  ∧ (∀ assistantId,
       partialMatchKey (MEMORY_KEYS.accessed (Some assistantId))
         (MEMORY_KEYS.detail accessedId) = false
       ∧ partialMatchKey (MEMORY_KEYS.accessed (Some assistantId))
           (MEMORY_KEYS.accessed None) = false).
Proof.
  intros Hr. cbn zeta. unfold useRecordAccess.
  rewrite (useMutation_resolved _ _ _ _ _ _ _ Hr).
  unfold with_client. cbn [snd client toasts].
  set (c0 := mkClient _ _ _).
  split_and!; [done| | | |].
  - intros k q Hq.
    assert (find_query k (queries c0) = Some q) as H0 by done.
    pose proof (invalidateQueries_find (ArgKey (MEMORY_KEYS.detail accessedId)) c0 k) as H1.
    rewrite H0 in H1. destruct H1 as (q1 & H1 & Hd1 & Hk1 & Hm1).
    set (c1 := invalidateQueries _ c0) in *.
    pose proof (invalidateQueries_find (ArgKey (MEMORY_KEYS.accessed None)) c1 k) as H2.
    rewrite H1 in H2. destruct H2 as (q2 & H2 & Hd2 & Hk2 & Hm2).
    exists q2. split_and!; [done|congruence|].
    unfold matchKey in *. cbn [parseFilterArgs filters_queryKey] in *.
    destruct (partialMatchKey k (MEMORY_KEYS.detail accessedId)); cbn [orb]; [auto|].
    destruct (partialMatchKey k (MEMORY_KEYS.accessed None)); [auto|]. congruence.
  - cbn. by rewrite !bool_decide_eq_true_2 by done.
  - reflexivity.
  - intros assistantId. split; reflexivity.
Qed.

(** X23. A successful bulk deletion invalidates the entry of every read
    hook of the file, keeping its data, and shows the number of deleted
    memories the server reported. *)
Theorem bulk_delete_invalidates_all_reads ids remote result a :
  remote 0%nat = Resolved result →
  let a' := snd (useBulkDeleteMemories ids remote a) in
  (∀ r q, find_query (hook_queryKey r) (queries (client a)) = Some q →
     ∃ q', find_query (hook_queryKey r) (queries (client a')) = Some q'
       ∧ data q' = data q ∧ isInvalidated q' = true)
  ∧ toasts a'
    = toasts a ++ [toast_success ("Deleted " +:+ pretty (deleted_count result) +:+ " memories")].
Proof.
  intros Hr. cbn zeta. unfold useBulkDeleteMemories.
  rewrite (useMutation_resolved _ _ _ _ _ _ _ Hr).
  unfold with_client, toast. cbn [snd client toasts].
  set (c0 := mkClient _ _ _).
  split; [|done].
  intros r q Hq.
  destruct (invalidate_matched (ArgKey MEMORY_KEYS.all) c0 _ _ Hq) as (q' & Hq' & Hd & Hi).
  exists q'. split_and!; [done|done|]. apply Hi. right. by destruct r.
Qed.

Lemma first_read_fetching k fn now c :
  find_query k (queries c) = None →
  fetching_in (queries (useQuery k fn true now c)) k.
Proof.
  intros Hnone. unfold useQuery, build. rewrite Hnone. cbn [queries outstanding requests].
  assert (find_query k (update_query k add_observer (queries c ++ [new_query k (Some fn)]))
          = Some (add_observer (new_query k (Some fn)))) as Hq.
  { rewrite find_update_eq by done. rewrite find_app, Hnone. cbn.
    by rewrite decide_True by done. }
  rewrite Hq. cbn. unfold fetch. cbn [queries]. rewrite Hq. cbn.
  eexists. split.
  { rewrite find_update_eq by done. rewrite Hq. reflexivity. }
  reflexivity.
Qed.

(** X24. The limit of a read is not part of its cache key: when two read
    hooks have the same key (the recent view of one assistant asked with
    two limits, say) and no entry exists yet, the first to mount sends its
    request and the second sends none, so the only request carries the
    limit of the first. *)
Theorem limit_not_in_key r1 r2 now1 now2 c :
  hook_queryKey r1 = hook_queryKey r2 →
  hook_enabled r1 = true →
  find_query (hook_queryKey r1) (queries c) = None →
  requests (mount r2 now2 (mount r1 now1 c)) = requests c ++ [hook_queryFn r1].
Proof.
  intros Hkey Hen Hnone. unfold mount at 1. rewrite <- Hkey.
  destruct (useQuery_joins (hook_queryKey r1) (hook_queryFn r2) (hook_enabled r2) now2
              (mount r1 now1 c)) as [-> _].
  - unfold mount. rewrite Hen. by apply first_read_fetching.
  - unfold mount. rewrite Hen. by apply useQuery_first_read.
Qed.

End HookFacts.

Section HookExamples.
Import Types Service Cache MemoryHooks Scenarios HookScenarios.

(** X20, on the warm cache: memory 42 is updated at time 20. *)
Lemma update_seeds_detail_witness :
  ∃ q, find_query (MEMORY_KEYS.detail 42)
         (queries (client (snd (useUpdateMemory (42%Z, update_request) 20
                                  (always (Resolved updated_42)) warm_app)))) = Some q
    ∧ data q = Some (DataMemory updated_42)
    ∧ isInvalidated q = false
    ∧ dataUpdatedAt q = Some 20%Z.
Proof.
  exact (proj1 (update_seeds_detail 42 update_request 20 (always (Resolved updated_42))
                  updated_42 warm_app eq_refl)).
Defined.

(** X21, on the warm cache: memory 42 is deleted. *)
Lemma delete_invalidates_every_entry_witness :
  find_query (MEMORY_KEYS.detail 42)
    (queries (client (snd (useDeleteMemory 42 (always (Resolved ())) warm_app)))) = None
  ∧ toasts (snd (useDeleteMemory 42 (always (Resolved ())) warm_app))
    = [toast_success "Memory deleted successfully"].
Proof.
  destruct (delete_invalidates_every_entry 42 (always (Resolved ())) warm_app eq_refl)
    as (Hgone & _ & _ & Htoast).
  split; [exact Hgone|exact Htoast].
Defined.

(** X22, on the warm cache: an access to memory 42 is recorded. *)
Lemma record_access_refreshes_witness :
  toasts (snd (useRecordAccess 42 (always (Resolved ())) warm_app)) = []
  ∧ partialMatchKey (MEMORY_KEYS.accessed (Some 7%Z)) (MEMORY_KEYS.accessed None) = false.
Proof.
  destruct (record_access_refreshes 42 (always (Resolved ())) warm_app eq_refl)
    as (Htoast & _ & _ & _ & Hmiss).
  split; [exact Htoast|exact (proj2 (Hmiss 7%Z))].
Defined.

(** X23, on the warm cache: two memories are deleted in bulk. *)
Lemma bulk_delete_invalidates_all_reads_witness :
  toasts (snd (useBulkDeleteMemories [42%Z; 43%Z]
                 (always (Resolved (mkBulkDeleteResult 2))) warm_app))
  = [toast_success "Deleted 2 memories"].
Proof.
  exact (proj2 (bulk_delete_invalidates_all_reads [42%Z; 43%Z]
                  (always (Resolved (mkBulkDeleteResult 2))) (mkBulkDeleteResult 2)
                  warm_app eq_refl)).
Defined.

(** X24, on an empty cache: the recent view of assistant 7 is read with
    limit 5 and then with limit 20; only the request with limit 5 is sent. *)
Lemma limit_not_in_key_witness :
  requests (mount recent_twenty 1 (mount recent_five 0 empty_client))
  = [getRecentMemories (Some 7%Z) 5].
Proof.
  exact (limit_not_in_key recent_five recent_twenty 0 1 empty_client eq_refl eq_refl
           eq_refl).
Defined.


End HookExamples.

(** * Properties of the requests of the memory service *)

Section RequestFacts.
Import Types Service Requests.

Lemma string_length_app (s t : string) :
  String.length (s +:+ t) = (String.length s + String.length t)%nat.
Proof.
  induction s as [|c s IH]; [done|].
  change (String c s +:+ t) with (String c (s +:+ t)). cbn. by rewrite IH.
Qed.

Lemma string_app_inj_r (t s1 s2 : string) : s1 +:+ t = s2 +:+ t → s1 = s2.
Proof.
  revert s2. induction s1 as [|c s1 IH]; intros [|d s2] Heq.
  - done.
  - apply (f_equal String.length) in Heq.
    rewrite !string_length_app in Heq. cbn in Heq. lia.
  - apply (f_equal String.length) in Heq.
    rewrite !string_length_app in Heq. cbn in Heq. lia.
  - change (String c (s1 +:+ t) = String d (s2 +:+ t)) in Heq.
    injection Heq as -> Heq. f_equal. by apply IH.
Qed.

Lemma pretty_N_char_numeric x s : starts_numeric (String (pretty_N_char x) s) = true.
Proof. unfold pretty_N_char. by repeat case_match. Qed.

Lemma pretty_N_go_numeric x : ∀ s,
  starts_numeric s = true → starts_numeric (pretty_N_go x s) = true.
Proof.
  induction (N.lt_wf_0 x) as [x _ IH]. intros s Hs.
  destruct (decide (x = 0)%N) as [->|Hx]; [by rewrite pretty_N_go_0|].
  rewrite pretty_N_go_step by lia. apply IH.
  - apply N.div_lt; lia.
  - apply pretty_N_char_numeric.
Qed.

Lemma pretty_N_numeric (x : N) : starts_numeric (pretty x) = true.
Proof.
  unfold pretty, pretty_N. destruct (decide (x = 0)%N) as [->|Hx]; [done|].
  rewrite pretty_N_go_step by lia. apply pretty_N_go_numeric, pretty_N_char_numeric.
Qed.

Lemma pretty_Z_numeric (z : Z) : starts_numeric (pretty z) = true.
Proof.
  destruct z as [|p|p]; [done| |done]. exact (pretty_N_numeric (N.pos p)).
Qed.

Lemma starts_numeric_app s t : starts_numeric s = true → starts_numeric (s +:+ t) = true.
Proof. by destruct s. Qed.

Lemma memory_type_name_inv t : memory_type_of_name (memory_type_name t) = Some t.
Proof. by destruct t. Qed.

Lemma params_filters_inv filters : params_filters (filters_params filters) = filters.
Proof.
  destruct filters as [a t lo hi tg sh sk li].
  unfold params_filters, filters_params. cbn [filter_assistant_id filter_memory_type
    min_importance max_importance filter_tags include_shared skip limit].
  destruct a, t as [t|], lo, hi, tg, sh, sk, li; cbn;
    rewrite ?memory_type_name_inv; reflexivity.
Qed.

Lemma member_url_inj (i j : Z) (suffix : string) :
  "/memories/" +:+ pretty i +:+ suffix = "/memories/" +:+ pretty j +:+ suffix → i = j.
Proof.
  intros Heq. apply (inj (String.append "/memories/")) in Heq.
  apply string_app_inj_r in Heq. by apply (inj pretty).
Qed.

Lemma member_url_not (i : Z) (suffix word : string) :
  starts_numeric word = false → "/memories/" +:+ pretty i +:+ suffix ≠ "/memories/" +:+ word.
Proof.
  intros Hw Heq. apply (inj (String.append "/memories/")) in Heq.
  pose proof (starts_numeric_app _ suffix (pretty_Z_numeric i)) as Hn.
  rewrite Heq in Hn. congruence.
Qed.

(** X25. The request of a call of the memory service determines the call:
    two calls that make the same request (method, path, params and body)
    are the same call with the same arguments. The one exception is the
    bulk deletion, whose request is the same whatever the ids, since the
    ids never reach the HTTP client. *)
Theorem request_determines_call call1 call2 :
  request_of call1 = request_of call2 →
  call1 = call2
  ∨ ∃ ids1 ids2, call1 = bulkDeleteMemories ids1 ∧ call2 = bulkDeleteMemories ids2.
Proof.
  assert (∀ i : Z, "/memories/" +:+ pretty i = "/memories/" +:+ pretty i +:+ "") as Hnil.
  { intros i. f_equal. induction (pretty i) as [|c s IH]; [done|].
    change (String c s +:+ "") with (String c (s +:+ "")). congruence. }
  intros Heq.
  pose proof (f_equal method Heq) as Hm. pose proof (f_equal url Heq) as Hu.
  pose proof (f_equal params Heq) as Hp. pose proof (f_equal body Heq) as Hb.
  clear Heq.
  destruct call1 as [f1|i1|d1|i1 d1|i1|i1 l1|i1|a1|ids1|a1 l1|a1 l1|a1 l1];
    destruct call2 as [f2|i2|d2|i2 d2|i2|i2 l2|i2|a2|ids2|a2 l2|a2 l2|a2 l2];
    cbn [request_of apiClient_get apiClient_post apiClient_put apiClient_delete
         method url params body] in Hm, Hu, Hp, Hb;
    try discriminate Hm; try discriminate Hp; try discriminate Hb; try discriminate Hu.
  all: try (exfalso; revert Hu; by apply member_url_not).
  all: try (exfalso; symmetry in Hu; revert Hu; by apply member_url_not).
  - left. injection Hp as Hp. apply (f_equal params_filters) in Hp.
    rewrite !params_filters_inv in Hp. congruence.
  - left. rewrite (Hnil i1), (Hnil i2) in Hu. apply member_url_inj in Hu. congruence.
  - exfalso. rewrite (Hnil i1) in Hu. revert Hu.
    change ("/memories/assistant/" +:+ pretty a2 +:+ "/stats")
      with ("/memories/" +:+ ("assistant/" +:+ pretty a2 +:+ "/stats")).
    by apply member_url_not.
  - left. congruence.
  - left. rewrite (Hnil i1), (Hnil i2) in Hu. apply member_url_inj in Hu. congruence.
  - left. rewrite (Hnil i1), (Hnil i2) in Hu. apply member_url_inj in Hu. congruence.
  - exfalso. rewrite (Hnil i1) in Hu. revert Hu. by apply member_url_not.
  - left. apply member_url_inj in Hu. congruence.
  - left. apply member_url_inj in Hu. congruence.
  - exfalso. symmetry in Hu. rewrite (Hnil i2) in Hu. revert Hu.
    change ("/memories/assistant/" +:+ pretty a1 +:+ "/stats")
      with ("/memories/" +:+ ("assistant/" +:+ pretty a1 +:+ "/stats")).
    by apply member_url_not.
  - left. f_equal.
    change ("/memories/assistant/" +:+ pretty a1 +:+ "/stats")
      with ("/memories/" +:+ ("assistant/" +:+ pretty a1 +:+ "/stats")) in Hu.
    change ("/memories/assistant/" +:+ pretty a2 +:+ "/stats")
      with ("/memories/" +:+ ("assistant/" +:+ pretty a2 +:+ "/stats")) in Hu.
    apply (inj (String.append "/memories/")) in Hu.
    apply (inj (String.append "assistant/")) in Hu.
    apply string_app_inj_r in Hu. by apply (inj pretty).
  - exfalso. symmetry in Hu. rewrite (Hnil i2) in Hu. revert Hu. by apply member_url_not.
  - right. by exists ids1, ids2.
  - left. unfold assistant_limit in Hp. destruct a1, a2; congruence.
  - left. unfold assistant_limit in Hp. destruct a1, a2; congruence.
  - left. unfold assistant_limit in Hp. destruct a1, a2; congruence.
Qed.

End RequestFacts.

Section RequestExamples.
Import Types Service Requests.

(** X25, on two bulk deletions of different ids: their requests are the
    same request. *)
Lemma request_determines_call_witness :
  request_of (bulkDeleteMemories [1%Z; 2%Z]) = request_of (bulkDeleteMemories [3%Z])
  ∧ body (request_of (bulkDeleteMemories [1%Z; 2%Z])) = None
  ∧ (bulkDeleteMemories [1%Z; 2%Z] = bulkDeleteMemories [3%Z]
     ∨ ∃ ids1 ids2, bulkDeleteMemories [1%Z; 2%Z] = bulkDeleteMemories ids1
                    ∧ bulkDeleteMemories [3%Z] = bulkDeleteMemories ids2).
Proof.
  split; [reflexivity|]. split; [reflexivity|].
  apply (request_determines_call (bulkDeleteMemories [1%Z; 2%Z])
           (bulkDeleteMemories [3%Z])).
  reflexivity.
Defined.

End RequestExamples.
